(** * krpcgo: the kRPC value codec and the RPC client

    A shallow embedding of
    - [lib/encode/encode.go]: [Marshal] and [Unmarshal], the reflective
      codec between Go values and kRPC's protobuf encoding;
    - the client ([KRPCClientConfig.SetDefaults], [connectRPC],
      [connectStream], [Close], [send], [receive], [readMessageLength],
      [CallMultiple], [Call]).

    Go values are modelled with their dynamic type, as the [interface{}]
    arguments of the codec carry it.  Machine integers are [Z] with the
    wrap-around of every conversion written out, floats are their IEEE-754 bit
    patterns (the codec only moves bits), byte slices are [list byte].
    A call that can return an error or panic returns an [outcome]. *)

From Stdlib Require Import String Ascii.
From Stdlib.Strings Require Import Byte.
From Stdlib Require Import ZArith List Lia Bool.
Import ListNotations.
Local Open Scope Z_scope.

(** ** Bytes and fixed-width integers *)

Definition bytes := list byte.

Definition Z_of_byte (b : byte) : Z := Z.of_N (Byte.to_N b).

(** Go's [byte(v)]: the low eight bits. *)
Definition byte_of_Z (z : Z) : byte :=
  match Byte.of_N (Z.to_N (z mod 256)) with
  | Some b => b
  | None => x00
  end.

Definition uint32 (z : Z) : Z := z mod 2 ^ 32.
Definition uint64 (z : Z) : Z := z mod 2 ^ 64.
Definition int32 (z : Z) : Z := (z + 2 ^ 31) mod 2 ^ 32 - 2 ^ 31.
Definition int64 (z : Z) : Z := (z + 2 ^ 63) mod 2 ^ 64 - 2 ^ 63.

Definition is_int32 (z : Z) : Prop := - 2 ^ 31 <= z < 2 ^ 31.
Definition is_int64 (z : Z) : Prop := - 2 ^ 63 <= z < 2 ^ 63.
Definition is_uint32 (z : Z) : Prop := 0 <= z < 2 ^ 32.
Definition is_uint64 (z : Z) : Prop := 0 <= z < 2 ^ 64.

(** The largest allocation of the Go runtime on 64-bit platforms:
    [make([]byte, n)] panics above it, and no byte slice is longer. *)
Definition maxAlloc : Z := 2 ^ 48.

Definition go_slice (b : bytes) : Prop := Z.of_nat (length b) <= maxAlloc.

Definition go_sliceb (b : bytes) : bool := Z.of_nat (length b) <=? maxAlloc.

(** ** The protobuf wire primitives used by the codec

    [proto.Buffer] and [protowire] belong to the protobuf library; the codec
    and the frame reader call them. *)

Module Wire.

Inductive ParseError : Set :=
| errCodeTruncated
| errCodeFieldNumber
| errCodeOverflow
| errCodeReserved
| errCodeEndGroup.

(** Modelled from the spec: "protobuf base-128 varint (LEB128, 7 bits/byte,
    MSB = continuation)".  [n] bounds the continuation bytes: a uint64 takes
    at most ten bytes. *)
Fixpoint AppendVarint_loop (n : nat) (v : Z) : bytes :=
  match n with
  | O => [byte_of_Z v]
  | S n' =>
      if v <? 128 then [byte_of_Z v]
      else byte_of_Z (Z.lor (Z.land v 127) 128)
             :: AppendVarint_loop n' (Z.shiftr v 7)
  end.

Definition EncodeVarint (v : Z) : bytes := AppendVarint_loop 9 (uint64 v).

(** [protowire.ConsumeVarint]: the value and the bytes left, or why not.
    [n] is the number of bytes that may still carry the continuation bit; the
    tenth byte must be 0 or 1. *)
Fixpoint ConsumeVarint_loop (n : nat) (shift acc : Z) (b : bytes)
  : (Z * bytes) + ParseError :=
  match b with
  | [] => inr errCodeTruncated
  | y :: b' =>
      let y := Z_of_byte y in
      match n with
      | O => if y <? 2 then inl (acc + Z.shiftl y shift, b')
             else inr errCodeOverflow
      | S n' =>
          if y <? 128 then inl (acc + Z.shiftl y shift, b')
          else ConsumeVarint_loop n' (shift + 7)
                 (acc + Z.shiftl (y - 128) shift) b'
      end
  end.

Definition ConsumeVarint (b : bytes) : (Z * bytes) + ParseError :=
  ConsumeVarint_loop 9 0 0 b.

(** [proto.DecodeVarint]: the value and the number of bytes it took, [(0, 0)]
    when the bytes hold no complete varint. *)
Definition DecodeVarint (b : bytes) : Z * nat :=
  match ConsumeVarint b with
  | inl (v, rest) => (v, (length b - length rest)%nat)
  | inr _ => (0, O)
  end.

(** [Buffer.EncodeZigzag32(x)]:
    [EncodeVarint(uint64((uint32(x) << 1) ^ uint32((int32(x) >> 31))))]. *)
Definition EncodeZigzag32 (x : Z) : bytes :=
  EncodeVarint
    (uint64 (Z.lxor (uint32 (Z.shiftl (uint32 x) 1))
                    (uint32 (Z.shiftr (int32 x) 31)))).

(** [Buffer.EncodeZigzag64(x)]:
    [EncodeVarint(uint64((x << 1) ^ uint64((int64(x) >> 63))))]. *)
Definition EncodeZigzag64 (x : Z) : bytes :=
  EncodeVarint
    (uint64 (Z.lxor (uint64 (Z.shiftl (uint64 x) 1))
                    (uint64 (Z.shiftr (int64 x) 63)))).

(** [Buffer.DecodeZigzag32]:
    [uint64((uint32(x) >> 1) ^ uint32((int32(x&1) << 31) >> 31))]. *)
Definition unzigzag32 (x : Z) : Z :=
  uint64 (Z.lxor (Z.shiftr (uint32 x) 1)
                 (uint32 (Z.shiftr (int32 (Z.shiftl (int32 (Z.land x 1)) 31)) 31))).

(** [Buffer.DecodeZigzag64]: [(x >> 1) ^ uint64((int64(x&1) << 63) >> 63)]. *)
Definition unzigzag64 (x : Z) : Z :=
  Z.lxor (Z.shiftr x 1)
         (uint64 (Z.shiftr (int64 (Z.shiftl (int64 (Z.land x 1)) 63)) 63)).

(** Little-endian fixed-width words. *)
Fixpoint le_bytes (n : nat) (v : Z) : bytes :=
  match n with
  | O => []
  | S n' => byte_of_Z v :: le_bytes n' (Z.shiftr v 8)
  end.

Fixpoint le_value (b : bytes) : Z :=
  match b with
  | [] => 0
  | y :: b' => Z_of_byte y + Z.shiftl (le_value b') 8
  end.

Definition EncodeFixed32 (x : Z) : bytes := le_bytes 4 (uint32 x).
Definition EncodeFixed64 (x : Z) : bytes := le_bytes 8 (uint64 x).

Definition ConsumeFixed (n : nat) (b : bytes) : (Z * bytes) + ParseError :=
  if (length b <? n)%nat then inr errCodeTruncated
  else inl (le_value (firstn n b), skipn n b).

(** [protowire.AppendBytes] / [ConsumeBytes]: varint length, then the bytes. *)
Definition AppendBytes (v : bytes) : bytes :=
  EncodeVarint (Z.of_nat (length v)) ++ v.

Definition ConsumeBytes (b : bytes) : (bytes * bytes) + ParseError :=
  match ConsumeVarint b with
  | inr e => inr e
  | inl (m, rest) =>
      if Z.of_nat (length rest) <? m then inr errCodeTruncated
      else inl (firstn (Z.to_nat m) rest, skipn (Z.to_nat m) rest)
  end.

End Wire.

(** ** Results of Go calls *)

(** The run-time panics the modelled code can raise.  [IllTyped] stands for the
    values of the model that no Go program can build (a pointer whose target
    is not of its element type). *)
Inductive panic : Set :=
| NilDereference        (* a method or field reached through a nil pointer *)
| ZeroValueInterface    (* reflect: call of reflect.Value.Interface on zero Value *)
| UnexportedField       (* reflect.Value.Interface: value obtained from an unexported field *)
| FieldOutOfRange       (* reflect: Field index out of range *)
| IndexOutOfRange       (* index out of range [0] with length 0 *)
| MakeSliceOutOfRange   (* makeslice: len out of range *)
| IllTyped.

(** ** Go types and values seen by the codec ([reflect.Type], [interface{}]) *)

Inductive GoType : Set :=
| TInt32 | TInt64 | TUint32 | TUint64 | TBool
| TFloat32 | TFloat64 | TString
| TBytes                            (* []byte *)
| TEnum                             (* a generated enum, as type Target int32 *)
| TClassObj                         (* a generated class struct embedding service.BaseClass *)
| TMessage                          (* a generated protobuf struct *)
| TSlice (elem : GoType)
| TMap (key elem : GoType)
| TStruct (fields : list GoType)    (* a tuple struct: exported fields only *)
| TPointer (elem : GoType).

(** The wire messages of package [types] ([*types.Error], [ProcedureCall],
    [ProcedureResult], [Response], [ConnectionRequest], [ConnectionResponse]). *)
Record RpcError : Set := {
  err_service : string;
  err_name : string;
  err_description : string;
  err_stack_trace : string
}.

Record Argument : Set := { Position : Z; ArgValue : bytes }.

Record ProcedureCall : Set := {
  Service : string;
  Procedure : string;
  Arguments : list Argument
}.

(** [Error] is a [*types.Error]: [None] is the nil pointer. *)
Record ProcedureResult : Set := {
  Value : bytes;
  Error : option RpcError
}.

Record Response : Set := {
  ResponseError : option RpcError;
  Results : list ProcedureResult
}.

Inductive ConnectionType : Set := ConnectionRequest_RPC | ConnectionRequest_STREAM.

Record ConnectionRequest : Set := {
  Type_ : ConnectionType;
  ClientName_ : string;
  ReqClientIdentifier : bytes
}.

Inductive ConnectionStatus : Set :=
| ConnectionResponse_OK
| ConnectionResponse_MALFORMED_MESSAGE
| ConnectionResponse_TIMEOUT
| ConnectionResponse_WRONG_TYPE
| ConnectionResponse_Status_value (v : Z). (* any other value of the int32 *)

Record ConnectionResponse : Set := {
  Status : ConnectionStatus;
  Message : string;
  ClientIdentifier : bytes
}.

(** Go [error] values.  [tracerr.Wrap] adds a stack trace to an error and keeps
    nil nil; the model identifies an error with its wrapped forms. *)
Inductive error : Set :=
| ErrParse (e : Wire.ParseError)       (* proto.Buffer could not decode *)
| ErrNil                               (* proto.ErrNil: Marshal called with nil *)
| ErrProtoMarshal                      (* proto.Marshal failed *)
| ErrProtoUnmarshal                    (* proto.Unmarshal failed *)
| ErrUnsupportedType (t : GoType)      (* Unsupported type: %v *)
| ErrNotPointer                        (* Message arg is not a pointer *)
| ErrWrongTuple (n : nat)              (* Wrong tuple type; expected %v elements *)
| ErrEOF                               (* io.EOF *)
| ErrUnexpectedEOF                     (* io.ErrUnexpectedEOF *)
| ErrNet (msg : string)                (* an error of package net *)
| ErrMessage (msg : string)            (* tracerr.Errorf(resp.Message) *)
| ErrNoLength (rawLength : bytes)      (* Message does not appear to start with length: %v *)
| ErrRpc (e : RpcError)                (* a *types.Error returned as error *)
| ErrClose (errors : list (option error)). (* Failed to close connection(s): %v *)

Inductive outcome (A : Type) : Type :=
| Ok (a : A)
| Err (e : error)
| Panic (p : panic).
Arguments Ok {A} a.
Arguments Err {A} e.
Arguments Panic {A} p.

Definition bind {A B : Type} (x : outcome A) (k : A -> outcome B) : outcome B :=
  match x with
  | Ok a => k a
  | Err e => Err e
  | Panic p => Panic p
  end.

Notation "x <- e ;; k" := (bind e (fun x => k))
  (at level 61, e at next level, right associativity).

Definition of_parse {A : Type} (r : A + Wire.ParseError) : outcome A :=
  match r with
  | inl a => Ok a
  | inr e => Err (ErrParse e)
  end.

Definition of_option {A : Type} (e : error) (r : option A) : outcome A :=
  match r with
  | Some a => Ok a
  | None => Err e
  end.

(** The loops of the codec: each runs its body over a list in order and stops
    at the first error or panic. *)
Definition mapM {A B : Type} (f : A -> outcome B) : list A -> outcome (list B) :=
  fix each (l : list A) : outcome (list B) :=
    match l with
    | [] => Ok []
    | x :: l' => y <- f x ;; rest <- each l' ;; Ok (y :: rest)
    end.

Definition foldM {A S : Type} (f : S -> A -> outcome S) : list A -> S -> outcome S :=
  fix each (l : list A) (s : S) : outcome S :=
    match l with
    | [] => Ok s
    | x :: l' => s' <- f s x ;; each l' s'
    end.

(** ** The generated protobuf messages

    [proto.Marshal] and [proto.Unmarshal] on the generated messages of
    package [types] (the collection messages [List], [Set], [Tuple] and
    [Dictionary], the RPC and handshake messages) and on the application
    messages of the services ([Msg]).  The generated code is not part of the
    codec or the client; they take it as given. *)
Class ProtoLib (Msg : Set) : Type := {
  Msg_zero : Msg;                        (* the zero value of the struct *)
  proto_Marshal : Msg -> option bytes;
  proto_Unmarshal : bytes -> option Msg;
  Marshal_List : list bytes -> bytes;
  Unmarshal_List : bytes -> option (list bytes);
  Marshal_Set : list bytes -> bytes;
  Unmarshal_Set : bytes -> option (list bytes);
  Marshal_Tuple : list bytes -> bytes;
  Unmarshal_Tuple : bytes -> option (list bytes);
  Marshal_Dictionary : list (bytes * bytes) -> bytes;
  Unmarshal_Dictionary : bytes -> option (list (bytes * bytes));
  Marshal_Request : list ProcedureCall -> option bytes;
  Unmarshal_Response : bytes -> option Response;
  Marshal_ConnectionRequest : ConnectionRequest -> option bytes;
  Unmarshal_ConnectionResponse : bytes -> option ConnectionResponse
}.

(** What protobuf promises of the messages the codec builds: parsing what was
    serialized gives the message back.  The byte slices in a message are Go
    byte slices. *)
Record ProtoLawful {Msg : Set} (P : ProtoLib Msg) : Prop := {
  proto_roundtrip :
    forall (m : Msg) (b : bytes), proto_Marshal m = Some b -> proto_Unmarshal b = Some m;
  List_roundtrip :
    forall items, Forall go_slice items ->
                  Unmarshal_List (Marshal_List items) = Some items;
  Set_roundtrip :
    forall items, Forall go_slice items ->
                  Unmarshal_Set (Marshal_Set items) = Some items;
  Tuple_roundtrip :
    forall items, Forall go_slice items ->
                  Unmarshal_Tuple (Marshal_Tuple items) = Some items;
  Dictionary_roundtrip :
    forall entries,
      Forall (fun e => go_slice (fst e) /\ go_slice (snd e)) entries ->
      Unmarshal_Dictionary (Marshal_Dictionary entries) = Some entries
}.

(** ** Package encode *)

Section Encode.
Context {Msg : Set} {P : ProtoLib Msg}.

(** A Go value together with its dynamic type.  A slice, a map and a pointer
    carry their element types, as an empty slice or a nil pointer still has its
    type.  A map is the list of its entries in the order [MapRange] visits
    them.  [VClassObj id] is a class struct: its [BaseClass] holds the
    unexported [id] and the [Client] back-reference, which [Marshal] never
    reads and [Unmarshal] never writes. *)
Inductive GoValue : Type :=
| VInt32 (v : Z)
| VInt64 (v : Z)
| VUint32 (v : Z)
| VUint64 (v : Z)
| VBool (v : bool)
| VFloat32 (bits : Z)               (* math.Float32bits of the value *)
| VFloat64 (bits : Z)               (* math.Float64bits of the value *)
| VString (s : string)
| VBytes (b : bytes)
| VEnum (v : Z)
| VClassObj (id : Z)
| VMessage (m : Msg)
| VSlice (elem : GoType) (items : list GoValue)
| VMap (key elem : GoType) (entries : list (GoValue * GoValue))
| VStruct (fields : list GoValue)
| VPointer (elem : GoType) (target : option GoValue).

(** [reflect.TypeOf]. *)
Fixpoint type_of (m : GoValue) : GoType :=
  match m with
  | VInt32 _ => TInt32
  | VInt64 _ => TInt64
  | VUint32 _ => TUint32
  | VUint64 _ => TUint64
  | VBool _ => TBool
  | VFloat32 _ => TFloat32
  | VFloat64 _ => TFloat64
  | VString _ => TString
  | VBytes _ => TBytes
  | VEnum _ => TEnum
  | VClassObj _ => TClassObj
  | VMessage _ => TMessage
  | VSlice e _ => TSlice e
  | VMap k e _ => TMap k e
  | VStruct fields => TStruct (map type_of fields)
  | VPointer e _ => TPointer e
  end.

(** [isEmptyStruct]: [t.Kind() == reflect.Struct && t.NumField() == 0].  A
    class struct and a protobuf struct have fields. *)
Definition isEmptyStruct (t : GoType) : bool :=
  match t with
  | TStruct [] => true
  | _ => false
  end.

Definition isPointer (t : GoType) : bool :=
  match t with
  | TPointer _ => true
  | _ => false
  end.

(** The bytes [buf] holds after the first type switch of [Marshal], for the
    cases that write to [buf] (lines 33 to 56); empty in every other case. *)
Definition marshal_buf (m : GoValue) : bytes :=
  match m with
  | VInt32 v => Wire.EncodeZigzag32 (uint64 v)
  | VInt64 v => Wire.EncodeZigzag64 (uint64 v)
  | VUint32 v => Wire.EncodeVarint (uint64 v)
  | VUint64 v => Wire.EncodeVarint v
  | VBool v => Wire.EncodeVarint (if v then 1 else 0)
  | VFloat32 bits => Wire.EncodeFixed32 (uint64 bits)
  | VFloat64 bits => Wire.EncodeFixed64 bits
  | VString s => Wire.AppendBytes (list_byte_of_string s)
  | VBytes b => Wire.AppendBytes b
  | _ => []
  end.

(** [Marshal] on a value of a basic type: the switch writes [buf], [b] stays
    nil, and [buf] is returned when it is not empty; otherwise the second
    switch ends in its default case. *)
Definition Marshal_basic (m : GoValue) : outcome bytes :=
  let buf := marshal_buf m in
  if (0 <? length buf)%nat then Ok buf
  else Err (ErrUnsupportedType (type_of m)).

(** [Marshal] (encode.go, lines 20 to 139). *)
Fixpoint Marshal (m : GoValue) : outcome bytes :=
  match m with
  (* case proto.Message: implemented by pointers to protobuf structs *)
  | VPointer TMessage target =>
      match target with
      | Some (VMessage msg) => of_option ErrProtoMarshal (proto_Marshal msg)
      | None => Err ErrNil
      | Some _ => Panic IllTyped
      end
  (* case service.Class: implemented by pointers to class structs *)
  | VPointer TClassObj target =>
      match target with
      | Some (VClassObj id) => Marshal_basic (VUint64 id)
      | None => Panic NilDereference
      | Some _ => Panic IllTyped
      end
  (* case service.Enum: implemented by an enum and by a pointer to one *)
  | VEnum v => Marshal_basic (VInt32 v)
  | VPointer TEnum target =>
      match target with
      | Some (VEnum v) => Marshal_basic (VInt32 v)
      | None => Panic NilDereference
      | Some _ => Panic IllTyped
      end
  (* varints, floats, strings and bytes *)
  | VInt32 _ | VInt64 _ | VUint32 _ | VUint64 _ | VBool _
  | VFloat32 _ | VFloat64 _ | VString _ | VBytes _ => Marshal_basic m
  (* reflect.Slice *)
  | VSlice _ items =>
      items' <- mapM Marshal items ;;
      Ok (Marshal_List items')
  (* reflect.Map *)
  | VMap _ elemType entries =>
      if isEmptyStruct elemType then
        items <- mapM (fun '(k, _) => Marshal k) entries ;;
        Ok (Marshal_Set items)
      else
        dict <- mapM (fun '(k, v) =>
                        keyBytes <- Marshal k ;;
                        valueBytes <- Marshal v ;;
                        Ok (keyBytes, valueBytes)) entries ;;
        Ok (Marshal_Dictionary dict)
  (* reflect.Struct *)
  | VStruct fields =>
      items <- mapM Marshal fields ;;
      Ok (Marshal_Tuple items)
  (* a class struct or a protobuf struct passed by value is a reflect.Struct
     whose first field cannot be read: BaseClass.id, and the message state *)
  | VClassObj _ | VMessage _ => Panic UnexportedField
  (* reflect.Pointer *)
  | VPointer (TPointer _) _ => Err (ErrUnsupportedType (type_of m))
  | VPointer _ (Some x) => Marshal x
  | VPointer _ None => Panic ZeroValueInterface
  end.

(** Go's [==] on floats, read on the bit patterns: a NaN equals nothing, the
    two zeros are equal, every other value equals only itself. *)
Definition float32_eqb (x y : Z) : bool :=
  let nan v := (Z.land v 0x7F800000 =? 0x7F800000) && negb (Z.land v 0x007FFFFF =? 0) in
  let zero v := Z.land v 0x7FFFFFFF =? 0 in
  negb (nan x) && negb (nan y) && ((x =? y) || (zero x && zero y)).

Definition float64_eqb (x y : Z) : bool :=
  let nan v := (Z.land v 0x7FF0000000000000 =? 0x7FF0000000000000)
               && negb (Z.land v 0x000FFFFFFFFFFFFF =? 0) in
  let zero v := Z.land v 0x7FFFFFFFFFFFFFFF =? 0 in
  negb (nan x) && negb (nan y) && ((x =? y) || (zero x && zero y)).

(** Go's [==] on map keys.  Slices, maps and protobuf structs are not
    comparable and are never keys; two pointers are equal when they are the
    same pointer, which two separately allocated values never are. *)
Fixpoint go_eqb (x y : GoValue) : bool :=
  match x, y with
  | VInt32 a, VInt32 b | VInt64 a, VInt64 b
  | VUint32 a, VUint32 b | VUint64 a, VUint64 b
  | VEnum a, VEnum b | VClassObj a, VClassObj b => a =? b
  | VBool a, VBool b => Bool.eqb a b
  | VFloat32 a, VFloat32 b => float32_eqb a b
  | VFloat64 a, VFloat64 b => float64_eqb a b
  | VString a, VString b => String.eqb a b
  | VStruct fs, VStruct gs =>
      (fix all2 (l l' : list GoValue) : bool :=
         match l, l' with
         | [], [] => true
         | a :: l, b :: l' => go_eqb a b && all2 l l'
         | _, _ => false
         end) fs gs
  | _, _ => false
  end.

(** [reflect.Value.SetMapIndex]: the entry of an equal key is replaced, key
    and value (the runtime stores the new key over the old one, which shows
    on the two zeros of a float); a new key is added. *)
Fixpoint SetMapIndex (entries : list (GoValue * GoValue)) (k v : GoValue)
  : list (GoValue * GoValue) :=
  match entries with
  | [] => [(k, v)]
  | (k', v') :: rest =>
      if go_eqb k' k then (k, v) :: rest
      else (k', v') :: SetMapIndex rest k v
  end.

(** [reflect.Zero] / [reflect.New(t).Elem()]. *)
Fixpoint zero (t : GoType) : GoValue :=
  match t with
  | TInt32 => VInt32 0
  | TInt64 => VInt64 0
  | TUint32 => VUint32 0
  | TUint64 => VUint64 0
  | TBool => VBool false
  | TFloat32 => VFloat32 0
  | TFloat64 => VFloat64 0
  | TString => VString EmptyString
  | TBytes => VBytes []
  | TEnum => VEnum 0
  | TClassObj => VClassObj 0
  | TMessage => VMessage Msg_zero
  | TSlice e => VSlice e []
  | TMap k e => VMap k e []
  | TStruct fields => VStruct (map zero fields)
  | TPointer e => VPointer e None
  end.

(** [Buffer.DecodeVarint], [DecodeZigzag32], [DecodeZigzag64], [DecodeFixed32],
    [DecodeFixed64], [DecodeRawBytes] on a fresh buffer over [b]. *)
Definition DecodeVarint (b : bytes) : outcome Z :=
  r <- of_parse (Wire.ConsumeVarint b) ;; Ok (fst r).

Definition DecodeZigzag32 (b : bytes) : outcome Z :=
  x <- DecodeVarint b ;; Ok (Wire.unzigzag32 x).

Definition DecodeZigzag64 (b : bytes) : outcome Z :=
  x <- DecodeVarint b ;; Ok (Wire.unzigzag64 x).

Definition DecodeFixed32 (b : bytes) : outcome Z :=
  r <- of_parse (Wire.ConsumeFixed 4 b) ;; Ok (fst r).

Definition DecodeFixed64 (b : bytes) : outcome Z :=
  r <- of_parse (Wire.ConsumeFixed 8 b) ;; Ok (fst r).

Definition DecodeRawBytes (b : bytes) : outcome bytes :=
  r <- of_parse (Wire.ConsumeBytes b) ;; Ok (fst r).

(** The loop over [tuple.Items] (lines 313 to 319): item [i] is decoded into
    field [i] of a zero struct.  A field without an item keeps its zero
    value; an item without a field panics in [Field(i)]. *)
Definition set_fields (decode : GoType -> bytes -> outcome GoValue)
  : list GoType -> list bytes -> outcome (list GoValue) :=
  fix each (fs : list GoType) (l : list bytes) : outcome (list GoValue) :=
    match fs with
    | [] =>
        match l with
        | [] => Ok []
        | _ :: _ => Panic FieldOutOfRange
        end
    | f :: fs' =>
        match l with
        | [] => Ok (zero f :: map zero fs')
        | elemBytes :: l' =>
            x <- decode f elemBytes ;;
            rest <- each fs' l' ;;
            Ok (x :: rest)
        end
    end.

(** [Unmarshal(b, m)] for a non-nil [m] of type [*t] (encode.go, lines 142 to
    326): the value [*m] holds afterwards. *)
Fixpoint UnmarshalPtr (t : GoType) (b : bytes) : outcome GoValue :=
  match t with
  (* case proto.Message *)
  | TMessage =>
      msg <- of_option ErrProtoUnmarshal (proto_Unmarshal b) ;; Ok (VMessage msg)
  (* case service.Class: Unmarshal(b, &u), then v.SetID_internal(u) *)
  | TClassObj => u <- DecodeVarint b ;; Ok (VClassObj u)
  (* case service.SettableEnum: Unmarshal(b, &value), then v.SetValue(value) *)
  | TEnum => u <- DecodeZigzag32 b ;; Ok (VEnum (int32 u))
  | TInt32 => u <- DecodeZigzag32 b ;; Ok (VInt32 (int32 u))
  | TInt64 => u <- DecodeZigzag64 b ;; Ok (VInt64 (int64 u))
  | TUint32 => u <- DecodeVarint b ;; Ok (VUint32 (uint32 u))
  | TUint64 => u <- DecodeVarint b ;; Ok (VUint64 u)
  | TBool => u <- DecodeVarint b ;; Ok (VBool (negb (u =? 0)))
  | TFloat32 => u <- DecodeFixed32 b ;; Ok (VFloat32 (uint32 u))
  | TFloat64 => u <- DecodeFixed64 b ;; Ok (VFloat64 u)
  | TString => s <- DecodeRawBytes b ;; Ok (VString (string_of_list_byte s))
  | TBytes => bb <- DecodeRawBytes b ;; Ok (VBytes bb)
  (* reflect.Slice *)
  | TSlice elemType =>
      items <- of_option ErrProtoUnmarshal (Unmarshal_List b) ;;
      slice <- mapM (fun elemBytes =>
                       match elemType with
                       | TPointer e =>
                           x <- UnmarshalPtr e elemBytes ;;
                           Ok (VPointer e (Some x))
                       | _ => UnmarshalPtr elemType elemBytes
                       end) items ;;
      Ok (VSlice elemType slice)
  (* reflect.Map *)
  | TMap keyType elemType =>
      if isEmptyStruct elemType then
        items <- of_option ErrProtoUnmarshal (Unmarshal_Set b) ;;
        setMap <- foldM (fun setMap elemBytes =>
                           elem <- UnmarshalPtr keyType elemBytes ;;
                           Ok (SetMapIndex setMap elem (VStruct []))) items [] ;;
        Ok (VMap keyType elemType setMap)
      else
        entries <- of_option ErrProtoUnmarshal (Unmarshal_Dictionary b) ;;
        dictMap <- foldM (fun dictMap '(entryKey, entryValue) =>
                            key <- UnmarshalPtr keyType entryKey ;;
                            out <- match elemType with
                                   | TPointer e =>
                                       x <- UnmarshalPtr e entryValue ;;
                                       Ok (VPointer e (Some x))
                                   | _ => UnmarshalPtr elemType entryValue
                                   end ;;
                            Ok (SetMapIndex dictMap key out)) entries [] ;;
        Ok (VMap keyType elemType dictMap)
  (* reflect.Struct *)
  | TStruct fields =>
      items <- of_option ErrProtoUnmarshal (Unmarshal_Tuple b) ;;
      if negb (length items =? length fields)%nat then
        Err (ErrWrongTuple (length items))
      else
        tupleStruct <- set_fields UnmarshalPtr fields items ;;
        Ok (VStruct tupleStruct)
  (* default *)
  | TPointer _ => Err (ErrUnsupportedType (TPointer t))
  end.

(** [Unmarshal(b, m)] for a non-nil [m] of dynamic type [mType]: no
    non-pointer type is a case of the first switch, so such an [m] is refused
    at line 222. *)
Definition Unmarshal (b : bytes) (mType : GoType) : outcome GoValue :=
  match mType with
  | TPointer t => UnmarshalPtr t b
  | _ => Err ErrNotPointer
  end.

End Encode.

Arguments GoValue Msg : clear implicits.

(** *** Values the codec is meant for *)

Section Values.
Context {Msg : Set} {P : ProtoLib Msg}.

(** How the slice and dictionary loops of [Unmarshal] decode an element of
    type [t] (lines 236 to 250 and 285 to 299): into a new [t], or, when [t]
    is a pointer type, into a new target that the element then points to.
    Generated code decodes a class handle the same way ([var vv Comms], then
    [Unmarshal(b, &vv)]). *)
Definition decode_elem (t : GoType) (b : bytes) : outcome (GoValue Msg) :=
  match t with
  | TPointer e => x <- UnmarshalPtr e b ;; Ok (VPointer e (Some x))
  | _ => UnmarshalPtr t b
  end.

(** The encoding of a value is a Go byte slice. *)
Definition sized (m : GoValue Msg) : Prop :=
  match Marshal m with
  | Ok b => go_slice b
  | _ => True
  end.

(** No two keys of a map are equal. *)
Fixpoint distinct_keys (entries : list (GoValue Msg * GoValue Msg)) : Prop :=
  match entries with
  | [] => True
  | (k, _) :: rest =>
      Forall (fun e => go_eqb k (fst e) = false) rest /\ distinct_keys rest
  end.

(** Values as Go builds them: integers in the range of their type, strings
    and byte slices no longer than the runtime allows, messages that protobuf
    can serialize, elements of the type the collection declares, and no nil
    pointer. *)
Fixpoint well_formed (m : GoValue Msg) : Prop :=
  match m with
  | VInt32 v | VEnum v => is_int32 v
  | VInt64 v => is_int64 v
  | VUint32 v | VFloat32 v => is_uint32 v
  | VUint64 v | VFloat64 v | VClassObj v => is_uint64 v
  | VBool _ => True
  | VString s => go_slice (list_byte_of_string s)
  | VBytes b => go_slice b
  | VMessage msg => proto_Marshal msg <> None
  | VSlice e items =>
      (fix all (l : list (GoValue Msg)) : Prop :=
         match l with
         | [] => True
         | x :: l' => (well_formed x /\ type_of x = e /\ sized x) /\ all l'
         end) items
  | VMap k e entries =>
      distinct_keys entries
      /\ (fix all (l : list (GoValue Msg * GoValue Msg)) : Prop :=
            match l with
            | [] => True
            | (x, y) :: l' =>
                (well_formed x /\ type_of x = k /\ sized x)
                /\ (well_formed y /\ type_of y = e /\ sized y)
                /\ all l'
            end) entries
  | VStruct fields =>
      (fix all (l : list (GoValue Msg)) : Prop :=
         match l with
         | [] => True
         | x :: l' => (well_formed x /\ sized x) /\ all l'
         end) fields
  | VPointer e target =>
      match target with
      | Some x => well_formed x /\ type_of x = e
      | None => False
      end
  end.

(** The types whose values come back from the wire: every kRPC kind, except
    that a tuple component, a set element and a dictionary key may not be of
    pointer type (a class handle or a message). *)
Fixpoint decodable (t : GoType) : bool :=
  match t with
  | TClassObj | TMessage => false
  | TSlice e => decodable e
  | TMap k e =>
      decodable k && negb (isPointer k) && (isEmptyStruct e || decodable e)
  | TStruct fields => forallb (fun f => decodable f && negb (isPointer f)) fields
  | TPointer e =>
      match e with
      | TPointer _ => false
      | TClassObj | TMessage => true
      | _ => decodable e
      end
  | _ => true
  end.

(** What the induction carries: a well-formed value of a decodable type is
    encoded, and its encoding decodes to it the way an element is decoded. *)
Definition comes_back (v : GoValue Msg) : Prop :=
  well_formed v -> decodable (type_of v) = true ->
  exists b, Marshal v = Ok b /\ decode_elem (type_of v) b = Ok v.

End Values.

(** ** Induction on values *)

Section GoValue_induction.
Context {Msg : Set}.
Variable Q : GoValue Msg -> Prop.

Definition atomic (m : GoValue Msg) : Prop :=
  match m with
  | VSlice _ _ | VMap _ _ _ | VStruct _ | VPointer _ _ => False
  | _ => True
  end.

Hypothesis Hatom : forall m, atomic m -> Q m.
Hypothesis Hslice : forall e items, Forall Q items -> Q (VSlice e items).
Hypothesis Hmap :
  forall k e entries,
    Forall (fun kv => Q (fst kv) /\ Q (snd kv)) entries -> Q (VMap k e entries).
Hypothesis Hstruct : forall fields, Forall Q fields -> Q (VStruct fields).
Hypothesis Hnil : forall e, Q (VPointer e None).
Hypothesis Hpointer : forall e x, Q x -> Q (VPointer e (Some x)).

Fixpoint GoValue_nested_ind (m : GoValue Msg) : Q m :=
  match m with
  | VSlice e items =>
      Hslice e items
        ((fix all (l : list (GoValue Msg)) : Forall Q l :=
            match l with
            | [] => Forall_nil Q
            | x :: l' => Forall_cons x (GoValue_nested_ind x) (all l')
            end) items)
  | VMap k e entries =>
      Hmap k e entries
        ((fix all (l : list (GoValue Msg * GoValue Msg))
            : Forall (fun kv => Q (fst kv) /\ Q (snd kv)) l :=
            match l with
            | [] => Forall_nil _
            | (x, y) :: l' =>
                Forall_cons (x, y)
                  (conj (GoValue_nested_ind x) (GoValue_nested_ind y)) (all l')
            end) entries)
  | VStruct fields =>
      Hstruct fields
        ((fix all (l : list (GoValue Msg)) : Forall Q l :=
            match l with
            | [] => Forall_nil Q
            | x :: l' => Forall_cons x (GoValue_nested_ind x) (all l')
            end) fields)
  | VPointer e None => Hnil e
  | VPointer e (Some x) => Hpointer e x (GoValue_nested_ind x)
  | VInt32 v => Hatom (VInt32 v) I
  | VInt64 v => Hatom (VInt64 v) I
  | VUint32 v => Hatom (VUint32 v) I
  | VUint64 v => Hatom (VUint64 v) I
  | VBool v => Hatom (VBool v) I
  | VFloat32 v => Hatom (VFloat32 v) I
  | VFloat64 v => Hatom (VFloat64 v) I
  | VString s => Hatom (VString s) I
  | VBytes b => Hatom (VBytes b) I
  | VEnum v => Hatom (VEnum v) I
  | VClassObj v => Hatom (VClassObj v) I
  | VMessage msg => Hatom (VMessage msg) I
  end.

End GoValue_induction.

(** ** The client (package krpcgo) *)

(** A [net.Conn] is modelled by what it will do: what its next one-byte reads
    return, what its next writes return, and what [Close] returns; it records
    the data of the writes that succeeded (a write that returns an error
    writes nothing) and whether it was closed. *)
Inductive ReadEvent : Set :=
| Delivers (b : byte)
| Fails (e : error).

Record Conn : Set := {
  incoming : list ReadEvent;        (* io.EOF once exhausted *)
  write_results : list (option error); (* success once exhausted *)
  written : list bytes;
  close_result : option error;
  closed : bool
}.

Definition set_incoming (r : Conn) (rest : list ReadEvent) : Conn :=
  {| incoming := rest; write_results := write_results r;
     written := written r; close_result := close_result r;
     closed := closed r |}.

(** [r.Read(b)] with [len(b) = 1]. *)
Definition Read (r : Conn) : (byte + error) * Conn :=
  match incoming r with
  | [] => (inr ErrEOF, r)
  | Delivers b :: rest => (inl b, set_incoming r rest)
  | Fails e :: rest => (inr e, set_incoming r rest)
  end.

Definition Write (w : Conn) (data : bytes) : option error * Conn :=
  let result := hd None (write_results w) in
  (result,
   {| incoming := incoming w; write_results := tl (write_results w);
      written := match result with
                 | None => written w ++ [data]
                 | Some _ => written w
                 end;
      close_result := close_result w;
      closed := closed w |}).

Definition ConnClose (c : Conn) : option error * Conn :=
  (close_result c,
   {| incoming := incoming c; write_results := write_results c;
      written := written c; close_result := close_result c;
      closed := true |}).

(** [io.ReadFull(r, data)] with [len(data) = n]: the bytes read into [data]
    (the rest of [data] stays zero) and the error.  Nothing is read when
    [n = 0]; an [io.EOF] after the first byte becomes
    [io.ErrUnexpectedEOF]. *)
Fixpoint ReadFull_loop (n : nat) (got : bytes) (r : Conn)
  : (bytes * option error) * Conn :=
  match n with
  | O => ((got, None), r)
  | S n' =>
      match Read r with
      | (inl b, r') => ReadFull_loop n' (got ++ [b]) r'
      | (inr e, r') =>
          let e' := match e, got with
                    | ErrEOF, _ :: _ => ErrUnexpectedEOF
                    | _, _ => e
                    end in
          ((got ++ repeat x00 n, Some e'), r')
      end
  end.

Definition ReadFull (r : Conn) (n : nat) : (bytes * option error) * Conn :=
  ReadFull_loop n [] r.

(** [readMessageLength] (lines 265 to 280).  [n] is [16 - len(rawLength)]. *)
Fixpoint readMessageLength_loop (n : nat) (rawLength : bytes) (r : Conn)
  : outcome Z * Conn :=
  match n with
  | O => (Err (ErrNoLength rawLength), r)
  | S n' =>
      match Read r with
      | (inr err, r') => (Err err, r')
      | (inl b, r') =>
          let rawLength := rawLength ++ [b] in
          let '(length, size) := Wire.DecodeVarint rawLength in
          if (0 <? size)%nat then (Ok length, r')
          else readMessageLength_loop n' rawLength r'
      end
  end.

Definition readMessageLength (r : Conn) : outcome Z * Conn :=
  readMessageLength_loop 16 [] r.

(** A byte with the continuation bit set. *)
Definition continues (b : byte) : Prop := 128 <= Z_of_byte b.

(** [send] (lines 231 to 239), on a non-nil writer. *)
Definition send (w : Conn) (data : bytes) : option error * Conn :=
  let rawLength := Wire.EncodeVarint (Z.of_nat (length data)) in
  match Write w rawLength with
  | (Some err, w') => (Some err, w')
  | (None, w') => Write w' data
  end.

(** [receive] (lines 242 to 250), on a non-nil reader: the data returned and
    the error returned with it ([Ok tt] for nil), or the panic of [make]. *)
Definition receive (r : Conn) : (bytes * outcome unit) * Conn :=
  match readMessageLength r with
  | (Err err, r') => (([], Err err), r')
  | (Panic p, r') => (([], Panic p), r')
  | (Ok messageLength, r') =>
      if maxAlloc <? messageLength then (([], Panic MakeSliceOutOfRange), r')
      else
        match ReadFull r' (Z.to_nat messageLength) with
        | ((data, None), r'') => ((data, Ok tt), r'')
        | ((data, Some err), r'') => ((data, Err err), r'')
        end
  end.

Record KRPCClientConfig : Set := {
  Host : string;
  RPCPort : string;
  StreamPort : string;
  ClientName : string;
  RPCOnly : bool
}.

(** [SetDefaults] (lines 94 to 116).  [env] is [os.LookupEnv]: [None] when
    the variable is not set. *)
Definition SetDefaults (env : string -> option string) (cfg : KRPCClientConfig)
  : KRPCClientConfig :=
  let default (field : string) (name : string) (value : string) : string :=
    if String.eqb field "" then
      match env name with
      | Some v => v
      | None => value
      end
    else field in
  {| Host := default (Host cfg) "KRPC_HOST" "localhost";
     RPCPort := default (RPCPort cfg) "KRPC_PORT" "50000";
     StreamPort := default (StreamPort cfg) "KRPC_STREAM_PORT" "50001";
     ClientName := default (ClientName cfg) "KRPC_CLIENTNAME" "krpc-go";
     RPCOnly := RPCOnly cfg |}%string.

(** Modelled from the spec: the stream client is "a second long-lived
    connection" with "one dedicated reader task"; closing it closes that
    connection.  [NewStreamClient], [Run] and [StreamClient.Close] are not in
    the files at hand. *)
Record StreamClient : Set := {
  stream_conn : Conn;
  running : bool
}.

Definition NewStreamClient (conn : Conn) : StreamClient :=
  {| stream_conn := conn; running := false |}.

Definition StreamClient_Run (s : StreamClient) : StreamClient :=
  {| stream_conn := stream_conn s; running := true |}.

Definition StreamClient_Close (s : StreamClient) : option error * StreamClient :=
  let '(err, conn) := ConnClose (stream_conn s) in
  (err, {| stream_conn := conn; running := false |}).

(** [KRPCClient].  [mu] is [true] while the mutex is held; [conn] and
    [streamClient] are [None] while nil. *)
Record KRPCClient : Set := {
  mu : bool;
  config : KRPCClientConfig;
  conn : option Conn;
  streamClient : option StreamClient;
  clientIdentifier : bytes
}.

Definition NewKRPCClient (env : string -> option string) (cfg : KRPCClientConfig)
  : KRPCClient :=
  {| mu := false; config := SetDefaults env cfg; conn := None;
     streamClient := None; clientIdentifier := repeat x00 16 |}.

Definition set_conn (c : KRPCClient) (k : option Conn) : KRPCClient :=
  {| mu := mu c; config := config c; conn := k;
     streamClient := streamClient c; clientIdentifier := clientIdentifier c |}.

Definition set_mu (c : KRPCClient) (locked : bool) : KRPCClient :=
  {| mu := locked; config := config c; conn := conn c;
     streamClient := streamClient c; clientIdentifier := clientIdentifier c |}.

Definition set_streamClient (c : KRPCClient) (s : option StreamClient) : KRPCClient :=
  {| mu := mu c; config := config c; conn := conn c;
     streamClient := s; clientIdentifier := clientIdentifier c |}.

Definition set_clientIdentifier (c : KRPCClient) (id : bytes) : KRPCClient :=
  {| mu := mu c; config := config c; conn := conn c;
     streamClient := streamClient c; clientIdentifier := id |}.

(** [copy(dst[:], src)] into an array: the first [min(len dst, len src)]
    bytes are replaced. *)
Definition copy (dst src : bytes) : bytes :=
  firstn (length dst) src ++ skipn (length src) dst.

(** [Send] and [Receive] (lines 253 to 261): a nil [c.conn] panics at its
    first use. *)
Definition Send (c : KRPCClient) (data : bytes) : outcome unit * KRPCClient :=
  match conn c with
  | None => (Panic NilDereference, c)
  | Some k =>
      match send k data with
      | (Some err, k') => (Err err, set_conn c (Some k'))
      | (None, k') => (Ok tt, set_conn c (Some k'))
      end
  end.

Definition Receive (c : KRPCClient) : (bytes * outcome unit) * KRPCClient :=
  match conn c with
  | None => (([], Panic NilDereference), c)
  | Some k =>
      let '(res, k') := receive k in (res, set_conn c (Some k'))
  end.

(** [net.Dial("tcp", net.JoinHostPort(host, port))]. *)
Definition Network : Set := string -> string -> Conn + error.

Section Client.
Context {Msg : Set} {P : ProtoLib Msg}.

(** [connectRPC] (lines 146 to 179). *)
Definition connectRPC (net : Network) (c : KRPCClient) : outcome unit * KRPCClient :=
  match net (Host (config c)) (RPCPort (config c)) with
  | inr err => (Err err, c)
  | inl k =>
      let c := set_conn c (Some k) in
      let request := {| Type_ := ConnectionRequest_RPC;
                        ClientName_ := ClientName (config c);
                        ReqClientIdentifier := [] |} in
      match Marshal_ConnectionRequest request with
      | None => (Err ErrProtoMarshal, c)
      | Some out =>
          match Send c out with
          | (Err err, c) => (Err err, c)
          | (Panic p, c) => (Panic p, c)
          | (Ok _, c) =>
              match Receive c with
              | ((_, Err err), c) => (Err err, c)
              | ((_, Panic p), c) => (Panic p, c)
              | ((in_, Ok _), c) =>
                  match Unmarshal_ConnectionResponse in_ with
                  | None => (Err ErrProtoUnmarshal, c)
                  | Some resp =>
                      match Status resp with
                      | ConnectionResponse_OK =>
                          (Ok tt,
                           set_clientIdentifier c
                             (copy (clientIdentifier c) (ClientIdentifier resp)))
                      | _ => (Err (ErrMessage (Message resp)), c)
                      end
                  end
              end
          end
      end
  end.

(** [connectStream] (lines 182 to 215).  Every [err] is passed to
    [tracerr.Wrap] and the result dropped: no branch returns.  After a failed
    dial [conn] is nil and [send] panics at its first write.  [in] and [resp]
    are computed and never looked at. *)
Definition connectStream (net : Network) (c : KRPCClient) : outcome unit * KRPCClient :=
  match net (Host (config c)) (StreamPort (config c)) with
  | inr _ => (Panic NilDereference, c)
  | inl k =>
      let request := {| Type_ := ConnectionRequest_STREAM;
                        ClientName_ := EmptyString;
                        ReqClientIdentifier := clientIdentifier c |} in
      let out := match Marshal_ConnectionRequest request with
                 | Some out => out
                 | None => []
                 end in
      let '(_, k) := send k out in
      match receive k with
      | ((_, Panic p), _) => (Panic p, c)
      | ((in_, _), k) =>
          let resp := Unmarshal_ConnectionResponse in_ in
          (Ok tt, set_streamClient c (Some (StreamClient_Run (NewStreamClient k))))
      end
  end.

(** [Connect] (lines 133 to 143). *)
Definition Connect (net : Network) (c : KRPCClient) : outcome unit * KRPCClient :=
  match connectRPC net c with
  | (Ok _, c) =>
      if negb (RPCOnly (config c)) then connectStream net c else (Ok tt, c)
  | r => r
  end.

(** [Close] (lines 218 to 228).  [errors] holds what each [Close] returned,
    nil included. *)
Definition Close (c : KRPCClient) : outcome unit * KRPCClient :=
  let '(errors, c) :=
    match streamClient c with
    | Some s =>
        let '(err, s') := StreamClient_Close s in
        ([err], set_streamClient c (Some s'))
    | None => ([], c)
    end in
  match conn c with
  | None => (Panic NilDereference, c)
  | Some k =>
      let '(err, k') := ConnClose k in
      let errors := errors ++ [err] in
      let c := set_conn c (Some k') in
      if (0 <? length errors)%nat then (Err (ErrClose errors), c)
      else (Ok tt, c)
  end.

(** [CallMultiple] (lines 283 to 313). *)
Definition CallMultiple (c : KRPCClient) (calls : list ProcedureCall)
  : outcome (list ProcedureResult) * KRPCClient :=
  match Marshal_Request calls with
  | None => (Err ErrProtoMarshal, c)
  | Some out =>
      let c := set_mu c true in
      match Send c out with
      | (Err err, c) => (Err err, set_mu c false)
      | (Panic p, c) => (Panic p, c)
      | (Ok _, c) =>
          match Receive c with
          | ((_, Panic p), c) => (Panic p, c)
          | ((_, Err err), c) => (Err err, set_mu c false)
          | ((in_, Ok _), c) =>
              let c := set_mu c false in
              match Unmarshal_Response in_ with
              | None => (Err ErrProtoUnmarshal, c)
              | Some resp =>
                  match ResponseError resp with
                  | Some e => (Err (ErrRpc e), c)
                  | None => (Ok (Results resp), c)
                  end
              end
          end
      end
  end.

(** [Call] (lines 316 to 326). *)
Definition Call (c : KRPCClient) (call : ProcedureCall)
  : outcome ProcedureResult * KRPCClient :=
  match CallMultiple c [call] with
  | (Err err, c) => (Err err, c)
  | (Panic p, c) => (Panic p, c)
  | (Ok resp, c) =>
      match resp with
      | [] => (Panic IndexOutOfRange, c)
      | r :: _ =>
          match Error r with
          | Some e => (Err (ErrRpc e), c)
          | None => (Ok r, c)
          end
      end
  end.

End Client.

(** ** A protobuf library to run the model on

    The wire format of the messages of package [types], after krpc.proto:
    every field is a tag [(number << 3) | wire type] followed by a varint
    (type 0), eight bytes (type 1), a length and that many bytes (type 2) or
    four bytes (type 5).  An unknown field is skipped, and so is a group
    (type 3, up to the end tag of its number, type 4), which no message of
    krpc.proto declares. *)

Module WireProto.

Inductive FieldValue : Set :=
| FVarint (v : Z)
| FFixed64 (v : Z)
| FBytes (b : bytes)
| FGroup (raw : bytes)              (* what follows the start tag, end tag included *)
| FFixed32 (v : Z).

Definition Field : Set := (Z * FieldValue)%type.

Definition AppendTag (num typ : Z) : bytes :=
  Wire.EncodeVarint (Z.lor (Z.shiftl num 3) typ).

Definition AppendField (f : Field) : bytes :=
  match f with
  | (num, FVarint v) => AppendTag num 0 ++ Wire.EncodeVarint v
  | (num, FFixed64 v) => AppendTag num 1 ++ Wire.EncodeFixed64 v
  | (num, FBytes b) => AppendTag num 2 ++ Wire.AppendBytes b
  | (num, FGroup raw) => AppendTag num 3 ++ raw
  | (num, FFixed32 v) => AppendTag num 5 ++ Wire.EncodeFixed32 v
  end.

Definition AppendFields (fs : list Field) : bytes := concat (map AppendField fs).

(** [protowire.ConsumeTag]: inside a group a field number may be as large as
    an int32. *)
Definition ConsumeTag (b : bytes) : option ((Z * Z) * bytes) :=
  match Wire.ConsumeVarint b with
  | inr _ => None
  | inl (tag, rest) =>
      let num := Z.shiftr tag 3 in
      if (2 ^ 31 - 1 <? num) || (num <? 1) then None
      else Some ((num, Z.land tag 7), rest)
  end.

Definition DefaultRecursionLimit : Z := 10000.

(** [protowire.ConsumeFieldValue], as what is left of [b] after the value of
    a field of number [num] and wire type [typ].  A group runs to the end tag
    of its own number; the fields in it are skipped in the same way, one
    level deeper.  Every tag and every level takes a byte, so [fuel] and the
    count of the inner loop, both the length of [b], are never what ends the
    search. *)
Fixpoint consumeFieldValueD (fuel : nat) (num typ : Z) (b : bytes) (depth : Z)
  : option bytes :=
  match typ with
  | 0 => match Wire.ConsumeVarint b with
         | inl (_, rest) => Some rest
         | inr _ => None
         end
  | 1 => match Wire.ConsumeFixed 8 b with
         | inl (_, rest) => Some rest
         | inr _ => None
         end
  | 2 => match Wire.ConsumeBytes b with
         | inl (_, rest) => Some rest
         | inr _ => None
         end
  | 5 => match Wire.ConsumeFixed 4 b with
         | inl (_, rest) => Some rest
         | inr _ => None
         end
  | 3 =>
      if depth <? 0 then None
      else
        match fuel with
        | O => None
        | S fuel' =>
            (fix group (n : nat) (b : bytes) : option bytes :=
               match n with
               | O => None
               | S n' =>
                   match ConsumeTag b with
                   | None => None
                   | Some ((num2, typ2), b') =>
                       if typ2 =? 4 then
                         if num2 =? num then Some b' else None
                       else
                         match consumeFieldValueD fuel' num2 typ2 b' (depth - 1) with
                         | None => None
                         | Some b'' => group n' b''
                         end
                   end
               end) (length b) b
        end
  | _ => None
  end.

Definition ConsumeField (b : bytes) : option (Field * bytes) :=
  match Wire.ConsumeVarint b with
  | inr _ => None
  | inl (tag, rest) =>
      let num := Z.shiftr tag 3 in
      let typ := Z.land tag 7 in
      if (num <? 1) || (2 ^ 29 - 1 <? num) then None
      else
        match typ with
        | 0 => match Wire.ConsumeVarint rest with
               | inl (v, rest') => Some ((num, FVarint v), rest')
               | inr _ => None
               end
        | 1 => match Wire.ConsumeFixed 8 rest with
               | inl (v, rest') => Some ((num, FFixed64 v), rest')
               | inr _ => None
               end
        | 2 => match Wire.ConsumeBytes rest with
               | inl (v, rest') => Some ((num, FBytes v), rest')
               | inr _ => None
               end
        | 3 => match consumeFieldValueD (length rest) num 3 rest
                       DefaultRecursionLimit with
               | Some rest' =>
                   Some ((num, FGroup (firstn (length rest - length rest') rest)),
                         rest')
               | None => None
               end
        | 5 => match Wire.ConsumeFixed 4 rest with
               | inl (v, rest') => Some ((num, FFixed32 v), rest')
               | inr _ => None
               end
        | _ => None
        end
  end.

(** The fields of a message, in wire order.  Every field takes at least one
    byte, so [fuel] above the length of [b] is enough. *)
Fixpoint ConsumeFields (fuel : nat) (b : bytes) : option (list Field) :=
  match b with
  | [] => Some []
  | _ :: _ =>
      match fuel with
      | O => None
      | S fuel' =>
          match ConsumeField b with
          | None => None
          | Some (f, rest) =>
              match ConsumeFields fuel' rest with
              | None => None
              | Some fs => Some (f :: fs)
              end
          end
      end
  end.

Definition parse (b : bytes) : option (list Field) :=
  ConsumeFields (length b) b.

(** The values of a repeated bytes field, and the last value of a singular
    one (proto3: its default when absent). *)
Fixpoint repeated_bytes (num : Z) (fs : list Field) : list bytes :=
  match fs with
  | [] => []
  | (n, FBytes b) :: fs' =>
      if n =? num then b :: repeated_bytes num fs' else repeated_bytes num fs'
  | _ :: fs' => repeated_bytes num fs'
  end.

Definition singular_bytes (num : Z) (fs : list Field) : bytes :=
  last (repeated_bytes num fs) [].

Fixpoint singular_varint (num : Z) (fs : list Field) (default : Z) : Z :=
  match fs with
  | [] => default
  | (n, FVarint v) :: fs' =>
      singular_varint num fs' (if n =? num then v else default)
  | _ :: fs' => singular_varint num fs' default
  end.

(** A singular field of proto3 is left out when it holds its default. *)
Definition bytes_field (num : Z) (b : bytes) : list Field :=
  match b with
  | [] => []
  | _ => [(num, FBytes b)]
  end.

Definition string_field (num : Z) (s : string) : list Field :=
  bytes_field num (list_byte_of_string s).

Definition varint_field (num v : Z) : list Field :=
  if v =? 0 then [] else [(num, FVarint v)].

(** [List], [Set] and [Tuple]: repeated bytes items = 1. *)
Definition encode_items (items : list bytes) : bytes :=
  AppendFields (map (fun i => (1, FBytes i)) items).

Definition decode_items (b : bytes) : option (list bytes) :=
  option_map (repeated_bytes 1) (parse b).

(** [Dictionary]: repeated DictionaryEntry entries = 1, with bytes key = 1
    and bytes value = 2. *)
Definition encode_entry (e : bytes * bytes) : bytes :=
  AppendFields (bytes_field 1 (fst e) ++ bytes_field 2 (snd e)).

Definition decode_entry (b : bytes) : option (bytes * bytes) :=
  option_map (fun fs => (singular_bytes 1 fs, singular_bytes 2 fs)) (parse b).

Definition encode_Dictionary (entries : list (bytes * bytes)) : bytes :=
  encode_items (map encode_entry entries).

Fixpoint sequence {A : Type} (l : list (option A)) : option (list A) :=
  match l with
  | [] => Some []
  | None :: _ => None
  | Some a :: l' => option_map (cons a) (sequence l')
  end.

Definition decode_Dictionary (b : bytes) : option (list (bytes * bytes)) :=
  match decode_items b with
  | None => None
  | Some es => sequence (map decode_entry es)
  end.

(** [utf8.Valid].  The string fields of a proto3 message hold UTF-8: a
    message with another string is neither written nor read. *)
Definition continuation (c : Z) : bool := (0x80 <=? c) && (c <=? 0xBF).

Fixpoint Valid (p : bytes) : bool :=
  match p with
  | [] => true
  | b0 :: p0 =>
      let c0 := Z_of_byte b0 in
      if c0 <? 0x80 then Valid p0
      else
        match p0 with
        | [] => false
        | b1 :: p1 =>
            let c1 := Z_of_byte b1 in
            if (0xC2 <=? c0) && (c0 <=? 0xDF) then continuation c1 && Valid p1
            else
              match p1 with
              | [] => false
              | b2 :: p2 =>
                  let c2 := Z_of_byte b2 in
                  if (0xE0 <=? c0) && (c0 <=? 0xEF) then
                    (if c0 =? 0xE0 then (0xA0 <=? c1) && (c1 <=? 0xBF)
                     else if c0 =? 0xED then (0x80 <=? c1) && (c1 <=? 0x9F)
                     else continuation c1)
                    && continuation c2 && Valid p2
                  else
                    match p2 with
                    | [] => false
                    | b3 :: p3 =>
                        let c3 := Z_of_byte b3 in
                        if (0xF0 <=? c0) && (c0 <=? 0xF4) then
                          (if c0 =? 0xF0 then (0x90 <=? c1) && (c1 <=? 0xBF)
                           else if c0 =? 0xF4 then (0x80 <=? c1) && (c1 <=? 0x8F)
                           else continuation c1)
                          && continuation c2 && continuation c3 && Valid p3
                        else false
                    end
              end
        end
  end.

Definition ValidString (s : string) : bool := Valid (list_byte_of_string s).

(** Every value that arrived for one of the string fields [nums] is UTF-8. *)
Definition strings_valid (nums : list Z) (fs : list Field) : bool :=
  forallb (fun f => match f with
                    | (n, FBytes b) => if existsb (Z.eqb n) nums then Valid b else true
                    | _ => true
                    end) fs.

(** [Request], [ProcedureCall] and [Argument]. *)
Definition encode_Argument (a : Argument) : bytes :=
  AppendFields (varint_field 1 (uint32 (Position a)) ++ bytes_field 2 (ArgValue a)).

Definition encode_ProcedureCall (c : ProcedureCall) : bytes :=
  AppendFields (string_field 1 (Service c) ++ string_field 2 (Procedure c)
                ++ map (fun a => (3, FBytes (encode_Argument a))) (Arguments c)).

Definition encode_Request (calls : list ProcedureCall) : option bytes :=
  if forallb (fun c => ValidString (Service c) && ValidString (Procedure c)) calls
  then Some (AppendFields (map (fun c => (1, FBytes (encode_ProcedureCall c))) calls))
  else None.

(** [Response] (Error error = 1, repeated ProcedureResult results = 2),
    [ProcedureResult] (Error error = 1, bytes value = 2) and [Error]. *)
Definition Error_of_fields (fs : list Field) : option RpcError :=
  if strings_valid [1; 2; 3; 4] fs then
    Some {| err_service := string_of_list_byte (singular_bytes 1 fs);
            err_name := string_of_list_byte (singular_bytes 2 fs);
            err_description := string_of_list_byte (singular_bytes 3 fs);
            err_stack_trace := string_of_list_byte (singular_bytes 4 fs) |}
  else None.

Definition decode_Error (b : bytes) : option RpcError :=
  match parse b with
  | None => None
  | Some fs => Error_of_fields fs
  end.

(** A message field that is absent is nil.  One that is present is parsed;
    when it arrives more than once, every occurrence is parsed and they are
    merged: the fields of a later one are read after those of an earlier
    one. *)
Definition message_field (num : Z) (fs : list Field) : option (option RpcError) :=
  match repeated_bytes num fs with
  | [] => Some None
  | bs =>
      match sequence (map parse bs) with
      | None => None
      | Some fss => option_map Some (Error_of_fields (concat fss))
      end
  end.

Definition decode_ProcedureResult (b : bytes) : option ProcedureResult :=
  match parse b with
  | None => None
  | Some fs =>
      option_map (fun e => {| Value := singular_bytes 2 fs; Error := e |})
                 (message_field 1 fs)
  end.

Definition decode_Response (b : bytes) : option Response :=
  match parse b with
  | None => None
  | Some fs =>
      match message_field 1 fs,
            sequence (map decode_ProcedureResult (repeated_bytes 2 fs)) with
      | Some e, Some rs => Some {| ResponseError := e; Results := rs |}
      | _, _ => None
      end
  end.

(** [ConnectionRequest] and [ConnectionResponse].  The status is an open
    enum of proto3: a number that names no status is kept as it is. *)
Definition encode_ConnectionRequest (r : ConnectionRequest) : option bytes :=
  if ValidString (ClientName_ r) then
    Some (AppendFields
            (varint_field 1 (match Type_ r with
                             | ConnectionRequest_RPC => 0
                             | ConnectionRequest_STREAM => 1
                             end)
             ++ string_field 2 (ClientName_ r)
             ++ bytes_field 3 (ReqClientIdentifier r)))
  else None.

Definition decode_ConnectionResponse (b : bytes) : option ConnectionResponse :=
  match parse b with
  | None => None
  | Some fs =>
      let status := int32 (singular_varint 1 fs 0) in
      if strings_valid [2] fs then
        Some {| Status := match status with
                          | 0 => ConnectionResponse_OK
                          | 1 => ConnectionResponse_MALFORMED_MESSAGE
                          | 2 => ConnectionResponse_TIMEOUT
                          | 3 => ConnectionResponse_WRONG_TYPE
                          | _ => ConnectionResponse_Status_value status
                          end;
                Message := string_of_list_byte (singular_bytes 2 fs);
                ClientIdentifier := singular_bytes 3 fs |}
      else None
  end.

(** The field numbers protobuf allows. *)
Definition field_number (num : Z) : Prop := 1 <= num <= 2 ^ 29 - 1.

(** A field that holds bytes, with a valid number and a length that fits the
    length prefix. *)
Definition bytes_wf (f : Field) : Prop :=
  match f with
  | (num, FBytes v) => field_number num /\ Z.of_nat (length v) < 2 ^ 64
  | _ => False
  end.

(** The application message of this library is [types.List] itself. *)
#[export] Instance lib : ProtoLib (list bytes) := {|
  Msg_zero := [];
  proto_Marshal := fun m => if forallb go_sliceb m then Some (encode_items m) else None;
  proto_Unmarshal := decode_items;
  Marshal_List := encode_items;
  Unmarshal_List := decode_items;
  Marshal_Set := encode_items;
  Unmarshal_Set := decode_items;
  Marshal_Tuple := encode_items;
  Unmarshal_Tuple := decode_items;
  Marshal_Dictionary := encode_Dictionary;
  Unmarshal_Dictionary := decode_Dictionary;
  Marshal_Request := encode_Request;
  Unmarshal_Response := decode_Response;
  Marshal_ConnectionRequest := encode_ConnectionRequest;
  Unmarshal_ConnectionResponse := decode_ConnectionResponse
|}.

End WireProto.

(** ** Scripted servers

    Connections and clients that replay a fixed server, to run the client on. *)

Module Scenario.
Import WireProto.

(** A connection whose peer sends [bs] and then closes; writes and [Close]
    succeed. *)
Definition scripted (bs : bytes) : Conn :=
  {| incoming := map Delivers bs; write_results := []; written := [];
     close_result := None; closed := false |}.

(** A message as it travels: its length, then its bytes. *)
Definition frame (payload : bytes) : bytes :=
  Wire.EncodeVarint (Z.of_nat (length payload)) ++ payload.

Definition defaults : KRPCClientConfig :=
  SetDefaults (fun _ => None)
    {| Host := ""; RPCPort := ""; StreamPort := ""; ClientName := "";
       RPCOnly := false |}%string.

(** A client whose RPC connection is open and will receive [bs]. *)
Definition connected (bs : bytes) : KRPCClient :=
  {| mu := false; config := defaults; conn := Some (scripted bs);
     streamClient := None; clientIdentifier := repeat x00 16 |}.

Definition GetStatus : ProcedureCall :=
  {| Service := "KRPC"; Procedure := "GetStatus"; Arguments := [] |}%string.

Definition no_such_procedure : RpcError :=
  {| err_service := "KRPC"; err_name := "InvalidOperationException";
     err_description := "no such procedure"; err_stack_trace := "" |}%string.

Definition encode_Error (e : RpcError) : bytes :=
  AppendFields (string_field 1 (err_service e) ++ string_field 2 (err_name e)
                ++ string_field 3 (err_description e)
                ++ string_field 4 (err_stack_trace e)).

Definition encode_ProcedureResult (r : ProcedureResult) : bytes :=
  AppendFields (match Error r with
                | Some e => [(1, FBytes (encode_Error e))]
                | None => []
                end
                ++ bytes_field 2 (Value r)).

Definition encode_Response (r : Response) : bytes :=
  AppendFields (match ResponseError r with
                | Some e => [(1, FBytes (encode_Error e))]
                | None => []
                end
                ++ map (fun x => (2, FBytes (encode_ProcedureResult x))) (Results r)).

Definition encode_ConnectionResponse (r : ConnectionResponse) : bytes :=
  AppendFields (varint_field 1 (match Status r with
                                | ConnectionResponse_OK => 0
                                | ConnectionResponse_MALFORMED_MESSAGE => 1
                                | ConnectionResponse_TIMEOUT => 2
                                | ConnectionResponse_WRONG_TYPE => 3
                                | ConnectionResponse_Status_value v => uint64 v
                                end)
                ++ string_field 2 (Message r)
                ++ bytes_field 3 (ClientIdentifier r)).

(** The server answers one call with one result that carries an error. *)
Definition failed_result : ProcedureResult :=
  {| Value := []; Error := Some no_such_procedure |}.

Definition answers_with_failed_call : KRPCClient :=
  connected (frame (encode_Response
                      {| ResponseError := None; Results := [failed_result] |})).

(** The server answers with a result and a failed result. *)
Definition good_result : ProcedureResult :=
  {| Value := [x2a]; Error := None |}.

Definition answers_two_calls : KRPCClient :=
  connected (frame (encode_Response
                      {| ResponseError := None;
                         Results := [good_result; failed_result] |})).

(** The server answers with no error and no result. *)
Definition answers_with_no_result : KRPCClient :=
  connected (frame (encode_Response {| ResponseError := None; Results := [] |})).

(** The server refuses the whole request. *)
Definition answers_with_request_error : KRPCClient :=
  connected (frame (encode_Response
                      {| ResponseError := Some no_such_procedure;
                         Results := [] |})).

(** A server that refuses every handshake with WRONG_TYPE. *)
Definition wrong_type : ConnectionResponse :=
  {| Status := ConnectionResponse_WRONG_TYPE; Message := "wrong type";
     ClientIdentifier := [] |}%string.

Definition refusing_network : Network :=
  fun _ _ => inl (scripted (frame (encode_ConnectionResponse wrong_type))).

(** No server listens. *)
Definition unreachable_network : Network :=
  fun _ _ => inr (ErrNet "connection refused").

Definition fresh_client : KRPCClient :=
  NewKRPCClient (fun _ => None)
    {| Host := ""; RPCPort := ""; StreamPort := ""; ClientName := "";
       RPCOnly := false |}%string.

(** A client with both connections open, each of which closes cleanly. *)
Definition both_open : KRPCClient :=
  {| mu := false; config := defaults; conn := Some (scripted []);
     streamClient := Some (StreamClient_Run (NewStreamClient (scripted [])));
     clientIdentifier := repeat x00 16 |}.

(** Sixteen bytes with the continuation bit, then a terminating byte. *)
Definition endless_varint : Conn := scripted (repeat x80 16 ++ [x01]).

End Scenario.

(** ** The cases the spec requires of the round trip *)

Module Cases.

(** A dictionary from strings to lists of tuples of mixed kinds, with
    boundary values. *)
Definition tuple_type : GoType := TStruct [TInt32; TInt64; TBool; TFloat64; TString; TEnum].

Definition dictionary : GoValue (list bytes) :=
  VMap TString (TSlice tuple_type)
    [(VString "kerbal",
      VSlice tuple_type
        [VStruct [VInt32 (-2147483648); VInt64 9223372036854775807; VBool true;
                  VFloat64 0x3FF0000000000000; VString ""; VEnum 4];
         VStruct [VInt32 2147483647; VInt64 (-9223372036854775808); VBool false;
                  VFloat64 0x7FF8000000000001; VString "a"; VEnum (-1)]]);
     (VString "", VSlice tuple_type [])].

(** A list of class handles, the null handle among them, and a set. *)
Definition handles : GoValue (list bytes) :=
  VSlice (TPointer TClassObj)
    [VPointer TClassObj (Some (VClassObj 0));
     VPointer TClassObj (Some (VClassObj 18446744073709551615))].

Definition set_of_integers : GoValue (list bytes) :=
  VMap TUint32 (TStruct []) [(VUint32 4294967295, VStruct []); (VUint32 0, VStruct [])].

End Cases.

(** ** A server that accepts the handshake *)

Module Servers.
Import Scenario.

(** The answer to an accepted handshake: status OK and the identifier the
    server gives the client. *)
Definition accepted (id : bytes) : ConnectionResponse :=
  {| Status := ConnectionResponse_OK; Message := EmptyString;
     ClientIdentifier := id |}.

(** Every dial succeeds, on a connection that delivers the accepting answer. *)
Definition accepting_network (id : bytes) : Network :=
  fun _ _ => inl (scripted (frame (encode_ConnectionResponse (accepted id)))).

(** The configuration of a client that asks for no stream connection. *)
Definition rpc_only : KRPCClientConfig :=
  {| Host := "ksp"; RPCPort := ""; StreamPort := ""; ClientName := "";
     RPCOnly := true |}%string.

End Servers.

(** ** Values of the basic kinds, and induction on types *)

Section Kinds.
Context {Msg : Set}.

(** The values the first type switch of [Marshal] writes to [buf]. *)
Definition basic_kind (m : GoValue Msg) : Prop :=
  match m with
  | VInt32 _ | VInt64 _ | VUint32 _ | VUint64 _ | VBool _
  | VFloat32 _ | VFloat64 _ | VString _ | VBytes _ => True
  | _ => False
  end.

End Kinds.

Section GoType_induction.
Variable Q : GoType -> Prop.

Definition leaf_type (t : GoType) : Prop :=
  match t with
  | TSlice _ | TMap _ _ | TStruct _ | TPointer _ => False
  | _ => True
  end.

Hypothesis Hleaf : forall t, leaf_type t -> Q t.
Hypothesis Hslice : forall e, Q e -> Q (TSlice e).
Hypothesis Hmap : forall k e, Q k -> Q e -> Q (TMap k e).
Hypothesis Hstruct : forall fields, Forall Q fields -> Q (TStruct fields).
Hypothesis Hpointer : forall e, Q e -> Q (TPointer e).

Fixpoint GoType_nested_ind (t : GoType) : Q t :=
  match t with
  | TSlice e => Hslice e (GoType_nested_ind e)
  | TMap k e => Hmap k e (GoType_nested_ind k) (GoType_nested_ind e)
  | TStruct fields =>
      Hstruct fields
        ((fix all (l : list GoType) : Forall Q l :=
            match l with
            | [] => Forall_nil Q
            | f :: l' => Forall_cons f (GoType_nested_ind f) (all l')
            end) fields)
  | TPointer e => Hpointer e (GoType_nested_ind e)
  | TInt32 => Hleaf TInt32 I
  | TInt64 => Hleaf TInt64 I
  | TUint32 => Hleaf TUint32 I
  | TUint64 => Hleaf TUint64 I
  | TBool => Hleaf TBool I
  | TFloat32 => Hleaf TFloat32 I
  | TFloat64 => Hleaf TFloat64 I
  | TString => Hleaf TString I
  | TBytes => Hleaf TBytes I
  | TEnum => Hleaf TEnum I
  | TClassObj => Hleaf TClassObj I
  | TMessage => Hleaf TMessage I
  end.

End GoType_induction.

(** A call that returns, with a value or an error, rather than panic. *)
Definition returns {A : Type} (o : outcome A) : Prop :=
  match o with
  | Panic _ => False
  | _ => True
  end.

(** * Properties *)

(** ** Configuration *)

Lemma default_set (env : string -> option string) (field name value : string) :
  field <> EmptyString ->
  (if String.eqb field ""%string then
     match env name with Some v => v | None => value end
   else field) = field.
Proof.
  intros H. destruct (String.eqb_spec field "") as [E | _]; [contradiction | reflexivity].
Qed.

(** C5, as the code has it: a key that is set is kept, whatever the
    environment holds; an unset (empty) key takes the value of its
    environment variable when that is set, and otherwise its default:
    localhost, 50000, 50001 and, for the client name, krpc-go. *)
Theorem SetDefaults_fills_unset_keys (env : string -> option string)
    (cfg : KRPCClientConfig) :
  let cfg' := SetDefaults env cfg in
  let filled (field field' name value : string) : Prop :=
    (field <> EmptyString -> field' = field)
    /\ (field = EmptyString -> env name = None -> field' = value)
    /\ (field = EmptyString -> forall v, env name = Some v -> field' = v) in
  (filled (Host cfg) (Host cfg') "KRPC_HOST" "localhost"
   /\ filled (RPCPort cfg) (RPCPort cfg') "KRPC_PORT" "50000"
   /\ filled (StreamPort cfg) (StreamPort cfg') "KRPC_STREAM_PORT" "50001"
   /\ filled (ClientName cfg) (ClientName cfg') "KRPC_CLIENTNAME" "krpc-go"
   /\ RPCOnly cfg' = RPCOnly cfg)%string.
Proof.
  cbv zeta. unfold SetDefaults; cbn [Host RPCPort StreamPort ClientName RPCOnly].
  repeat split;
    try (intros H; apply default_set; exact H);
    try (intros -> H; cbn; rewrite H; reflexivity);
    try (intros -> v H; cbn; rewrite H; reflexivity).
Qed.

(** C5, the claim as the spec words it fails: with nothing set and an empty
    environment the client name is not krpc-client. *)
Lemma SetDefaults_client_name_is_not_krpc_client :
  (ClientName (SetDefaults (fun _ => None)
                 {| Host := ""; RPCPort := ""; StreamPort := "";
                    ClientName := ""; RPCOnly := false |})
   <> "krpc-client")%string.
Proof. cbv. discriminate. Qed.

Example SetDefaults_empty :
  (SetDefaults (fun _ => None)
     {| Host := ""; RPCPort := ""; StreamPort := ""; ClientName := "";
        RPCOnly := false |}
   = {| Host := "localhost"; RPCPort := "50000"; StreamPort := "50001";
        ClientName := "krpc-go"; RPCOnly := false |})%string.
Proof. reflexivity. Qed.

(** An environment variable that is set to the empty string leaves the key
    empty. *)
Example SetDefaults_empty_variable :
  (Host (SetDefaults (fun name => if String.eqb name "KRPC_HOST" then Some "" else None)
           {| Host := ""; RPCPort := ""; StreamPort := ""; ClientName := "";
              RPCOnly := false |})
   = "")%string.
Proof. reflexivity. Qed.

(** ** Close *)

(** [Close] collects the result of every [Close] it calls, nil or not, and
    fails whenever it collected one: it never reports success. *)
Lemma Close_result (c : KRPCClient) :
  fst (Close c)
  = match conn c with
    | None => Panic NilDereference
    | Some k =>
        Err (ErrClose
               (match streamClient c with
                | Some s => [close_result (stream_conn s)]
                | None => []
                end ++ [close_result k]))
    end.
Proof.
  unfold Close. destruct (streamClient c) as [s |]; cbn.
  - destruct (conn c); reflexivity.
  - destruct (conn c); reflexivity.
Qed.

Lemma Close_never_succeeds (c : KRPCClient) : fst (Close c) <> Ok tt.
Proof. rewrite Close_result. destruct (conn c); discriminate. Qed.

(** X21: both sockets are closed on the way: after [Close] on a connected
    client the RPC connection is closed, and so is the connection of the
    stream client when there is one. *)
Lemma Close_closes_both (c : KRPCClient) (k : Conn) :
  conn c = Some k ->
  option_map closed (conn (snd (Close c))) = Some true
  /\ (forall s, streamClient c = Some s ->
        option_map (fun s' => closed (stream_conn s')) (streamClient (snd (Close c)))
        = Some true).
Proof.
  intros Hk. unfold Close. destruct (streamClient c) as [s |]; cbn; rewrite Hk; cbn.
  - split; [reflexivity | intros s' _; reflexivity].
  - split; [reflexivity | discriminate].
Qed.

(** C4, the code at the failing input: with both connections open and both
    [Close] calls succeeding, [Close] returns an error that lists two nil
    errors. *)
Theorem Close_fails_when_every_close_succeeds :
  close_result (Scenario.scripted []) = None
  /\ fst (Close Scenario.both_open) = Err (ErrClose [None; None]).
Proof. split; reflexivity. Qed.

(** ** The handshakes *)

Section Handshake.
Context {Msg : Set} {P : ProtoLib Msg}.

(** [connectStream] returns no error on any path: it panics or reports
    success. *)
Lemma connectStream_never_fails (net : Network) (c : KRPCClient) :
  fst (connectStream net c) = Ok tt
  \/ exists p, fst (connectStream net c) = Panic p.
Proof.
  unfold connectStream.
  destruct (net _ _) as [k | e]; [| right; eexists; reflexivity].
  destruct (send k _) as [r k1].
  destruct (receive k1) as [[in_ [u | e | p]] k2]; cbn;
    [left; reflexivity | left; reflexivity | right; eexists; reflexivity].
Qed.

(** Whenever the dial succeeds and nothing panics, the stream client is
    installed and its loop started. *)
Lemma connectStream_starts_the_loop (net : Network) (c c' : KRPCClient) :
  connectStream net c = (Ok tt, c') ->
  exists s, streamClient c' = Some s /\ running s = true.
Proof.
  unfold connectStream.
  destruct (net _ _) as [k | e]; [| discriminate].
  destruct (send k _) as [r k1].
  destruct (receive k1) as [[in_ [u | e | p]] k2]; intros H; inversion H; subst;
    cbn; eexists; split; reflexivity.
Qed.

(** The RPC handshake reports each of its failures. *)
Lemma connectRPC_dial_error (net : Network) (c : KRPCClient) (e : error) :
  net (Host (config c)) (RPCPort (config c)) = inr e ->
  connectRPC net c = (Err e, c).
Proof. intros H. unfold connectRPC. rewrite H. reflexivity. Qed.

Lemma connectRPC_succeeds_only_on_OK (net : Network) (c c' : KRPCClient) :
  connectRPC net c = (Ok tt, c') ->
  exists k out c1 in_ c2 resp,
    net (Host (config c)) (RPCPort (config c)) = inl k
    /\ Marshal_ConnectionRequest
         {| Type_ := ConnectionRequest_RPC; ClientName_ := ClientName (config c);
            ReqClientIdentifier := [] |} = Some out
    /\ Send (set_conn c (Some k)) out = (Ok tt, c1)
    /\ Receive c1 = ((in_, Ok tt), c2)
    /\ Unmarshal_ConnectionResponse in_ = Some resp
    /\ Status resp = ConnectionResponse_OK.
Proof.
  unfold connectRPC.
  destruct (net _ _) as [k | e] eqn:Hnet; [| discriminate].
  cbn [config set_conn].
  destruct (Marshal_ConnectionRequest _) as [out |] eqn:Hout; [| discriminate].
  destruct (Send _ out) as [[[] | e | p] c1] eqn:Hsend; try discriminate.
  destruct (Receive c1) as [[in_ [[] | e | p]] c2] eqn:Hrecv; try discriminate.
  destruct (Unmarshal_ConnectionResponse in_) as [resp |] eqn:Hresp; [| discriminate].
  destruct (Status resp) eqn:Hstatus; try discriminate.
  intros _. exists k, out, c1, in_, c2, resp. repeat split; assumption.
Qed.

End Handshake.

(** C6, the code at the failing input: the server answers the stream
    handshake with status WRONG_TYPE; the RPC handshake reports it,
    [connectStream] returns nil and starts the stream loop. *)
Theorem connectStream_accepts_a_refused_handshake :
  fst (connectRPC (P := WireProto.lib) Scenario.refusing_network Scenario.fresh_client)
  = Err (ErrMessage "wrong type"%string)
  /\ fst (connectStream (P := WireProto.lib) Scenario.refusing_network
            Scenario.fresh_client) = Ok tt
  /\ option_map running
       (streamClient
          (snd (connectStream (P := WireProto.lib) Scenario.refusing_network
                  Scenario.fresh_client))) = Some true.
Proof. split; [| split]; vm_compute; reflexivity. Qed.

(** After a failed dial [connectStream] does not return at all. *)
Example connectStream_unreachable :
  fst (connectStream (P := WireProto.lib) Scenario.unreachable_network
         Scenario.fresh_client) = Panic NilDereference.
Proof. reflexivity. Qed.

(** ** Calls *)

Section Calls.
Context {Msg : Set} {P : ProtoLib Msg}.

(** C7: once the response is parsed, [CallMultiple] fails with the
    request-level error exactly when the response carries one, and otherwise
    returns the list of results as it is: the results are not inspected. *)
Theorem CallMultiple_returns_the_response (c c1 c2 : KRPCClient)
    (calls : list ProcedureCall) (out in_ : bytes) (resp : Response)
    (Hmarshal : Marshal_Request calls = Some out)
    (Hsend : Send (set_mu c true) out = (Ok tt, c1))
    (Hreceive : Receive c1 = ((in_, Ok tt), c2))
    (Hparse : Unmarshal_Response in_ = Some resp) :
  (forall e, ResponseError resp = Some e ->
     CallMultiple c calls = (Err (ErrRpc e), set_mu c2 false))
  /\ (ResponseError resp = None ->
      CallMultiple c calls = (Ok (Results resp), set_mu c2 false))
  /\ ((exists e, fst (CallMultiple c calls) = Err e) <-> ResponseError resp <> None).
Proof.
  unfold CallMultiple. rewrite Hmarshal, Hsend, Hreceive, Hparse.
  destruct (ResponseError resp) as [e |]; cbn.
  - split; [| split].
    + intros e' H; inversion H; reflexivity.
    + discriminate.
    + split; [discriminate | intros _; eexists; reflexivity].
  - split; [| split].
    + discriminate.
    + reflexivity.
    + split; [intros [e H]; discriminate | intros H; contradiction].
Qed.

(** X20: the mutex is released whenever [CallMultiple] returns: a call on a
    client whose mutex is free leaves it free, with a result or an error. *)
Lemma CallMultiple_unlocks (c c' : KRPCClient) (calls : list ProcedureCall)
    (r : outcome (list ProcedureResult)) :
  mu c = false ->
  CallMultiple c calls = (r, c') ->
  (forall p, r <> Panic p) ->
  mu c' = false.
Proof.
  intros Hmu. unfold CallMultiple.
  destruct (Marshal_Request calls) as [out |].
  2:{ intros H _; inversion H; subst; exact Hmu. }
  destruct (Send _ out) as [[[] | e | p] c1] eqn:Hsend.
  - destruct (Receive c1) as [[in_ [[] | e | p]] c2] eqn:Hrecv.
    + destruct (Unmarshal_Response in_) as [resp |].
      * destruct (ResponseError resp); intros H _; inversion H; reflexivity.
      * intros H _; inversion H; reflexivity.
    + intros H _; inversion H; reflexivity.
    + intros H Hp; inversion H; subst. exfalso. exact (Hp p eq_refl).
  - intros H _; inversion H; reflexivity.
  - intros H Hp; inversion H; subst. exfalso. exact (Hp p eq_refl).
Qed.

(** C3, as the code has it, for every outcome of [CallMultiple] on the
    singleton list: [Call] fails when [CallMultiple] fails, with the same
    error; on a list with a first result it fails when that result carries
    an error, with that error, and returns that result when it carries none;
    on the empty list it panics on index 0; a panic of [CallMultiple] is a
    panic of [Call]. *)
Theorem Call_is_CallMultiple_on_singleton (c : KRPCClient) (call : ProcedureCall) :
  (forall e c', CallMultiple c [call] = (Err e, c') -> Call c call = (Err e, c'))
  /\ (forall r rs c', CallMultiple c [call] = (Ok (r :: rs), c') ->
        Error r = None -> Call c call = (Ok r, c'))
  /\ (forall r rs e c', CallMultiple c [call] = (Ok (r :: rs), c') ->
        Error r = Some e -> Call c call = (Err (ErrRpc e), c'))
  /\ (forall c', CallMultiple c [call] = (Ok [], c') ->
        Call c call = (Panic IndexOutOfRange, c'))
  /\ (forall p c', CallMultiple c [call] = (Panic p, c') ->
        Call c call = (Panic p, c')).
Proof.
  unfold Call. split; [| split; [| split; [| split]]].
  - intros e c' H. rewrite H. reflexivity.
  - intros r rs c' H He. rewrite H, He. reflexivity.
  - intros r rs e c' H He. rewrite H, He. reflexivity.
  - intros c' H. rewrite H. reflexivity.
  - intros p c' H. rewrite H. reflexivity.
Qed.

(** C9: when [CallMultiple] succeeds on the singleton list, [Call] panics on
    its index 0 exactly when the list of results is empty. *)
Theorem Call_needs_a_result (c c' : KRPCClient) (call : ProcedureCall)
    (resp : list ProcedureResult)
    (H : CallMultiple c [call] = (Ok resp, c')) :
  (resp = [] -> Call c call = (Panic IndexOutOfRange, c'))
  /\ (resp <> [] -> forall p, fst (Call c call) <> Panic p).
Proof.
  unfold Call. rewrite H. split.
  - intros ->. reflexivity.
  - intros Hne p. destruct resp as [| r rs]; [contradiction |].
    destruct (Error r); cbn; discriminate.
Qed.

End Calls.



(** C7 on a scripted server: a batch of two calls whose second result carries
    an error; both results come back, in order, and the batch does not fail. *)
Lemma CallMultiple_returns_the_response_witness :
  fst (CallMultiple (P := WireProto.lib) Scenario.answers_two_calls
         [Scenario.GetStatus; Scenario.GetStatus])
  = Ok [Scenario.good_result; Scenario.failed_result].
Proof.
  set (c := Scenario.answers_two_calls).
  set (calls := [Scenario.GetStatus; Scenario.GetStatus]).
  pose (out := match Marshal_Request (ProtoLib := WireProto.lib) calls with
               | Some o => o
               | None => []
               end).
  pose (c1 := snd (Send (set_mu c true) out)).
  pose (in_ := fst (fst (Receive c1))).
  pose (c2 := snd (Receive c1)).
  pose (resp := {| ResponseError := None;
                   Results := [Scenario.good_result; Scenario.failed_result] |}).
  assert (H1 : Marshal_Request (ProtoLib := WireProto.lib) calls = Some out)
    by (vm_compute; reflexivity).
  assert (H2 : Send (set_mu c true) out = (Ok tt, c1)) by (vm_compute; reflexivity).
  assert (H3 : Receive c1 = ((in_, Ok tt), c2)) by (vm_compute; reflexivity).
  assert (H4 : Unmarshal_Response (ProtoLib := WireProto.lib) in_ = Some resp)
    by (vm_compute; reflexivity).
  rewrite (proj1 (proj2 (CallMultiple_returns_the_response (P := WireProto.lib)
                           c c1 c2 calls out in_ resp H1 H2 H3 H4)) eq_refl).
  reflexivity.
Defined.

(** A request-level error fails the whole batch. *)
Example CallMultiple_request_error :
  fst (CallMultiple (P := WireProto.lib) Scenario.answers_with_request_error
         [Scenario.GetStatus])
  = Err (ErrRpc Scenario.no_such_procedure).
Proof. vm_compute. reflexivity. Qed.

(** C3, the claim as the spec words it fails: the server answers the call
    with a result that carries an error; [CallMultiple] succeeds and returns
    that result, [Call] fails. *)
Lemma Call_fails_where_CallMultiple_succeeds :
  fst (CallMultiple (P := WireProto.lib) Scenario.answers_with_failed_call
         [Scenario.GetStatus])
  = Ok [Scenario.failed_result]
  /\ fst (Call (P := WireProto.lib) Scenario.answers_with_failed_call
            Scenario.GetStatus)
     = Err (ErrRpc Scenario.no_such_procedure).
Proof. split; vm_compute; reflexivity. Qed.

(** C9 on a scripted server that answers with no error and no result. *)
Lemma Call_needs_a_result_witness :
  fst (CallMultiple (P := WireProto.lib) Scenario.answers_with_no_result
         [Scenario.GetStatus]) = Ok []
  /\ fst (Call (P := WireProto.lib) Scenario.answers_with_no_result
            Scenario.GetStatus) = Panic IndexOutOfRange.
Proof.
  split; [vm_compute; reflexivity |].
  pose (c' := snd (CallMultiple (P := WireProto.lib) Scenario.answers_with_no_result
                     [Scenario.GetStatus])).
  assert (H : CallMultiple (P := WireProto.lib) Scenario.answers_with_no_result
                [Scenario.GetStatus] = (Ok [], c')) by (vm_compute; reflexivity).
  rewrite (proj1 (Call_needs_a_result (P := WireProto.lib)
                    Scenario.answers_with_no_result c' Scenario.GetStatus [] H)
             eq_refl).
  reflexivity.
Defined.

(** ** Bytes *)

Lemma Z_of_byte_range (b : byte) : 0 <= Z_of_byte b < 256.
Proof.
  unfold Z_of_byte. pose proof (Byte.to_N_bounded b). lia.
Qed.

Lemma Z_of_byte_of_Z (z : Z) : Z_of_byte (byte_of_Z z) = z mod 256.
Proof.
  unfold Z_of_byte, byte_of_Z.
  pose proof (Z.mod_pos_bound z 256 ltac:(lia)) as Hb.
  destruct (Byte.of_N (Z.to_N (z mod 256))) as [b |] eqn:E.
  - apply Byte.to_of_N in E. rewrite E. lia.
  - apply Byte.of_N_None_iff in E. lia.
Qed.

Lemma byte_of_Z_of_byte (b : byte) : byte_of_Z (Z_of_byte b) = b.
Proof.
  unfold byte_of_Z. pose proof (Z_of_byte_range b) as Hb.
  rewrite Z.mod_small by lia. unfold Z_of_byte.
  rewrite N2Z.id, Byte.of_to_N. reflexivity.
Qed.

Lemma Forall_firstn {A : Type} (Q : A -> Prop) (n : nat) (l : list A) :
  Forall Q l -> Forall Q (firstn n l).
Proof.
  intros H. revert n. induction H as [| x l Hx Hl IH]; intros [| n]; cbn; auto.
Qed.

(** ** The frame-length reader *)

Lemma ConsumeVarint_loop_unterminated (n : nat) (shift acc : Z) (b : bytes) :
  Forall continues (firstn (S n) b) ->
  exists e, Wire.ConsumeVarint_loop n shift acc b = inr e.
Proof.
  revert shift acc b. induction n as [| n IH]; intros shift acc [| y b] H.
  - eexists; reflexivity.
  - cbn in *. inversion H as [| ? ? Hy _]; subst. unfold continues in Hy.
    destruct (Z.ltb_spec (Z_of_byte y) 2); [lia | eexists; reflexivity].
  - eexists; reflexivity.
  - cbn [Wire.ConsumeVarint_loop]. rewrite firstn_cons in H.
    inversion H as [| ? ? Hy Hb]; subst. unfold continues in Hy.
    destruct (Z.ltb_spec (Z_of_byte y) 128); [lia |]. apply IH. exact Hb.
Qed.

(** Ten bytes with the continuation bit decode to nothing, whatever follows
    them. *)
Lemma DecodeVarint_unterminated (b : bytes) :
  Forall continues (firstn 10 b) -> Wire.DecodeVarint b = (0, O).
Proof.
  intros H. unfold Wire.DecodeVarint, Wire.ConsumeVarint.
  destruct (ConsumeVarint_loop_unterminated 9 0 0 b H) as [e ->]. reflexivity.
Qed.

Lemma set_incoming_id (r : Conn) : set_incoming r (incoming r) = r.
Proof. destruct r; reflexivity. Qed.

Lemma readMessageLength_loop_unterminated (bs : bytes) :
  forall (rawLength : bytes) (r : Conn) (rest : list ReadEvent),
    incoming r = map Delivers bs ++ rest ->
    (forall k, (1 <= k <= length bs)%nat ->
       snd (Wire.DecodeVarint (rawLength ++ firstn k bs)) = O) ->
    readMessageLength_loop (length bs) rawLength r
    = (Err (ErrNoLength (rawLength ++ bs)), set_incoming r rest).
Proof.
  induction bs as [| b bs IH]; intros rawLength r rest Hin Hdec; cbn in *.
  - rewrite app_nil_r, <- Hin, set_incoming_id. reflexivity.
  - unfold Read. rewrite Hin.
    pose proof (Hdec 1%nat ltac:(lia)) as H1. cbn in H1.
    destruct (Wire.DecodeVarint (rawLength ++ [b])) as [v size]. cbn in H1. subst size.
    cbn. rewrite (IH (rawLength ++ [b]) _ rest).
    + rewrite <- app_assoc. reflexivity.
    + reflexivity.
    + intros k Hk. rewrite <- app_assoc. apply (Hdec (S k)). lia.
Qed.

(** C2, as the code has it: the reader gives up after sixteen bytes.  When
    the first ten bytes all carry the continuation bit, no prefix is a varint;
    the reader reads sixteen bytes, one at a time, returns the error that
    holds them, and leaves the rest unread. *)
Theorem readMessageLength_gives_up_after_16_bytes (r : Conn) (bs : bytes)
    (rest : list ReadEvent)
    (Hin : incoming r = map Delivers bs ++ rest)
    (Hlen : length bs = 16%nat)
    (Hcont : Forall continues (firstn 10 bs)) :
  readMessageLength r = (Err (ErrNoLength bs), set_incoming r rest).
Proof.
  unfold readMessageLength. rewrite <- Hlen.
  apply (readMessageLength_loop_unterminated bs [] r rest Hin).
  intros k _. cbn [app]. rewrite DecodeVarint_unterminated; [reflexivity |].
  rewrite firstn_firstn.
  replace (firstn (Nat.min 10 k) bs) with (firstn (Nat.min 10 k) (firstn 10 bs)).
  - apply Forall_firstn, Hcont.
  - rewrite firstn_firstn. f_equal. lia.
Qed.

(** C2 on sixteen bytes with the continuation bit followed by a terminating
    byte: the seventeenth byte stays unread. *)
Lemma readMessageLength_gives_up_after_16_bytes_witness :
  readMessageLength Scenario.endless_varint
  = (Err (ErrNoLength (repeat x80 16)),
     set_incoming Scenario.endless_varint [Delivers x01]).
Proof.
  apply (readMessageLength_gives_up_after_16_bytes Scenario.endless_varint
           (repeat x80 16) [Delivers x01]).
  - reflexivity.
  - reflexivity.
  - cbn. repeat constructor; unfold continues; vm_compute; discriminate.
Defined.

(** The reader never reads a seventeenth byte. *)
Lemma readMessageLength_loop_reads_at_most (n : nat) :
  forall (rawLength : bytes) (r : Conn),
  exists k, (k <= n)%nat
            /\ incoming (snd (readMessageLength_loop n rawLength r))
               = skipn k (incoming r).
Proof.
  induction n as [| n IH]; intros rawLength r; cbn.
  - exists O. split; [lia | reflexivity].
  - unfold Read. destruct (incoming r) as [| [b | e] rest] eqn:Hin.
    + exists O. cbn. split; [lia | exact Hin].
    + destruct (Wire.DecodeVarint (rawLength ++ [b])) as [v size].
      destruct size as [| size].
      * destruct (IH (rawLength ++ [b]) (set_incoming r rest)) as [k [Hk Hs]].
        exists (S k). split; [lia |]. cbn. rewrite Hs. reflexivity.
      * exists 1%nat. cbn. split; [lia | reflexivity].
    + exists 1%nat. cbn. split; [lia | reflexivity].
Qed.

(** X19: [readMessageLength] takes at most sixteen bytes off the reader,
    whatever they are and however it returns. *)
Lemma readMessageLength_reads_at_most_16_bytes (r : Conn) :
  exists k, (k <= 16)%nat
            /\ incoming (snd (readMessageLength r)) = skipn k (incoming r).
Proof. apply readMessageLength_loop_reads_at_most. Qed.

(** C2, the claim as the spec words it fails: after eleven bytes with the
    continuation bit the reader does not fail, it reads five bytes more. *)
Lemma readMessageLength_reads_past_11_bytes :
  Forall continues (firstn 11 (repeat x80 16 ++ [x01]))
  /\ incoming (snd (readMessageLength Scenario.endless_varint))
     = skipn 16 (incoming Scenario.endless_varint)
  /\ skipn 16 (incoming Scenario.endless_varint)
     <> skipn 11 (incoming Scenario.endless_varint).
Proof.
  split; [| split].
  - cbn. repeat constructor; unfold continues; vm_compute; discriminate.
  - vm_compute. reflexivity.
  - vm_compute. discriminate.
Qed.

(** With eleven such bytes and nothing more, the error is the end of the
    stream met at the twelfth read, not a protocol error. *)
Example readMessageLength_eleven_bytes :
  fst (readMessageLength (Scenario.scripted (repeat x80 11))) = Err ErrEOF.
Proof. vm_compute. reflexivity. Qed.

(** ** The codec: pointers and tuples *)

Section Codec.
Context {Msg : Set} {P : ProtoLib Msg}.

(** C10, as the code has it: a pointer that no case of the first type switch
    takes (it points to no class struct and to no protobuf struct) and that
    is not a pointer to a pointer is encoded as its target; when nil, it
    panics; a pointer to a pointer is refused with the Unsupported type
    error, nil or not. *)
Theorem Marshal_pointer (e : GoType) (x : GoValue Msg)
    (Htype : type_of x = e)
    (Hclass : e <> TClassObj)
    (Hmessage : e <> TMessage)
    (Hsingle : isPointer e = false) :
  Marshal (VPointer e (Some x)) = Marshal x
  /\ (exists p, Marshal (VPointer e None) = Panic p)
  /\ (forall e' target,
        Marshal (VPointer (TPointer e') target)
        = Err (ErrUnsupportedType (TPointer (TPointer e')))).
Proof.
  split; [| split].
  - destruct e; try reflexivity; try contradiction; try discriminate.
    destruct x; try discriminate. reflexivity.
  - destruct e; try contradiction; try discriminate; eexists; reflexivity.
  - intros e' target. reflexivity.
Qed.

(** The two kinds of pointers the first type switch takes: a class handle is
    encoded as its id, a message as protobuf encodes it. *)
Lemma Marshal_class_handle (id : Z) :
  Marshal (VPointer TClassObj (Some (VClassObj id))) = Ok (Wire.EncodeVarint id).
Proof.
  cbn. unfold Marshal_basic. cbn. unfold Wire.EncodeVarint. cbn.
  destruct (uint64 id <? 128); reflexivity.
Qed.

Lemma Marshal_message (msg : Msg) :
  Marshal (VPointer TMessage (Some (VMessage msg)))
  = of_option ErrProtoMarshal (proto_Marshal msg).
Proof. reflexivity. Qed.

Lemma Marshal_struct_by_value (id : Z) (msg : Msg) :
  Marshal (VClassObj id) = Panic UnexportedField
  /\ Marshal (VMessage msg) = Panic UnexportedField.
Proof. split; reflexivity. Qed.

Lemma set_fields_positional (decode : GoType -> bytes -> outcome (GoValue Msg))
    (fields : list GoType) :
  forall (items : list bytes) (vals : list (GoValue Msg)),
    length items = length fields ->
    Forall2 (fun fi v => decode (fst fi) (snd fi) = Ok v) (combine fields items) vals ->
    set_fields decode fields items = Ok vals.
Proof.
  induction fields as [| f fields IH]; intros [| i items] vals Hlen H;
    cbn in *; try discriminate.
  - inversion H. reflexivity.
  - inversion H as [| ? v ? vals' Hv Hrest]; subst. cbn in Hv. rewrite Hv. cbn.
    rewrite (IH items vals'); [reflexivity | lia | exact Hrest].
Qed.

(** C8: a Tuple message with another number of items than the struct has
    fields is refused; with the same number, item i is decoded into field i
    under the type of field i. *)
Theorem Unmarshal_tuple_arity (fields : list GoType) (b : bytes)
    (items : list bytes)
    (Hparse : Unmarshal_Tuple b = Some items) :
  (length items <> length fields ->
   Unmarshal b (TPointer (TStruct fields)) = Err (ErrWrongTuple (length items)))
  /\ (length items = length fields ->
      forall vals,
        Forall2 (fun fi v => UnmarshalPtr (fst fi) (snd fi) = Ok v)
                (combine fields items) vals ->
        Unmarshal b (TPointer (TStruct fields)) = Ok (VStruct vals)).
Proof.
  unfold Unmarshal. cbn [UnmarshalPtr]. rewrite Hparse. cbn [of_option bind].
  split.
  - intros Hne. apply Nat.eqb_neq in Hne. rewrite Hne. reflexivity.
  - intros Heq vals Hvals. rewrite (proj2 (Nat.eqb_eq _ _) Heq). cbn [negb].
    rewrite (set_fields_positional UnmarshalPtr fields items vals Heq Hvals).
    reflexivity.
Qed.

(** A component that cannot be decoded fails the tuple. *)
Lemma set_fields_error (decode : GoType -> bytes -> outcome (GoValue Msg))
    (f : GoType) (fields : list GoType) (i : bytes) (items : list bytes) (e : error) :
  decode f i = Err e -> set_fields decode (f :: fields) (i :: items) = Err e.
Proof. intros H. cbn. rewrite H. reflexivity. Qed.

End Codec.

(** C10, the claim as the spec words it fails: a class handle is a non-nil
    single-level pointer; it is encoded as its id, while its target, a struct
    with an unexported field, cannot be encoded at all. *)
Lemma Marshal_class_handle_is_not_Marshal_of_its_target :
  isPointer TClassObj = false
  /\ Marshal (P := WireProto.lib) (VPointer TClassObj (Some (VClassObj 7))) = Ok [x07]
  /\ Marshal (P := WireProto.lib) (VClassObj 7) = Panic UnexportedField.
Proof. split; [| split]; vm_compute; reflexivity. Qed.

(** C10 on a pointer to a slice. *)
Lemma Marshal_pointer_witness :
  Marshal (P := WireProto.lib)
    (VPointer (TSlice TUint32) (Some (VSlice TUint32 [VUint32 1; VUint32 300])))
  = Marshal (P := WireProto.lib) (VSlice TUint32 [VUint32 1; VUint32 300]).
Proof.
  apply (Marshal_pointer (P := WireProto.lib) (TSlice TUint32)
           (VSlice TUint32 [VUint32 1; VUint32 300])).
  - reflexivity.
  - discriminate.
  - discriminate.
  - reflexivity.
Defined.

(** C8 on a Tuple message with two items: refused by a struct with one
    field, decoded by position into a struct with two. *)
Lemma Unmarshal_tuple_arity_witness :
  Unmarshal (P := WireProto.lib)
    (WireProto.encode_items [[x01; x61]; [x07]]) (TPointer (TStruct [TString]))
  = Err (ErrWrongTuple 2)
  /\ Unmarshal (P := WireProto.lib)
       (WireProto.encode_items [[x01; x61]; [x07]])
       (TPointer (TStruct [TString; TUint64]))
     = Ok (VStruct [VString "a"; VUint64 7]).
Proof.
  assert (H : Unmarshal_Tuple (ProtoLib := WireProto.lib)
                (WireProto.encode_items [[x01; x61]; [x07]])
              = Some [[x01; x61]; [x07]]) by (vm_compute; reflexivity).
  split.
  - apply (proj1 (Unmarshal_tuple_arity (P := WireProto.lib) [TString] _ _ H)).
    cbn. lia.
  - apply (proj2 (Unmarshal_tuple_arity (P := WireProto.lib) [TString; TUint64] _ _ H)).
    + reflexivity.
    + repeat constructor; vm_compute; reflexivity.
Defined.

(** ** The codec: the round trip *)

Section Refused.
Context {Msg : Set} {P : ProtoLib Msg}.

(** A tuple whose first component is of pointer type is refused on the way
    back: the struct loop decodes into a pointer to the field, a pointer to a
    pointer. *)
Lemma Unmarshal_tuple_with_pointer_field (e : GoType) (fields : list GoType)
    (b i : bytes) (items : list bytes) :
  Unmarshal_Tuple b = Some (i :: items) ->
  length items = length fields ->
  Unmarshal b (TPointer (TStruct (TPointer e :: fields)))
  = Err (ErrUnsupportedType (TPointer (TPointer e))).
Proof.
  intros Hparse Hlen. unfold Unmarshal. cbn [UnmarshalPtr]. rewrite Hparse.
  cbn [of_option bind length]. rewrite Hlen, Nat.eqb_refl. reflexivity.
Qed.

(** So is a set with an element, and a dictionary with an entry, whose key
    type is a pointer type. *)
Lemma Unmarshal_set_with_pointer_key (e : GoType) (b i : bytes) (items : list bytes) :
  Unmarshal_Set b = Some (i :: items) ->
  Unmarshal b (TPointer (TMap (TPointer e) (TStruct [])))
  = Err (ErrUnsupportedType (TPointer (TPointer e))).
Proof.
  intros Hparse. unfold Unmarshal. cbn [UnmarshalPtr isEmptyStruct]. rewrite Hparse.
  reflexivity.
Qed.

Lemma Unmarshal_dictionary_with_pointer_key (e elemType : GoType) (b : bytes)
    (entry : bytes * bytes) (entries : list (bytes * bytes)) :
  isEmptyStruct elemType = false ->
  Unmarshal_Dictionary b = Some (entry :: entries) ->
  Unmarshal b (TPointer (TMap (TPointer e) elemType))
  = Err (ErrUnsupportedType (TPointer (TPointer e))).
Proof.
  intros He Hparse. unfold Unmarshal. cbn [UnmarshalPtr]. rewrite He, Hparse.
  destruct entry. reflexivity.
Qed.

End Refused.

(** C1, the code at the failing input: a tuple of a class handle and an
    integer is encoded, and its encoding is refused under the tuple's own
    type; the same handle in a list comes back. *)
Theorem Unmarshal_refuses_a_tuple_with_a_class_handle :
  Marshal (P := WireProto.lib)
    (VStruct [VPointer TClassObj (Some (VClassObj 7)); VUint64 18])
  = Ok (WireProto.encode_items [[x07]; [x12]])
  /\ Unmarshal (P := WireProto.lib) (WireProto.encode_items [[x07]; [x12]])
       (TPointer (type_of (Msg := list bytes)
                    (VStruct [VPointer TClassObj (Some (VClassObj 7)); VUint64 18])))
     = Err (ErrUnsupportedType (TPointer (TPointer TClassObj)))
  /\ Marshal (P := WireProto.lib)
       (VSlice (TPointer TClassObj) [VPointer TClassObj (Some (VClassObj 7))])
     = Ok (WireProto.encode_items [[x07]])
  /\ Unmarshal (P := WireProto.lib) (WireProto.encode_items [[x07]])
       (TPointer (TSlice (TPointer TClassObj)))
     = Ok (VSlice (TPointer TClassObj) [VPointer TClassObj (Some (VClassObj 7))]).
Proof. split; [| split; [| split]]; vm_compute; reflexivity. Qed.

(** A set of class handles is refused as well. *)
Example Unmarshal_refuses_a_set_of_class_handles :
  Marshal (P := WireProto.lib)
    (VMap (TPointer TClassObj) (TStruct [])
       [(VPointer TClassObj (Some (VClassObj 7)), VStruct [])])
  = Ok (WireProto.encode_items [[x07]])
  /\ Unmarshal (P := WireProto.lib) (WireProto.encode_items [[x07]])
       (TPointer (TMap (TPointer TClassObj) (TStruct [])))
     = Err (ErrUnsupportedType (TPointer (TPointer TClassObj))).
Proof. split; vm_compute; reflexivity. Qed.

(** The second scenario of the spec: a list of tuples of a string and an
    unsigned integer. *)
Example roundtrip_list_of_tuples :
  let v : GoValue (list bytes) :=
    VSlice (TStruct [TString; TUint64])
             [VStruct [VString "a"; VUint64 7];
              VStruct [VString "kerbal"; VUint64 18446744073709551615]] in
  bind (Marshal (P := WireProto.lib) v)
       (fun b => Unmarshal (P := WireProto.lib) b (TPointer (type_of v)))
  = Ok v.
Proof. vm_compute. reflexivity. Qed.

(** ** The wire primitives round-trip *)

Lemma land_127 (v : Z) : Z.land v 127 = v mod 128.
Proof. change 127 with (Z.ones 7). rewrite Z.land_ones by lia. reflexivity. Qed.

Lemma lor_128 (x : Z) : 0 <= x < 128 -> Z.lor x 128 = x + 128.
Proof.
  intros H.
  assert (Hland : Z.land x 128 = 0).
  { apply Z.bits_inj'. intros i Hi. rewrite Z.land_spec, Z.bits_0.
    change 128 with (2 ^ 7). rewrite Z.pow2_bits_eqb by lia.
    destruct (Z.eqb_spec 7 i) as [<- | Hne]; [| apply andb_false_r].
    rewrite andb_true_r. destruct (Z.eq_dec x 0) as [-> | Hx]; [apply Z.bits_0 |].
    apply Z.bits_above_log2; [lia |]. apply Z.log2_lt_pow2; lia. }
  rewrite <- Z.lxor_lor, <- Z.add_nocarry_lxor by exact Hland. reflexivity.
Qed.

Lemma AppendVarint_loop_nonempty (n : nat) (v : Z) :
  (0 < length (Wire.AppendVarint_loop n v))%nat.
Proof. destruct n; cbn; [lia |]. destruct (v <? 128); cbn; lia. Qed.

Lemma length_AppendVarint_loop (n : nat) :
  forall z, (length (Wire.AppendVarint_loop n z) <= S n)%nat.
Proof.
  induction n as [| n IH]; intros z; cbn [Wire.AppendVarint_loop length]; [lia |].
  destruct (z <? 128); cbn [length]; [lia |]. specialize (IH (Z.shiftr z 7)). lia.
Qed.

Lemma length_EncodeVarint (v : Z) : (length (Wire.EncodeVarint v) <= 10)%nat.
Proof. apply length_AppendVarint_loop. Qed.

Lemma ConsumeVarint_AppendVarint (n : nat) :
  forall (v shift acc : Z) (rest : bytes),
    0 <= shift ->
    0 <= v < 2 ^ (7 * Z.of_nat n + 1) ->
    Wire.ConsumeVarint_loop n shift acc (Wire.AppendVarint_loop n v ++ rest)
    = inl (acc + v * 2 ^ shift, rest).
Proof.
  induction n as [| n IH]; intros v shift acc rest Hshift Hv.
  - cbn in Hv. cbn. rewrite Z_of_byte_of_Z, Z.mod_small by lia.
    destruct (Z.ltb_spec v 2); [| lia]. rewrite Z.shiftl_mul_pow2 by lia. reflexivity.
  - cbn [Wire.AppendVarint_loop]. destruct (Z.ltb_spec v 128) as [Hlt | Hge].
    + cbn. rewrite Z_of_byte_of_Z, Z.mod_small by lia.
      destruct (Z.ltb_spec v 128); [| lia].
      rewrite Z.shiftl_mul_pow2 by lia. reflexivity.
    + cbn [app Wire.ConsumeVarint_loop].
      pose proof (Z.mod_pos_bound v 128 ltac:(lia)) as Hm.
      rewrite Z_of_byte_of_Z, land_127, lor_128 by lia.
      rewrite Z.mod_small by lia.
      destruct (Z.ltb_spec (v mod 128 + 128) 128); [lia |].
      rewrite IH.
      * f_equal. f_equal. rewrite Z.shiftl_mul_pow2 by lia.
        rewrite Z.shiftr_div_pow2 by lia. rewrite Z.pow_add_r by lia.
        change (2 ^ 7) with 128.
        pose proof (Z.div_mod v 128 ltac:(lia)). nia.
      * lia.
      * rewrite Z.shiftr_div_pow2 by lia. change (2 ^ 7) with 128.
        split; [apply Z.div_pos; lia |].
        apply Z.div_lt_upper_bound; [lia |].
        replace (7 * Z.of_nat (S n) + 1) with (7 + (7 * Z.of_nat n + 1)) in Hv by lia.
        rewrite Z.pow_add_r in Hv by lia. change (2 ^ 7) with 128 in Hv. lia.
Qed.

Lemma ConsumeVarint_EncodeVarint (v : Z) (rest : bytes) :
  is_uint64 v ->
  Wire.ConsumeVarint (Wire.EncodeVarint v ++ rest) = inl (v, rest).
Proof.
  intros Hv. unfold is_uint64 in Hv. unfold Wire.ConsumeVarint, Wire.EncodeVarint, uint64.
  rewrite Z.mod_small by lia.
  rewrite ConsumeVarint_AppendVarint; [f_equal; f_equal; lia | lia |].
  change (7 * Z.of_nat 9 + 1) with 64. lia.
Qed.

Lemma lxor_ones (n a : Z) :
  0 <= n -> 0 <= a < 2 ^ n -> Z.lxor a (2 ^ n - 1) = 2 ^ n - 1 - a.
Proof.
  intros Hn Ha.
  replace (2 ^ n - 1 - a) with (Z.lnot a mod 2 ^ n).
  2:{ rewrite Z.lnot_eq_pred_opp.
      replace (- a - 1) with (2 ^ n - 1 - a + (-1) * 2 ^ n) by lia.
      rewrite Z.mod_add by lia. apply Z.mod_small. lia. }
  replace (2 ^ n - 1) with (Z.ones n) by (rewrite Z.ones_equiv; lia).
  apply Z.bits_inj'. intros i Hi. rewrite Z.lxor_spec.
  destruct (Z.lt_ge_cases i n) as [Hlt | Hge].
  - rewrite Z.ones_spec_low, Z.mod_pow2_bits_low, Z.lnot_spec by lia.
    apply xorb_true_r.
  - rewrite Z.ones_spec_high, Z.mod_pow2_bits_high by lia.
    rewrite xorb_false_r. rewrite <- (Z.mod_small a (2 ^ n)) by lia.
    apply Z.mod_pow2_bits_high. lia.
Qed.

Ltac pow_consts :=
  change (2 ^ 64) with 18446744073709551616 in *;
  change (2 ^ 63) with 9223372036854775808 in *;
  change (2 ^ 32) with 4294967296 in *;
  change (2 ^ 31) with 2147483648 in *;
  change (2 ^ 1) with 2 in *.

Lemma land_1 (x : Z) : Z.land x 1 = x mod 2.
Proof. change 1 with (Z.ones 1). rewrite Z.land_ones by lia. reflexivity. Qed.

(** The sign mask of a zigzag expression is 0 or all ones. *)
Ltac mask_is m :=
  match goal with
  | |- context [Z.lxor ?a ?b] =>
      let Hb := fresh "Hmask" in
      assert (Hb : b = m) by (pow_consts; Z.div_mod_to_equations; lia);
      rewrite Hb; clear Hb
  end.

Ltac arith := pow_consts; Z.div_mod_to_equations; lia.

(** What [EncodeZigzag32] hands to [EncodeVarint]. *)
Lemma zigzag32_encode (v : Z) :
  is_int32 v ->
  uint64 (Z.lxor (uint32 (Z.shiftl (uint32 (uint64 v)) 1))
                 (uint32 (Z.shiftr (int32 (uint64 v)) 31)))
  = if 0 <=? v then 2 * v else - 2 * v - 1.
Proof.
  unfold is_int32, uint64, uint32, int32. intros Hv.
  rewrite Z.shiftl_mul_pow2, Z.shiftr_div_pow2 by lia.
  destruct (Z.leb_spec 0 v) as [Hpos | Hneg].
  - mask_is 0. rewrite Z.lxor_0_r. arith.
  - mask_is (2 ^ 32 - 1). rewrite lxor_ones by (try lia; arith). arith.
Qed.

Lemma zigzag32_decode (v : Z) :
  is_int32 v ->
  int32 (Wire.unzigzag32 (if 0 <=? v then 2 * v else - 2 * v - 1)) = v.
Proof.
  unfold is_int32, Wire.unzigzag32, uint64, uint32, int32. intros Hv.
  rewrite land_1, !Z.shiftl_mul_pow2, !Z.shiftr_div_pow2 by lia.
  destruct (Z.leb_spec 0 v) as [Hpos | Hneg].
  - mask_is 0. rewrite Z.lxor_0_r. arith.
  - mask_is (2 ^ 32 - 1). rewrite lxor_ones by (try lia; arith). arith.
Qed.

Lemma zigzag32_range (v : Z) :
  is_int32 v -> is_uint64 (if 0 <=? v then 2 * v else - 2 * v - 1).
Proof.
  unfold is_int32, is_uint64. intros Hv. destruct (Z.leb_spec 0 v); arith.
Qed.

(** What [EncodeZigzag64] hands to [EncodeVarint]. *)
Lemma zigzag64_encode (v : Z) :
  is_int64 v ->
  uint64 (Z.lxor (uint64 (Z.shiftl (uint64 (uint64 v)) 1))
                 (uint64 (Z.shiftr (int64 (uint64 v)) 63)))
  = if 0 <=? v then 2 * v else - 2 * v - 1.
Proof.
  unfold is_int64, uint64, int64. intros Hv.
  rewrite Z.shiftl_mul_pow2, Z.shiftr_div_pow2 by lia.
  destruct (Z.leb_spec 0 v) as [Hpos | Hneg].
  - mask_is 0. rewrite Z.lxor_0_r. arith.
  - mask_is (2 ^ 64 - 1). rewrite lxor_ones by (try lia; arith). arith.
Qed.

Lemma zigzag64_decode (v : Z) :
  is_int64 v ->
  int64 (Wire.unzigzag64 (if 0 <=? v then 2 * v else - 2 * v - 1)) = v.
Proof.
  unfold is_int64, Wire.unzigzag64, uint64, int64. intros Hv.
  rewrite land_1, !Z.shiftl_mul_pow2, !Z.shiftr_div_pow2 by lia.
  destruct (Z.leb_spec 0 v) as [Hpos | Hneg].
  - mask_is 0. rewrite Z.lxor_0_r. arith.
  - mask_is (2 ^ 64 - 1). rewrite lxor_ones by (try lia; arith). arith.
Qed.

Lemma zigzag64_range (v : Z) :
  is_int64 v -> is_uint64 (if 0 <=? v then 2 * v else - 2 * v - 1).
Proof.
  unfold is_int64, is_uint64. intros Hv. destruct (Z.leb_spec 0 v); arith.
Qed.

Lemma length_le_bytes (n : nat) (v : Z) : length (Wire.le_bytes n v) = n.
Proof. revert v. induction n as [| n IH]; intros v; cbn; [| rewrite IH]; reflexivity. Qed.

Lemma le_value_le_bytes (n : nat) :
  forall v, 0 <= v < 2 ^ (8 * Z.of_nat n) -> Wire.le_value (Wire.le_bytes n v) = v.
Proof.
  induction n as [| n IH]; intros v Hv.
  - cbn in *. lia.
  - cbn [Wire.le_bytes Wire.le_value].
    replace (8 * Z.of_nat (S n)) with (8 + 8 * Z.of_nat n) in Hv by lia.
    rewrite Z.pow_add_r in Hv by lia. change (2 ^ 8) with 256 in Hv.
    rewrite Z_of_byte_of_Z, IH.
    + rewrite Z.shiftl_mul_pow2, Z.shiftr_div_pow2 by lia. change (2 ^ 8) with 256.
      pose proof (Z.div_mod v 256 ltac:(lia)). lia.
    + rewrite Z.shiftr_div_pow2 by lia. change (2 ^ 8) with 256.
      split; [apply Z.div_pos; lia | apply Z.div_lt_upper_bound; lia].
Qed.

Lemma ConsumeFixed_le_bytes (n : nat) (v : Z) :
  0 <= v < 2 ^ (8 * Z.of_nat n) ->
  Wire.ConsumeFixed n (Wire.le_bytes n v) = inl (v, []).
Proof.
  intros Hv. unfold Wire.ConsumeFixed. rewrite length_le_bytes, Nat.ltb_irrefl.
  rewrite firstn_all2, skipn_all2 by (rewrite length_le_bytes; lia).
  rewrite le_value_le_bytes by exact Hv. reflexivity.
Qed.

Lemma ConsumeBytes_AppendBytes (v : bytes) :
  go_slice v -> Wire.ConsumeBytes (Wire.AppendBytes v) = inl (v, []).
Proof.
  unfold go_slice, maxAlloc. intros Hv. unfold Wire.ConsumeBytes, Wire.AppendBytes.
  rewrite ConsumeVarint_EncodeVarint by (unfold is_uint64; pow_consts; lia).
  rewrite Z.ltb_irrefl, Nat2Z.id, firstn_all, skipn_all. reflexivity.
Qed.

Lemma EncodeVarint_nonempty (v : Z) : (0 <? length (Wire.EncodeVarint v))%nat = true.
Proof. apply Nat.ltb_lt, AppendVarint_loop_nonempty. Qed.

Lemma AppendBytes_nonempty (v : bytes) : (0 <? length (Wire.AppendBytes v))%nat = true.
Proof.
  apply Nat.ltb_lt. unfold Wire.AppendBytes. rewrite length_app.
  pose proof (AppendVarint_loop_nonempty 9 (uint64 (Z.of_nat (length v)))).
  unfold Wire.EncodeVarint. lia.
Qed.

(** ** The basic kinds round-trip *)

Section Roundtrip.
Context {Msg : Set} {P : ProtoLib Msg}.

Lemma uint32_uint64 (v : Z) : is_uint32 v -> uint32 (uint64 v) = v.
Proof. unfold is_uint32, uint32, uint64. intros Hv. arith. Qed.

(** A value of a basic kind, once encoded, decodes to itself under its type. *)
Lemma Marshal_basic_roundtrip (m : GoValue Msg) :
  match m with
  | VInt32 _ | VInt64 _ | VUint32 _ | VUint64 _ | VBool _
  | VFloat32 _ | VFloat64 _ | VString _ | VBytes _ => True
  | _ => False
  end ->
  well_formed m ->
  Marshal_basic m = Ok (marshal_buf m)
  /\ UnmarshalPtr (type_of m) (marshal_buf m) = Ok m.
Proof.
  intros Hbasic Hwf. unfold Marshal_basic.
  destruct m; try contradiction; cbn [marshal_buf type_of UnmarshalPtr well_formed] in *.
  - (* int32 *)
    unfold Wire.EncodeZigzag32. rewrite zigzag32_encode by exact Hwf.
    rewrite EncodeVarint_nonempty. split; [reflexivity |].
    unfold DecodeZigzag32, DecodeVarint.
    rewrite <- (app_nil_r (Wire.EncodeVarint _)).
    rewrite ConsumeVarint_EncodeVarint by (apply zigzag32_range, Hwf).
    cbn. rewrite zigzag32_decode by exact Hwf. reflexivity.
  - (* int64 *)
    unfold Wire.EncodeZigzag64. rewrite zigzag64_encode by exact Hwf.
    rewrite EncodeVarint_nonempty. split; [reflexivity |].
    unfold DecodeZigzag64, DecodeVarint.
    rewrite <- (app_nil_r (Wire.EncodeVarint _)).
    rewrite ConsumeVarint_EncodeVarint by (apply zigzag64_range, Hwf).
    cbn. rewrite zigzag64_decode by exact Hwf. reflexivity.
  - (* uint32 *)
    rewrite EncodeVarint_nonempty. split; [reflexivity |].
    unfold DecodeVarint. rewrite <- (app_nil_r (Wire.EncodeVarint _)).
    pose proof Hwf as Hr. unfold is_uint32 in Hr.
    rewrite ConsumeVarint_EncodeVarint
      by (unfold is_uint64, uint64; arith).
    cbn. rewrite uint32_uint64 by exact Hwf. reflexivity.
  - (* uint64 *)
    rewrite EncodeVarint_nonempty. split; [reflexivity |].
    unfold DecodeVarint. rewrite <- (app_nil_r (Wire.EncodeVarint _)).
    rewrite ConsumeVarint_EncodeVarint by exact Hwf. reflexivity.
  - (* bool *)
    rewrite EncodeVarint_nonempty. split; [reflexivity |].
    unfold DecodeVarint. rewrite <- (app_nil_r (Wire.EncodeVarint _)).
    rewrite ConsumeVarint_EncodeVarint by (unfold is_uint64; destruct v; lia).
    destruct v; reflexivity.
  - (* float32 *)
    unfold Wire.EncodeFixed32. rewrite uint32_uint64 by exact Hwf.
    rewrite length_le_bytes. split; [reflexivity |].
    unfold DecodeFixed32. rewrite ConsumeFixed_le_bytes by exact Hwf.
    cbn. unfold uint32. unfold is_uint32 in Hwf. rewrite Z.mod_small by exact Hwf.
    reflexivity.
  - (* float64 *)
    unfold Wire.EncodeFixed64, uint64. unfold is_uint64 in Hwf.
    rewrite Z.mod_small by exact Hwf.
    rewrite length_le_bytes. split; [reflexivity |].
    unfold DecodeFixed64. rewrite ConsumeFixed_le_bytes by exact Hwf. reflexivity.
  - (* string *)
    rewrite AppendBytes_nonempty. split; [reflexivity |].
    unfold DecodeRawBytes. rewrite ConsumeBytes_AppendBytes by exact Hwf.
    cbn [of_parse bind fst]. rewrite string_of_list_byte_of_string. reflexivity.
  - (* bytes *)
    rewrite AppendBytes_nonempty. split; [reflexivity |].
    unfold DecodeRawBytes. rewrite ConsumeBytes_AppendBytes by exact Hwf. reflexivity.
Qed.

(** An enum travels as its int32 value, a class handle as its uint64 id. *)
Lemma Marshal_enum_roundtrip (v : Z) :
  is_int32 v ->
  Marshal_basic (VInt32 v : GoValue Msg) = Ok (marshal_buf (VInt32 v : GoValue Msg))
  /\ UnmarshalPtr TEnum (marshal_buf (VInt32 v : GoValue Msg)) = Ok (VEnum v).
Proof.
  intros Hv.
  destruct (Marshal_basic_roundtrip (VInt32 v) I Hv) as [Hm Hu]. split; [exact Hm |].
  cbn [type_of UnmarshalPtr] in *.
  destruct (DecodeZigzag32 _) as [u | e | p]; cbn in *; congruence.
Qed.

Lemma Marshal_class_roundtrip (id : Z) :
  is_uint64 id ->
  Marshal_basic (VUint64 id : GoValue Msg) = Ok (marshal_buf (VUint64 id : GoValue Msg))
  /\ UnmarshalPtr TClassObj (marshal_buf (VUint64 id : GoValue Msg)) = Ok (VClassObj id).
Proof.
  intros Hv.
  destruct (Marshal_basic_roundtrip (VUint64 id) I Hv) as [Hm Hu]. split; [exact Hm |].
  cbn [type_of UnmarshalPtr] in *.
  destruct (DecodeVarint _) as [u | e | p]; cbn in *; congruence.
Qed.

End Roundtrip.

(** ** The loops round-trip *)

Lemma mapM_roundtrip {A B : Type} (f : A -> outcome B) (g : B -> outcome A)
    (good : B -> Prop) (l : list A) :
  Forall (fun x => exists b, f x = Ok b /\ g b = Ok x /\ good b) l ->
  exists bs, mapM f l = Ok bs /\ mapM g bs = Ok l /\ Forall good bs
             /\ length bs = length l.
Proof.
  induction 1 as [| x l [b [Hf [Hg Hb]]] _ [bs [Hfs [Hgs [Hbs Hlen]]]]].
  - exists []. repeat split; constructor.
  - exists (b :: bs). cbn. rewrite Hf. cbn. fold (mapM f). rewrite Hfs. cbn.
    rewrite Hg. cbn. fold (mapM g). rewrite Hgs. cbn.
    repeat split; [constructor; assumption | lia].
Qed.

Lemma mapM_Forall2 {A B : Type} (f : A -> outcome B) (R : B -> A -> Prop)
    (good : B -> Prop) (l : list A) :
  Forall (fun x => exists b, f x = Ok b /\ R b x /\ good b) l ->
  exists bs, mapM f l = Ok bs /\ Forall2 R bs l /\ Forall good bs.
Proof.
  induction 1 as [| x l [b [Hf [Hg Hb]]] _ [bs [Hfs [Hgs Hbs]]]].
  - exists []. repeat split; constructor.
  - exists (b :: bs). cbn. rewrite Hf. cbn. fold (mapM f). rewrite Hfs. cbn.
    repeat split; constructor; assumption.
Qed.

Section Loops.
Context {Msg : Set} {P : ProtoLib Msg}.

Lemma decode_elem_not_pointer (t : GoType) (b : bytes) :
  isPointer t = false -> decode_elem t b = UnmarshalPtr t b.
Proof. destruct t; try reflexivity. discriminate. Qed.

Lemma set_fields_roundtrip (fields : list (GoValue Msg)) :
  Forall (fun x => exists b, Marshal x = Ok b /\ UnmarshalPtr (type_of x) b = Ok x
                             /\ go_slice b) fields ->
  exists bs, mapM Marshal fields = Ok bs
             /\ set_fields UnmarshalPtr (map type_of fields) bs = Ok fields
             /\ Forall go_slice bs /\ length bs = length fields.
Proof.
  induction 1 as [| x l [b [Hf [Hg Hb]]] _ [bs [Hfs [Hgs [Hbs Hlen]]]]].
  - exists []. repeat split; constructor.
  - exists (b :: bs). cbn. rewrite Hf. cbn. fold (mapM (@Marshal Msg P)). rewrite Hfs. cbn.
    rewrite Hg. cbn. fold (set_fields (@UnmarshalPtr Msg P)). rewrite Hgs. cbn.
    repeat split; [constructor; assumption | lia].
Qed.

Lemma SetMapIndex_new (entries : list (GoValue Msg * GoValue Msg)) (k v : GoValue Msg) :
  Forall (fun e => go_eqb (fst e) k = false) entries ->
  SetMapIndex entries k v = entries ++ [(k, v)].
Proof.
  induction 1 as [| [k' v'] rest Hk _ IH]; cbn in *; [reflexivity |].
  rewrite Hk, IH. reflexivity.
Qed.

(** Decoding the entries of a map one after the other, into a map that holds
    none of their keys, adds them in order. *)
Lemma foldM_SetMapIndex {B : Type} (decode : B -> outcome (GoValue Msg * GoValue Msg))
    (todo : list (GoValue Msg * GoValue Msg)) :
  forall (bs : list B) (done : list (GoValue Msg * GoValue Msg)),
    Forall2 (fun b e => decode b = Ok e) bs todo ->
    distinct_keys todo ->
    Forall (fun d => Forall (fun e => go_eqb (fst d) (fst e) = false) todo) done ->
    foldM (fun m b => e <- decode b ;; Ok (SetMapIndex m (fst e) (snd e))) bs done
    = Ok (done ++ todo).
Proof.
  induction todo as [| [k v] todo IH]; intros bs done Hdec Hdist Hdone;
    inversion Hdec as [| b ? bs' ? Hb Hbs]; subst.
  - cbn. rewrite app_nil_r. reflexivity.
  - cbn [foldM]. rewrite Hb. cbn [bind fst snd].
    rewrite SetMapIndex_new.
    + cbn in Hdist. destruct Hdist as [Hk Hdist].
      fold (foldM (fun m b => e <- decode b ;; Ok (SetMapIndex m (fst e) (snd e)))).
      rewrite (IH bs' (done ++ [(k, v)]) Hbs Hdist).
      * rewrite <- app_assoc. reflexivity.
      * apply Forall_app. split.
        -- eapply Forall_impl; [| exact Hdone]. intros d Hd. inversion Hd; assumption.
        -- constructor; [exact Hk | constructor].
    + eapply Forall_impl; [| exact Hdone]. intros d Hd. inversion Hd; assumption.
Qed.

Lemma foldM_ext {A S : Type} (f g : S -> A -> outcome S) (l : list A) :
  (forall s x, f s x = g s x) -> forall s, foldM f l s = foldM g l s.
Proof.
  intros Hfg. induction l as [| x l IH]; intros s; cbn; [reflexivity |].
  rewrite Hfg. destruct (g s x); cbn; [apply IH | reflexivity | reflexivity].
Qed.

Lemma well_formed_slice (e : GoType) (items : list (GoValue Msg)) :
  well_formed (VSlice e items) ->
  Forall (fun x => well_formed x /\ type_of x = e /\ sized x) items.
Proof.
  induction items as [| x items IH]; cbn; intros H; constructor.
  - apply H.
  - apply IH, H.
Qed.

Lemma well_formed_struct (fields : list (GoValue Msg)) :
  well_formed (VStruct fields) ->
  Forall (fun x => well_formed x /\ sized x) fields.
Proof.
  induction fields as [| x fields IH]; cbn; intros H; constructor.
  - apply H.
  - apply IH, H.
Qed.

Lemma well_formed_map (k e : GoType) (entries : list (GoValue Msg * GoValue Msg)) :
  well_formed (VMap k e entries) ->
  distinct_keys entries
  /\ Forall (fun kv =>
               (well_formed (fst kv) /\ type_of (fst kv) = k /\ sized (fst kv))
               /\ (well_formed (snd kv) /\ type_of (snd kv) = e /\ sized (snd kv)))
            entries.
Proof.
  cbn. intros [Hd H]. split; [exact Hd |]. clear Hd.
  induction entries as [| [x y] entries IH]; constructor.
  - cbn. split; apply H.
  - apply IH, H.
Qed.

Lemma sized_go_slice (x : GoValue Msg) (b : bytes) :
  sized x -> Marshal x = Ok b -> go_slice b.
Proof. unfold sized. intros H E. rewrite E in H. exact H. Qed.

Lemma UnmarshalPtr_slice (e : GoType) (b : bytes) :
  UnmarshalPtr (TSlice e) b
  = (items <- of_option ErrProtoUnmarshal (Unmarshal_List b) ;;
     slice <- mapM (decode_elem e) items ;;
     Ok (VSlice e slice)).
Proof. reflexivity. Qed.

End Loops.

(** ** The round trip *)

Section Law.
Context {Msg : Set} {P : ProtoLib Msg}.
Hypothesis lawful : ProtoLawful P.

Lemma comes_back_atom (m : GoValue Msg) : atomic m -> comes_back m.
Proof.
  intros Hatom Hwf Hdec.
  destruct m; try contradiction; try discriminate;
    try (match goal with
         | |- exists b, Marshal ?x = Ok b /\ _ =>
             destruct (Marshal_basic_roundtrip x I Hwf) as [Hm Hu];
             eexists; split; [exact Hm | exact Hu]
         end).
  destruct (Marshal_enum_roundtrip (P := P) v Hwf) as [Hm Hu].
  eexists; split; [exact Hm | exact Hu].
Qed.

Lemma comes_back_slice (e : GoType) (items : list (GoValue Msg)) :
  Forall comes_back items -> comes_back (VSlice e items).
Proof.
  intros IH Hwf Hdec. cbn [type_of decodable] in Hdec.
  apply well_formed_slice in Hwf.
  assert (Hitems : Forall (fun x => exists b, Marshal x = Ok b /\ decode_elem e b = Ok x
                                              /\ go_slice b) items).
  { pose proof (Forall_and IH Hwf) as H. eapply Forall_impl; [| exact H].
    intros x [Hx [Hwfx [Htx Hsx]]]. subst e.
    destruct (Hx Hwfx Hdec) as [b [Hm Hu]].
    exists b. repeat split; [exact Hm | exact Hu | exact (sized_go_slice x b Hsx Hm)]. }
  destruct (mapM_roundtrip _ _ _ _ Hitems) as [bs [Hm [Hu [Hbs _]]]].
  exists (Marshal_List bs). split.
  - cbn [Marshal]. rewrite Hm. reflexivity.
  - cbn [type_of decode_elem]. rewrite UnmarshalPtr_slice.
    rewrite (List_roundtrip P lawful bs Hbs). cbn [of_option bind].
    rewrite Hu. reflexivity.
Qed.

Lemma decodable_fields (fields : list (GoValue Msg)) :
  forallb (fun f => decodable f && negb (isPointer f)) (map type_of fields) = true ->
  Forall (fun x => decodable (type_of x) = true /\ isPointer (type_of x) = false) fields.
Proof.
  induction fields as [| x fields IH]; cbn; intros H; constructor.
  - apply andb_prop in H. destruct H as [H _]. apply andb_prop in H.
    destruct H as [H1 H2]. split; [exact H1 |]. destruct (isPointer (type_of x)); 
    [discriminate | reflexivity].
  - apply IH. apply andb_prop in H. apply H.
Qed.

Lemma comes_back_struct (fields : list (GoValue Msg)) :
  Forall comes_back fields -> comes_back (VStruct fields).
Proof.
  intros IH Hwf Hdec. cbn [type_of decodable] in Hdec.
  apply well_formed_struct in Hwf. apply decodable_fields in Hdec.
  assert (Hfields : Forall (fun x => exists b, Marshal x = Ok b
                                       /\ UnmarshalPtr (type_of x) b = Ok x
                                       /\ go_slice b) fields).
  { pose proof (Forall_and IH (Forall_and Hwf Hdec)) as H.
    eapply Forall_impl; [| exact H].
    intros x [Hx [[Hwfx Hsx] [Hdx Hpx]]].
    destruct (Hx Hwfx Hdx) as [b [Hm Hu]].
    rewrite decode_elem_not_pointer in Hu by exact Hpx.
    exists b. repeat split; [exact Hm | exact Hu | exact (sized_go_slice x b Hsx Hm)]. }
  destruct (set_fields_roundtrip fields Hfields) as [bs [Hm [Hu [Hbs Hlen]]]].
  exists (Marshal_Tuple bs). split.
  - cbn [Marshal]. rewrite Hm. reflexivity.
  - cbn [type_of decode_elem UnmarshalPtr].
    rewrite (Tuple_roundtrip P lawful bs Hbs). cbn [of_option bind].
    rewrite length_map, Hlen, Nat.eqb_refl. cbn [negb]. rewrite Hu. reflexivity.
Qed.

Lemma comes_back_pointer (e : GoType) (x : GoValue Msg) :
  comes_back x -> comes_back (VPointer e (Some x)).
Proof.
  intros IH [Hwf Htype] Hdec. cbn [type_of] in Hdec.
  destruct e; cbn [decodable] in Hdec; try discriminate;
    try (destruct (IH Hwf ltac:(rewrite Htype; exact Hdec)) as [b [Hm Hu]];
         rewrite Htype in Hu; cbn [decode_elem] in Hu;
         exists b; split; [exact Hm |];
         cbn [type_of decode_elem]; rewrite Hu; reflexivity).
  - (* a pointer to an enum *)
    destruct x; try discriminate. cbn [well_formed] in Hwf.
    destruct (Marshal_enum_roundtrip (P := P) v Hwf) as [Hm Hu].
    eexists. split; [exact Hm |]. cbn [type_of decode_elem]. rewrite Hu. reflexivity.
  - (* a class handle *)
    destruct x; try discriminate. cbn [well_formed] in Hwf.
    destruct (Marshal_class_roundtrip (P := P) id Hwf) as [Hm Hu].
    eexists. split; [exact Hm |]. cbn [type_of decode_elem]. rewrite Hu. reflexivity.
  - (* a message *)
    destruct x; try discriminate. cbn [well_formed] in Hwf.
    destruct (proto_Marshal m) as [b |] eqn:Hb; [| contradiction].
    exists b. split; [cbn [Marshal]; rewrite Hb; reflexivity |].
    cbn [type_of decode_elem UnmarshalPtr].
    rewrite (proto_roundtrip P lawful m b Hb). reflexivity.
Qed.

Lemma empty_struct_value (e : GoType) (y : GoValue Msg) :
  isEmptyStruct e = true -> type_of y = e -> y = VStruct [].
Proof.
  intros He Hy. destruct e as [| | | | | | | | | | | | | | fields |]; try discriminate.
  destruct fields; [| discriminate].
  destruct y; try discriminate. cbn in Hy.
  destruct fields; [reflexivity | discriminate].
Qed.

Lemma comes_back_map (k e : GoType) (entries : list (GoValue Msg * GoValue Msg)) :
  Forall (fun kv => comes_back (fst kv) /\ comes_back (snd kv)) entries ->
  comes_back (VMap k e entries).
Proof.
  intros IH Hwf Hdec. cbn [type_of decodable] in Hdec.
  apply well_formed_map in Hwf. destruct Hwf as [Hdist Hwf].
  apply andb_prop in Hdec. destruct Hdec as [Hk He].
  apply andb_prop in Hk. destruct Hk as [Hk Hkp].
  assert (Hkp' : isPointer k = false) by (destruct (isPointer k); [discriminate | reflexivity]).
  clear Hkp. pose proof (Forall_and IH Hwf) as H. clear IH Hwf.
  destruct (isEmptyStruct e) eqn:Hempty.
  - (* a set *)
    assert (Hkeys : Forall (fun kv : GoValue Msg * GoValue Msg =>
                              exists b, (let '(x, _) := kv in Marshal x) = Ok b
                                        /\ (x <- UnmarshalPtr k b ;;
                                            Ok (x, VStruct [])) = Ok kv
                                        /\ go_slice b) entries).
    { eapply Forall_impl; [| exact H].
      intros [x y] [[Hx _] [[Hwfx [Htx Hsx]] [_ [Hty _]]]]. cbn [fst snd] in *.
      destruct (Hx Hwfx ltac:(rewrite Htx; exact Hk)) as [b [Hm Hu]].
      rewrite Htx, decode_elem_not_pointer in Hu by exact Hkp'.
      exists b. repeat split; [exact Hm | | exact (sized_go_slice x b Hsx Hm)].
      rewrite Hu. cbn. rewrite (empty_struct_value e y Hempty Hty). reflexivity. }
    destruct (mapM_Forall2 _ _ _ _ Hkeys) as [bs [Hm [Hu Hbs]]].
    exists (Marshal_Set bs). split.
    + cbn [Marshal]. rewrite Hempty. rewrite Hm. reflexivity.
    + cbn [type_of decode_elem UnmarshalPtr]. rewrite Hempty.
      rewrite (Set_roundtrip P lawful bs Hbs). cbn [of_option bind].
      rewrite (foldM_ext _
                 (fun m b => e0 <- (x <- UnmarshalPtr k b ;; Ok (x, VStruct [])) ;;
                             Ok (SetMapIndex m (fst e0) (snd e0)))).
      * rewrite (foldM_SetMapIndex _ entries bs [] Hu Hdist (Forall_nil _)).
        reflexivity.
      * intros s b. destruct (UnmarshalPtr k b); reflexivity.
  - (* a dictionary *)
    cbn [orb] in He.
    assert (Hentries : Forall (fun kv : GoValue Msg * GoValue Msg =>
                                 exists b, (let '(x, y) := kv in
                                            keyBytes <- Marshal x ;;
                                            valueBytes <- Marshal y ;;
                                            Ok (keyBytes, valueBytes)) = Ok b
                                           /\ (key <- UnmarshalPtr k (fst b) ;;
                                               out <- decode_elem e (snd b) ;;
                                               Ok (key, out)) = Ok kv
                                           /\ (go_slice (fst b) /\ go_slice (snd b)))
                              entries).
    { eapply Forall_impl; [| exact H].
      intros [x y] [[Hx Hy] [[Hwfx [Htx Hsx]] [Hwfy [Hty Hsy]]]]. cbn [fst snd] in *.
      destruct (Hx Hwfx ltac:(rewrite Htx; exact Hk)) as [kb [Hmk Huk]].
      rewrite Htx, decode_elem_not_pointer in Huk by exact Hkp'.
      destruct (Hy Hwfy ltac:(rewrite Hty; exact He)) as [vb [Hmv Huv]].
      rewrite Hty in Huv.
      exists (kb, vb). cbn [fst snd]. rewrite Hmk, Hmv, Huk, Huv. cbn.
      repeat split;
        [exact (sized_go_slice x kb Hsx Hmk) | exact (sized_go_slice y vb Hsy Hmv)]. }
    destruct (mapM_Forall2 _ _ _ _ Hentries) as [bs [Hm [Hu Hbs]]].
    exists (Marshal_Dictionary bs). split.
    + cbn [Marshal]. rewrite Hempty. rewrite Hm. reflexivity.
    + cbn [type_of decode_elem UnmarshalPtr]. rewrite Hempty.
      rewrite (Dictionary_roundtrip P lawful bs Hbs). cbn [of_option bind].
      rewrite (foldM_ext _
                 (fun m b => e0 <- (key <- UnmarshalPtr k (fst b) ;;
                                    out <- decode_elem e (snd b) ;;
                                    Ok (key, out)) ;;
                             Ok (SetMapIndex m (fst e0) (snd e0)))).
      * rewrite (foldM_SetMapIndex _ entries bs [] Hu Hdist (Forall_nil _)).
        reflexivity.
      * intros s [kb vb]. cbn [fst snd].
        destruct (UnmarshalPtr k kb); [| reflexivity | reflexivity].
        cbn [bind]. fold (decode_elem e vb).
        destruct (decode_elem e vb); reflexivity.
Qed.

(** The round trip on the decodable types: for every well-formed value of a
    decodable type, [Marshal] succeeds and its result decodes to the value
    again. *)
Theorem Marshal_Unmarshal_roundtrip (v : GoValue Msg) :
  well_formed v -> decodable (type_of v) = true ->
  exists b, Marshal v = Ok b /\ decode_elem (type_of v) b = Ok v.
Proof.
  change (comes_back v). induction v using GoValue_nested_ind.
  - apply comes_back_atom. assumption.
  - apply comes_back_slice. assumption.
  - apply comes_back_map. assumption.
  - apply comes_back_struct. assumption.
  - intros [].
  - apply comes_back_pointer. assumption.
Qed.

(** For a value that is not a pointer this is [Unmarshal(Marshal(v), &out)]
    with [out] of the type of [v]. *)
Corollary Unmarshal_Marshal (v : GoValue Msg) :
  well_formed v -> decodable (type_of v) = true -> isPointer (type_of v) = false ->
  exists b, Marshal v = Ok b /\ Unmarshal b (TPointer (type_of v)) = Ok v.
Proof.
  intros Hwf Hdec Hp. destruct (Marshal_Unmarshal_roundtrip v Hwf Hdec) as [b [Hm Hu]].
  exists b. split; [exact Hm |]. unfold Unmarshal.
  rewrite <- decode_elem_not_pointer by exact Hp. exact Hu.
Qed.

End Law.

(** ** The wire format is a lawful protobuf library *)

Module WireProtoFacts.
Import WireProto.

Lemma ConsumeBytes_AppendBytes_app (v rest : bytes) :
  Z.of_nat (length v) < 2 ^ 64 ->
  Wire.ConsumeBytes (Wire.AppendBytes v ++ rest) = inl (v, rest).
Proof.
  intros Hv. unfold Wire.ConsumeBytes, Wire.AppendBytes. rewrite <- app_assoc.
  rewrite ConsumeVarint_EncodeVarint by (unfold is_uint64; lia).
  rewrite length_app.
  destruct (Z.ltb_spec (Z.of_nat (length v + length rest)) (Z.of_nat (length v)));
    [lia |].
  rewrite Nat2Z.id, firstn_app, Nat.sub_diag, firstn_all, firstn_O, app_nil_r.
  rewrite skipn_app, Nat.sub_diag, skipn_all. reflexivity.
Qed.

(** A tag splits into its field number and its wire type. *)
Lemma tag_split (num typ : Z) :
  0 <= num -> 0 <= typ < 8 ->
  Z.lor (Z.shiftl num 3) typ = num * 8 + typ.
Proof.
  intros Hnum Htyp.
  assert (Hland : Z.land (Z.shiftl num 3) typ = 0).
  { apply Z.bits_inj'. intros i Hi. rewrite Z.land_spec, Z.bits_0.
    destruct (Z.lt_ge_cases i 3) as [Hlt | Hge].
    - rewrite Z.shiftl_spec_low by lia. reflexivity.
    - replace (Z.testbit typ i) with false; [apply andb_false_r |].
      symmetry. destruct (Z.eq_dec typ 0) as [-> | Hne]; [apply Z.bits_0 |].
      apply Z.bits_above_log2; [lia |].
      apply Z.lt_le_trans with 3; [| exact Hge].
      apply Z.log2_lt_pow2; [lia |]. change (2 ^ 3) with 8. lia. }
  rewrite <- Z.lxor_lor, <- Z.add_nocarry_lxor by exact Hland.
  rewrite Z.shiftl_mul_pow2 by lia. reflexivity.
Qed.

Lemma ConsumeField_bytes (num : Z) (v rest : bytes) :
  field_number num -> Z.of_nat (length v) < 2 ^ 64 ->
  ConsumeField (AppendField (num, FBytes v) ++ rest) = Some ((num, FBytes v), rest).
Proof.
  unfold field_number. intros Hnum Hv. unfold ConsumeField, AppendField, AppendTag.
  rewrite tag_split by lia. rewrite <- app_assoc.
  rewrite ConsumeVarint_EncodeVarint by (unfold is_uint64; lia).
  rewrite Z.shiftr_div_pow2 by lia. change (2 ^ 3) with 8.
  replace ((num * 8 + 2) / 8) with num by (Z.div_mod_to_equations; lia).
  change 7 with (Z.ones 3). rewrite Z.land_ones by lia. change (2 ^ 3) with 8.
  replace ((num * 8 + 2) mod 8) with 2 by (Z.div_mod_to_equations; lia).
  destruct (Z.ltb_spec num 1); [lia |].
  destruct (Z.ltb_spec (2 ^ 29 - 1) num); [lia |]. cbn [orb].
  rewrite ConsumeBytes_AppendBytes_app by exact Hv. reflexivity.
Qed.

Lemma AppendField_nonempty (f : Field) (rest : bytes) :
  exists y b, AppendField f ++ rest = y :: b.
Proof.
  destruct f as [num [v | v | v | v | v]];
    unfold AppendField, AppendTag, Wire.EncodeVarint.
  all: pose proof (AppendVarint_loop_nonempty 9 (uint64 (Z.lor (Z.shiftl num 3) 0))) as H0;
    pose proof (AppendVarint_loop_nonempty 9 (uint64 (Z.lor (Z.shiftl num 3) 1))) as H1;
    pose proof (AppendVarint_loop_nonempty 9 (uint64 (Z.lor (Z.shiftl num 3) 2))) as H2;
    pose proof (AppendVarint_loop_nonempty 9 (uint64 (Z.lor (Z.shiftl num 3) 3))) as H3;
    pose proof (AppendVarint_loop_nonempty 9 (uint64 (Z.lor (Z.shiftl num 3) 5))) as H5.
  all: match goal with
       | |- exists y b, (?t ++ _) ++ _ = _ => destruct t as [| y b] eqn:E
       end; cbn in *; try lia; eexists; eexists; reflexivity.
Qed.

Lemma ConsumeFields_AppendFields (fs : list Field) :
  Forall bytes_wf fs ->
  forall fuel, (length (AppendFields fs) <= fuel)%nat ->
               ConsumeFields fuel (AppendFields fs) = Some fs.
Proof.
  induction 1 as [| f fs Hf _ IH]; intros fuel Hfuel.
  - destruct fuel; reflexivity.
  - unfold AppendFields in *. cbn [map concat] in *.
    destruct (AppendField_nonempty f (concat (map AppendField fs))) as [y [b Hyb]].
    assert (Hlen : (1 <= length (AppendField f))%nat).
    { destruct (AppendField_nonempty f []) as [y' [b' E]]. rewrite app_nil_r in E.
      rewrite E. cbn. lia. }
    rewrite length_app in Hfuel.
    destruct fuel as [| fuel]; [lia |].
    cbn [ConsumeFields]. rewrite Hyb. rewrite <- Hyb.
    destruct f as [num [v | v | v | v | v]]; cbn [bytes_wf] in Hf; try contradiction.
    destruct Hf as [Hnum Hv].
    rewrite ConsumeField_bytes by assumption.
    rewrite IH by lia. reflexivity.
Qed.

Lemma parse_AppendFields (fs : list Field) :
  Forall bytes_wf fs -> parse (AppendFields fs) = Some fs.
Proof. intros H. apply ConsumeFields_AppendFields; [exact H | lia]. Qed.

Lemma repeated_bytes_items (items : list bytes) :
  repeated_bytes 1 (map (fun i => (1, FBytes i)) items) = items.
Proof. induction items as [| i items IH]; cbn; [| rewrite IH]; reflexivity. Qed.

Lemma decode_encode_items (items : list bytes) :
  Forall (fun i => Z.of_nat (length i) < 2 ^ 64) items ->
  decode_items (encode_items items) = Some items.
Proof.
  intros H. unfold decode_items, encode_items. rewrite parse_AppendFields.
  - cbn. rewrite repeated_bytes_items. reflexivity.
  - apply Forall_map. eapply Forall_impl; [| exact H].
    intros i Hi. cbn. unfold field_number. split; [lia | exact Hi].
Qed.

Lemma go_slice_fits (b : bytes) : go_slice b -> Z.of_nat (length b) < 2 ^ 64.
Proof. unfold go_slice, maxAlloc. lia. Qed.

Lemma decode_encode_entry (e : bytes * bytes) :
  go_slice (fst e) -> go_slice (snd e) -> decode_entry (encode_entry e) = Some e.
Proof.
  destruct e as [k v]. cbn [fst snd]. intros Hk Hv.
  apply go_slice_fits in Hk, Hv.
  unfold decode_entry, encode_entry. rewrite parse_AppendFields.
  - destruct k as [| k0 k], v as [| v0 v]; cbn; reflexivity.
  - unfold bytes_field. cbn [fst snd].
    destruct k as [| k0 k], v as [| v0 v]; cbn [app];
      repeat constructor; unfold field_number; try lia; assumption.
Qed.

Lemma length_encode_entry (e : bytes * bytes) :
  (length (encode_entry e) <= length (fst e) + length (snd e) + 40)%nat.
Proof.
  destruct e as [k v]. unfold encode_entry, AppendFields, bytes_field. cbn [fst snd].
  destruct k as [| k0 k], v as [| v0 v]; cbn [app map concat AppendField];
    unfold AppendTag, Wire.AppendBytes; rewrite ?length_app, ?app_nil_r, ?length_app;
    cbn [length];
    repeat match goal with
           | |- context [length (Wire.EncodeVarint ?x)] =>
               let H := fresh in
               pose proof (length_EncodeVarint x) as H;
               generalize dependent (length (Wire.EncodeVarint x)); intros
           end; lia.
Qed.

Lemma sequence_decode_entries (entries : list (bytes * bytes)) :
  Forall (fun e => go_slice (fst e) /\ go_slice (snd e)) entries ->
  sequence (map decode_entry (map encode_entry entries)) = Some entries.
Proof.
  induction 1 as [| e entries [Hk Hv] _ IH]; cbn; [reflexivity |].
  rewrite decode_encode_entry by assumption. rewrite IH. reflexivity.
Qed.

Lemma decode_encode_Dictionary (entries : list (bytes * bytes)) :
  Forall (fun e => go_slice (fst e) /\ go_slice (snd e)) entries ->
  decode_Dictionary (encode_Dictionary entries) = Some entries.
Proof.
  intros H. unfold decode_Dictionary, encode_Dictionary.
  rewrite decode_encode_items.
  - apply sequence_decode_entries. exact H.
  - apply Forall_map. eapply Forall_impl; [| exact H].
    intros e [Hk Hv]. pose proof (length_encode_entry e).
    unfold go_slice, maxAlloc in Hk, Hv. lia.
Qed.

Lemma forallb_go_slice (m : list bytes) :
  forallb go_sliceb m = true -> Forall go_slice m.
Proof.
  intros H. apply Forall_forall. intros x Hx.
  rewrite forallb_forall in H. specialize (H x Hx).
  unfold go_sliceb in H. unfold go_slice. lia.
Qed.

(** The wire format keeps the promises the codec relies on. *)
Lemma lawful : ProtoLawful lib.
Proof.
  constructor; cbn.
  - intros m b H. destruct (forallb go_sliceb m) eqn:E; [| discriminate].
    inversion H; subst. apply decode_encode_items.
    eapply Forall_impl; [| apply forallb_go_slice, E]. apply go_slice_fits.
  - intros items H. apply decode_encode_items.
    eapply Forall_impl; [| exact H]. apply go_slice_fits.
  - intros items H. apply decode_encode_items.
    eapply Forall_impl; [| exact H]. apply go_slice_fits.
  - intros items H. apply decode_encode_items.
    eapply Forall_impl; [| exact H]. apply go_slice_fits.
  - apply decode_encode_Dictionary.
Qed.

End WireProtoFacts.

Ltac well_formed_by_computation :=
  vm_compute;
  repeat match goal with
         | |- _ /\ _ => split
         | |- True => exact I
         | |- Forall _ _ => constructor
         | |- _ = _ => reflexivity
         | |- _ -> False => let H := fresh in intro H; discriminate H
         | |- ~ _ => let H := fresh in intro H; discriminate H
         end.

Example roundtrip_dictionary_of_lists_of_tuples :
  exists b, Marshal (P := WireProto.lib) Cases.dictionary = Ok b
            /\ Unmarshal (P := WireProto.lib) b (TPointer (type_of Cases.dictionary))
               = Ok Cases.dictionary.
Proof.
  apply (Unmarshal_Marshal WireProtoFacts.lawful Cases.dictionary).
  - well_formed_by_computation.
  - reflexivity.
  - reflexivity.
Qed.

Example roundtrip_list_of_class_handles :
  exists b, Marshal (P := WireProto.lib) Cases.handles = Ok b
            /\ Unmarshal (P := WireProto.lib) b (TPointer (type_of Cases.handles))
               = Ok Cases.handles.
Proof.
  apply (Unmarshal_Marshal WireProtoFacts.lawful Cases.handles).
  - well_formed_by_computation.
  - reflexivity.
  - reflexivity.
Qed.

Example roundtrip_set :
  exists b, Marshal (P := WireProto.lib) Cases.set_of_integers = Ok b
            /\ Unmarshal (P := WireProto.lib) b (TPointer (type_of Cases.set_of_integers))
               = Ok Cases.set_of_integers.
Proof.
  apply (Unmarshal_Marshal WireProtoFacts.lawful Cases.set_of_integers).
  - well_formed_by_computation.
  - reflexivity.
  - reflexivity.
Qed.

(** ** The frame-length reader on a well-formed length *)

Lemma ConsumeVarint_loop_truncated (n : nat) :
  forall (v shift acc : Z) (k : nat),
    (k < length (Wire.AppendVarint_loop n v))%nat ->
    Wire.ConsumeVarint_loop n shift acc (firstn k (Wire.AppendVarint_loop n v))
    = inr Wire.errCodeTruncated.
Proof.
  induction n as [| n IH]; intros v shift acc k Hk.
  - cbn in Hk. replace k with O by lia. reflexivity.
  - cbn [Wire.AppendVarint_loop] in *. destruct (Z.ltb_spec v 128) as [Hlt | Hge].
    + cbn in Hk. replace k with O by lia. reflexivity.
    + destruct k as [| k]; [reflexivity |].
      cbn [length] in Hk. cbn [firstn Wire.ConsumeVarint_loop].
      pose proof (Z.mod_pos_bound v 128 ltac:(lia)) as Hm.
      rewrite Z_of_byte_of_Z, land_127, lor_128 by lia.
      rewrite Z.mod_small by lia.
      destruct (Z.ltb_spec (v mod 128 + 128) 128); [lia |].
      apply IH. lia.
Qed.

Lemma DecodeVarint_prefix (v : Z) (k : nat) :
  (k < length (Wire.EncodeVarint v))%nat ->
  Wire.DecodeVarint (firstn k (Wire.EncodeVarint v)) = (0, O).
Proof.
  intros Hk. unfold Wire.DecodeVarint, Wire.ConsumeVarint, Wire.EncodeVarint in *.
  rewrite ConsumeVarint_loop_truncated by exact Hk. reflexivity.
Qed.

Lemma DecodeVarint_EncodeVarint (v : Z) :
  is_uint64 v ->
  Wire.DecodeVarint (Wire.EncodeVarint v) = (v, length (Wire.EncodeVarint v)).
Proof.
  intros Hv. unfold Wire.DecodeVarint.
  rewrite <- (app_nil_r (Wire.EncodeVarint v)) at 1.
  rewrite ConsumeVarint_EncodeVarint by exact Hv.
  cbn [length]. rewrite ?app_nil_r, Nat.sub_0_r. reflexivity.
Qed.

Lemma readMessageLength_loop_decodes (v : Z) (bs : bytes) :
  forall (n : nat) (rawLength : bytes) (r : Conn) (rest : list ReadEvent),
    bs <> [] ->
    rawLength ++ bs = Wire.EncodeVarint v ->
    is_uint64 v ->
    incoming r = map Delivers bs ++ rest ->
    (length bs <= n)%nat ->
    readMessageLength_loop n rawLength r = (Ok v, set_incoming r rest).
Proof.
  induction bs as [| b bs IH]; intros n rawLength r rest Hne Henc Hv Hin Hn;
    [contradiction |].
  destruct n as [| n]; [cbn in Hn; lia |].
  cbn [readMessageLength_loop]. unfold Read. rewrite Hin. cbn [map app].
  destruct bs as [| b' bs].
  - rewrite Henc, DecodeVarint_EncodeVarint by exact Hv.
    pose proof (AppendVarint_loop_nonempty 9 (uint64 v)) as Hlen.
    unfold Wire.EncodeVarint.
    destruct (length (Wire.AppendVarint_loop 9 (uint64 v))) as [| m] eqn:E; [lia |].
    reflexivity.
  - assert (Hprefix : rawLength ++ [b]
                      = firstn (length (rawLength ++ [b])) (Wire.EncodeVarint v)).
    { rewrite <- Henc.
      replace (rawLength ++ b :: b' :: bs) with ((rawLength ++ [b]) ++ b' :: bs)
        by (rewrite <- app_assoc; reflexivity).
      rewrite firstn_app, Nat.sub_diag, firstn_all, firstn_O, app_nil_r. reflexivity. }
    rewrite Hprefix, DecodeVarint_prefix.
    + cbn [Nat.ltb Nat.leb]. rewrite <- Hprefix.
      rewrite (IH n (rawLength ++ [b]) (set_incoming r (map Delivers (b' :: bs) ++ rest))
                 rest).
      * reflexivity.
      * discriminate.
      * rewrite <- app_assoc. exact Henc.
      * exact Hv.
      * reflexivity.
      * cbn [length] in *. lia.
    + rewrite <- Henc, !length_app. cbn [length]. lia.
Qed.

(** A length that is written as [send] writes it is read back, and nothing
    after it is read. *)
Lemma readMessageLength_reads_a_length (v : Z) (r : Conn) (rest : list ReadEvent) :
  is_uint64 v ->
  incoming r = map Delivers (Wire.EncodeVarint v) ++ rest ->
  readMessageLength r = (Ok v, set_incoming r rest).
Proof.
  intros Hv Hin. unfold readMessageLength.
  apply (readMessageLength_loop_decodes v (Wire.EncodeVarint v) 16 [] r rest).
  - pose proof (AppendVarint_loop_nonempty 9 (uint64 v)) as Hlen.
    unfold Wire.EncodeVarint. destruct (Wire.AppendVarint_loop 9 (uint64 v));
      [cbn in Hlen; lia | discriminate].
  - reflexivity.
  - exact Hv.
  - exact Hin.
  - pose proof (length_AppendVarint_loop 9 (uint64 v)). unfold Wire.EncodeVarint. lia.
Qed.

(** * More of the codec *)

Lemma mapM_Ok {A B : Type} (f : A -> outcome B) (l : list A) :
  forall ys, mapM f l = Ok ys <-> Forall2 (fun x y => f x = Ok y) l ys.
Proof.
  induction l as [| x l IH]; intros ys; cbn.
  - split.
    + intros H; inversion H; constructor.
    + intros H; inversion H; reflexivity.
  - fold (mapM f). split.
    + destruct (f x) as [y | e | p] eqn:Hx; cbn; try discriminate.
      destruct (mapM f l) as [ys' | e | p] eqn:Hl; cbn; try discriminate.
      intros H; inversion H; subst. constructor; [exact Hx | apply IH; reflexivity].
    + intros H; inversion H as [| ? y ? ys' Hx Hl]; subst.
      rewrite Hx. cbn. apply IH in Hl. rewrite Hl. reflexivity.
Qed.

Lemma returns_bind {A B : Type} (x : outcome A) (k : A -> outcome B) :
  returns x -> (forall a, x = Ok a -> returns (k a)) -> returns (bind x k).
Proof. destruct x; cbn; intros Hx Hk; [apply Hk; reflexivity | exact I | exact Hx]. Qed.

Lemma mapM_returns {A B : Type} (f : A -> outcome B) (l : list A) :
  (forall x, returns (f x)) -> returns (mapM f l).
Proof.
  intros Hf. induction l as [| x l IH]; cbn; [exact I |]. fold (mapM f).
  apply returns_bind; [apply Hf |]. intros y _.
  apply returns_bind; [exact IH |]. intros ys _. exact I.
Qed.

Lemma foldM_returns {A S : Type} (f : S -> A -> outcome S) (l : list A) :
  (forall s x, returns (f s x)) -> forall s, returns (foldM f l s).
Proof.
  intros Hf. induction l as [| x l IH]; intros s; cbn; [exact I |]. fold (foldM f).
  apply returns_bind; [apply Hf |]. intros s' _. apply IH.
Qed.

Lemma ConsumeFixed_le_bytes_app (n : nat) (v : Z) (rest : bytes) :
  0 <= v < 2 ^ (8 * Z.of_nat n) ->
  Wire.ConsumeFixed n (Wire.le_bytes n v ++ rest) = inl (v, rest).
Proof.
  intros Hv. unfold Wire.ConsumeFixed. rewrite length_app, length_le_bytes.
  destruct (Nat.ltb_spec (n + length rest) n); [lia |].
  rewrite firstn_app, skipn_app, length_le_bytes, Nat.sub_diag.
  rewrite firstn_all2, skipn_all2 by (rewrite length_le_bytes; lia).
  cbn [firstn skipn app]. rewrite app_nil_r, le_value_le_bytes by exact Hv.
  reflexivity.
Qed.

Section MoreCodec.
Context {Msg : Set} {P : ProtoLib Msg}.

(** X1: no value of a basic kind has an empty encoding, whatever its value
    (zero, false, the empty string, an empty byte slice, an integer out of
    range): [Marshal] returns the buffer of the first type switch and never
    reaches the reflection switch with it. *)
Theorem Marshal_basic_kind_is_never_empty (m : GoValue Msg) (Hbasic : basic_kind m) :
  Marshal m = Ok (marshal_buf m) /\ marshal_buf m <> [].
Proof.
  assert (Hlen : (0 <? length (marshal_buf m))%nat = true).
  { destruct m; try contradiction; cbn [marshal_buf];
      try apply EncodeVarint_nonempty; try apply AppendBytes_nonempty;
      unfold Wire.EncodeZigzag32, Wire.EncodeZigzag64, Wire.EncodeFixed32,
        Wire.EncodeFixed64;
      try apply EncodeVarint_nonempty; rewrite length_le_bytes; reflexivity. }
  split.
  - destruct m; try contradiction; cbn [Marshal]; unfold Marshal_basic;
      rewrite Hlen; reflexivity.
  - intros E. rewrite E in Hlen. discriminate.
Qed.

(** X2: decoding a basic value does not look past its encoding: whatever
    bytes follow it, [Unmarshal] returns the value and no error. *)
Theorem Unmarshal_ignores_trailing_bytes (m : GoValue Msg) (rest : bytes)
    (Hbasic : basic_kind m) (Hwf : well_formed m) :
  Unmarshal (marshal_buf m ++ rest) (TPointer (type_of m)) = Ok m.
Proof.
  unfold Unmarshal.
  destruct m; try contradiction; cbn [marshal_buf type_of UnmarshalPtr well_formed] in *.
  - unfold Wire.EncodeZigzag32. rewrite zigzag32_encode by exact Hwf.
    unfold DecodeZigzag32, DecodeVarint.
    rewrite ConsumeVarint_EncodeVarint by (apply zigzag32_range, Hwf).
    cbn. rewrite zigzag32_decode by exact Hwf. reflexivity.
  - unfold Wire.EncodeZigzag64. rewrite zigzag64_encode by exact Hwf.
    unfold DecodeZigzag64, DecodeVarint.
    rewrite ConsumeVarint_EncodeVarint by (apply zigzag64_range, Hwf).
    cbn. rewrite zigzag64_decode by exact Hwf. reflexivity.
  - unfold DecodeVarint. pose proof Hwf as Hr. unfold is_uint32 in Hr.
    rewrite ConsumeVarint_EncodeVarint by (unfold is_uint64, uint64; arith).
    cbn. rewrite uint32_uint64 by exact Hwf. reflexivity.
  - unfold DecodeVarint. rewrite ConsumeVarint_EncodeVarint by exact Hwf. reflexivity.
  - unfold DecodeVarint.
    rewrite ConsumeVarint_EncodeVarint by (unfold is_uint64; destruct v; lia).
    destruct v; reflexivity.
  - unfold Wire.EncodeFixed32. rewrite uint32_uint64 by exact Hwf.
    unfold DecodeFixed32. rewrite ConsumeFixed_le_bytes_app by exact Hwf.
    cbn. unfold uint32. unfold is_uint32 in Hwf. rewrite Z.mod_small by exact Hwf.
    reflexivity.
  - unfold Wire.EncodeFixed64, uint64. unfold is_uint64 in Hwf.
    rewrite Z.mod_small by exact Hwf.
    unfold DecodeFixed64. rewrite ConsumeFixed_le_bytes_app by exact Hwf. reflexivity.
  - unfold DecodeRawBytes.
    rewrite WireProtoFacts.ConsumeBytes_AppendBytes_app
      by (apply WireProtoFacts.go_slice_fits, Hwf).
    cbn [of_parse bind fst]. rewrite string_of_list_byte_of_string. reflexivity.
  - unfold DecodeRawBytes.
    rewrite WireProtoFacts.ConsumeBytes_AppendBytes_app
      by (apply WireProtoFacts.go_slice_fits, Hwf).
    reflexivity.
Qed.

End MoreCodec.

Lemma ConsumeVarint_truncated (v : Z) (k : nat) :
  (k < length (Wire.EncodeVarint v))%nat ->
  Wire.ConsumeVarint (firstn k (Wire.EncodeVarint v)) = inr Wire.errCodeTruncated.
Proof.
  intros Hk. unfold Wire.ConsumeVarint, Wire.EncodeVarint in *.
  apply ConsumeVarint_loop_truncated. exact Hk.
Qed.

Lemma ConsumeFixed_truncated (n k : nat) (b : bytes) :
  (k < n)%nat -> Wire.ConsumeFixed n (firstn k b) = inr Wire.errCodeTruncated.
Proof.
  intros Hk. unfold Wire.ConsumeFixed.
  pose proof (length_firstn k b) as Hl.
  destruct (Nat.ltb_spec (length (firstn k b)) n); [reflexivity | lia].
Qed.

Lemma ConsumeBytes_truncated (v : bytes) (k : nat) :
  go_slice v ->
  (k < length (Wire.AppendBytes v))%nat ->
  Wire.ConsumeBytes (firstn k (Wire.AppendBytes v)) = inr Wire.errCodeTruncated.
Proof.
  intros Hv Hk. unfold Wire.AppendBytes in *. rewrite length_app in Hk.
  unfold Wire.ConsumeBytes. rewrite firstn_app.
  set (E := Wire.EncodeVarint (Z.of_nat (length v))) in *.
  destruct (Nat.lt_ge_cases k (length E)) as [Hlt | Hge].
  - replace (k - length E)%nat with O by lia. cbn [firstn]. rewrite app_nil_r.
    subst E. rewrite ConsumeVarint_truncated by exact Hlt. reflexivity.
  - rewrite firstn_all2 by exact Hge. subst E.
    rewrite ConsumeVarint_EncodeVarint
      by (pose proof (WireProtoFacts.go_slice_fits _ Hv); unfold is_uint64; lia).
    rewrite length_firstn.
    destruct (Z.ltb_spec (Z.of_nat (Nat.min (k - length (Wire.EncodeVarint (Z.of_nat (length v)))) (length v)))
                (Z.of_nat (length v))); [reflexivity | lia].
Qed.

Section MoreCodec2.
Context {Msg : Set} {P : ProtoLib Msg}.

(** X3: an encoding of a basic value that is cut short, to nothing or to any
    proper prefix, is refused with the truncation error of the wire reader:
    [Unmarshal] never returns a value read from half an encoding. *)
Theorem Unmarshal_refuses_a_truncated_value (m : GoValue Msg) (k : nat)
    (Hbasic : basic_kind m) (Hwf : well_formed m)
    (Hk : (k < length (marshal_buf m))%nat) :
  Unmarshal (firstn k (marshal_buf m)) (TPointer (type_of m))
  = Err (ErrParse Wire.errCodeTruncated).
Proof.
  unfold Unmarshal.
  destruct m; try contradiction;
    cbn [marshal_buf type_of UnmarshalPtr well_formed] in *;
    unfold DecodeZigzag32, DecodeZigzag64, DecodeVarint, DecodeFixed32,
      DecodeFixed64, DecodeRawBytes,
      Wire.EncodeZigzag32, Wire.EncodeZigzag64, Wire.EncodeFixed32,
      Wire.EncodeFixed64 in *;
    try (rewrite ConsumeVarint_truncated by exact Hk; reflexivity);
    try (rewrite length_le_bytes in Hk;
         rewrite ConsumeFixed_truncated by exact Hk; reflexivity);
    rewrite ConsumeBytes_truncated by assumption; reflexivity.
Qed.

End MoreCodec2.




Section MoreCodec3.
Context {Msg : Set} {P : ProtoLib Msg}.


(** X5: under a list type, the bytes of a [types.List] decode exactly when
    every item decodes as an element, and the slice holds the decoded items
    in wire order: none is dropped, reordered or defaulted. *)
Theorem Unmarshal_list_decodes_every_item (elemType : GoType) (b : bytes)
    (items : list bytes) (Hparse : Unmarshal_List b = Some items) (v : GoValue Msg) :
  Unmarshal b (TPointer (TSlice elemType)) = Ok v
  <-> exists slice,
        v = VSlice elemType slice
        /\ Forall2 (fun elemBytes x => decode_elem elemType elemBytes = Ok x) items slice.
Proof.
  unfold Unmarshal. rewrite UnmarshalPtr_slice, Hparse. cbn [of_option bind].
  split.
  - destruct (mapM (decode_elem elemType) items) as [slice | e | p] eqn:Hmap;
      cbn [bind]; try discriminate.
    intros H; inversion H; subst. exists slice. split; [reflexivity |].
    apply mapM_Ok, Hmap.
  - intros [slice [-> Hall]]. apply mapM_Ok in Hall. rewrite Hall. reflexivity.
Qed.

Lemma set_fields_pointer (fields : list GoType) :
  existsb isPointer fields = true ->
  forall (items : list bytes) (vs : list (GoValue Msg)),
    length items = length fields ->
    set_fields UnmarshalPtr fields items <> Ok vs.
Proof.
  induction fields as [| f fields IH]; intros Hex items vs Hlen; [discriminate |].
  destruct items as [| i items]; [discriminate |].
  cbn [set_fields]. cbn [existsb] in Hex. cbn [length] in Hlen.
  destruct (isPointer f) eqn:Hf.
  - destruct f; discriminate.
  - cbn [orb] in Hex. destruct (UnmarshalPtr f i); cbn [bind]; try discriminate.
    fold (set_fields (Msg := Msg) UnmarshalPtr).
    destruct (set_fields UnmarshalPtr fields items) as [rest | e | p] eqn:Hrest;
      cbn [bind]; try discriminate.
    exfalso. apply (IH Hex items rest); [lia | exact Hrest].
Qed.

(** X6: a tuple type with a component of pointer type, in any position, is
    never decoded: whatever the bytes, [Unmarshal] returns no value for it. *)
Theorem Unmarshal_never_decodes_a_tuple_with_a_pointer (fields : list GoType)
    (b : bytes) (Hptr : existsb isPointer fields = true) :
  forall v : GoValue Msg, Unmarshal b (TPointer (TStruct fields)) <> Ok v.
Proof.
  intros v. unfold Unmarshal. cbn [UnmarshalPtr].
  destruct (Unmarshal_Tuple b) as [items |]; cbn [of_option bind]; [| discriminate].
  destruct (Nat.eqb_spec (length items) (length fields)) as [Hlen | Hlen];
    cbn [negb]; [| discriminate].
  destruct (set_fields UnmarshalPtr fields items) as [vs | e | p] eqn:Hset;
    cbn [bind]; try discriminate.
  exfalso. exact (set_fields_pointer fields Hptr items vs Hlen Hset).
Qed.

Lemma set_fields_returns (fields : list GoType) :
  Forall (fun f => forall b, returns (UnmarshalPtr (P := P) f b)) fields ->
  forall items : list bytes,
    length items = length fields ->
    returns (set_fields UnmarshalPtr fields items).
Proof.
  induction fields as [| f fields IH]; intros Hall items Hlen.
  - destruct items; [exact I | discriminate].
  - destruct items as [| i items]; [discriminate |].
    inversion Hall as [| ? ? Hf Hfields]; subst. cbn [set_fields].
    apply returns_bind; [apply Hf |]. intros x _.
    fold (set_fields (Msg := Msg) UnmarshalPtr).
    apply returns_bind; [apply IH; [exact Hfields | cbn in Hlen; lia] |].
    intros rest _. exact I.
Qed.

Lemma UnmarshalPtr_returns (t : GoType) :
  (forall b, returns (UnmarshalPtr (P := P) t b))
  /\ (forall b, returns (decode_elem (P := P) t b)).
Proof.
  induction t as [t Ht | e [IHe IHe'] | k e [IHk _] [_ IHe'] | fields IH | e [IHe _]]
    using GoType_nested_ind.
  - assert (H : forall b, returns (UnmarshalPtr (P := P) t b)).
    { intros b. destruct t; try contradiction; cbn [UnmarshalPtr];
        unfold DecodeZigzag32, DecodeZigzag64, DecodeVarint, DecodeFixed32,
          DecodeFixed64, DecodeRawBytes;
        repeat (apply returns_bind; [| intros ? _]); try exact I;
        match goal with
        | |- returns (of_parse ?x) => destruct x; exact I
        | |- returns (of_option _ ?x) => destruct x; exact I
        end. }
    split; [exact H |]. destruct t; try contradiction; exact H.
  - assert (H : forall b, returns (UnmarshalPtr (P := P) (TSlice e) b)).
    { intros b. rewrite UnmarshalPtr_slice.
      apply returns_bind; [destruct (Unmarshal_List b); exact I |]. intros items _.
      apply returns_bind; [| intros; exact I].
      apply mapM_returns. exact IHe'. }
    split; exact H.
  - assert (H : forall b, returns (UnmarshalPtr (P := P) (TMap k e) b)).
    { intros b. cbn [UnmarshalPtr]. destruct (isEmptyStruct e).
      - apply returns_bind; [destruct (Unmarshal_Set b); exact I |]. intros items _.
        apply returns_bind; [| intros; exact I].
        apply foldM_returns. intros s x.
        apply returns_bind; [apply IHk | intros; exact I].
      - apply returns_bind; [destruct (Unmarshal_Dictionary b); exact I |].
        intros items _.
        apply returns_bind; [| intros; exact I].
        apply foldM_returns. intros s [ek ev].
        apply returns_bind; [apply IHk |]. intros key _.
        apply returns_bind; [apply (IHe' ev) | intros; exact I]. }
    split; exact H.
  - assert (H : forall b, returns (UnmarshalPtr (P := P) (TStruct fields) b)).
    { intros b. cbn [UnmarshalPtr].
      apply returns_bind; [destruct (Unmarshal_Tuple b); exact I |]. intros items _.
      destruct (Nat.eqb_spec (length items) (length fields)) as [Hlen | Hlen];
        cbn [negb]; [| exact I].
      apply returns_bind; [| intros; exact I].
      apply set_fields_returns; [| exact Hlen].
      eapply Forall_impl; [| exact IH]. intros f Hf. exact (proj1 Hf). }
    split; exact H.
  - split; intros b; [exact I |].
    cbn [decode_elem]. apply returns_bind; [apply IHe | intros; exact I].
Qed.

(** X7: [Unmarshal] into a non-nil target returns, with a value or with an
    error, for every type and every input; the test of the tuple's length
    before the struct loop keeps [Field(i)] within the fields. *)
Theorem Unmarshal_returns (b : bytes) (mType : GoType) :
  returns (Unmarshal (P := P) b mType).
Proof.
  destruct mType; try exact I. apply UnmarshalPtr_returns.
Qed.

End MoreCodec3.

Section MoreLaw.
Context {Msg : Set} {P : ProtoLib Msg}.
Hypothesis lawful : ProtoLawful P.

(** X8: the round trip.  With a protobuf library that reads back what it
    writes, a well-formed value of a decodable type that is not a pointer is
    encoded by [Marshal], and [Unmarshal] of the encoding into a target of
    the value's type gives the value back. *)
Theorem Unmarshal_inverts_Marshal (v : GoValue Msg)
    (Hwf : well_formed v) (Hdec : decodable (type_of v) = true)
    (Hptr : isPointer (type_of v) = false) :
  (b <- Marshal v ;; Unmarshal b (TPointer (type_of v))) = Ok v.
Proof.
  destruct (Marshal_Unmarshal_roundtrip lawful v Hwf Hdec) as [b [Hm Hu]].
  rewrite Hm. cbn [bind]. unfold Unmarshal.
  rewrite <- decode_elem_not_pointer by exact Hptr. exact Hu.
Qed.

(** X9: on the decodable types the encoding is injective: two well-formed
    values of one type with the same encoding are the same value. *)
Theorem Marshal_injective (v w : GoValue Msg) (b : bytes)
    (Hv : well_formed v) (Hw : well_formed w)
    (Hdec : decodable (type_of v) = true) (Htype : type_of w = type_of v)
    (Hbv : Marshal v = Ok b) (Hbw : Marshal w = Ok b) :
  v = w.
Proof.
  destruct (Marshal_Unmarshal_roundtrip lawful v Hv Hdec) as [bv [Hmv Huv]].
  assert (Hdecw : decodable (type_of w) = true) by (rewrite Htype; exact Hdec).
  destruct (Marshal_Unmarshal_roundtrip lawful w Hw Hdecw) as [bw [Hmw Huw]].
  rewrite Hbv in Hmv. rewrite Hbw in Hmw.
  inversion Hmv; inversion Hmw; subst bv bw.
  rewrite Htype, Huv in Huw. inversion Huw. reflexivity.
Qed.

End MoreLaw.

Lemma Marshal_basic_kind_is_never_empty_witness :
  Marshal (P := WireProto.lib) (VString "")
  = Ok (marshal_buf (Msg := list bytes) (VString ""))
  /\ marshal_buf (Msg := list bytes) (VString "") <> [].
Proof.
  exact (Marshal_basic_kind_is_never_empty (P := WireProto.lib) (VString "") I).
Defined.

Lemma Unmarshal_ignores_trailing_bytes_witness :
  Unmarshal (P := WireProto.lib)
    (marshal_buf (Msg := list bytes) (VString "kerbal") ++ [x01; xff])
    (TPointer TString)
  = Ok (VString "kerbal").
Proof.
  apply (Unmarshal_ignores_trailing_bytes (P := WireProto.lib)
           (VString "kerbal") [x01; xff] I).
  vm_compute. discriminate.
Defined.

Lemma Unmarshal_refuses_a_truncated_value_witness :
  Unmarshal (P := WireProto.lib)
    (firstn 3 (marshal_buf (Msg := list bytes) (VString "kerbal"))) (TPointer TString)
  = Err (ErrParse Wire.errCodeTruncated).
Proof.
  apply (Unmarshal_refuses_a_truncated_value (P := WireProto.lib)
           (VString "kerbal") 3 I).
  - vm_compute. discriminate.
  - vm_compute. lia.
Defined.


Lemma Unmarshal_list_decodes_every_item_witness :
  Unmarshal (P := WireProto.lib) (WireProto.encode_items [[x07]; [xac; x02]])
    (TPointer (TSlice TUint32))
  = Ok (VSlice TUint32 [VUint32 7; VUint32 300])
  <-> exists slice,
        VSlice (Msg := list bytes) TUint32 [VUint32 7; VUint32 300]
        = VSlice TUint32 slice
        /\ Forall2 (fun elemBytes x => decode_elem (P := WireProto.lib) TUint32 elemBytes = Ok x)
             [[x07]; [xac; x02]] slice.
Proof.
  apply (Unmarshal_list_decodes_every_item (P := WireProto.lib) TUint32
           (WireProto.encode_items [[x07]; [xac; x02]]) [[x07]; [xac; x02]]).
  vm_compute. reflexivity.
Defined.

Lemma Unmarshal_never_decodes_a_tuple_with_a_pointer_witness :
  Unmarshal (P := WireProto.lib) (WireProto.encode_items [[x12]; [x07]])
    (TPointer (TStruct [TUint64; TPointer TClassObj]))
  <> Ok (VStruct [VUint64 18; VPointer TClassObj (Some (VClassObj 7))]).
Proof.
  apply (Unmarshal_never_decodes_a_tuple_with_a_pointer (P := WireProto.lib)
           [TUint64; TPointer TClassObj] (WireProto.encode_items [[x12]; [x07]])).
  reflexivity.
Defined.

Lemma Unmarshal_inverts_Marshal_witness :
  (b <- Marshal (P := WireProto.lib) Cases.dictionary ;;
   Unmarshal (P := WireProto.lib) b (TPointer (type_of Cases.dictionary)))
  = Ok Cases.dictionary.
Proof.
  apply (Unmarshal_inverts_Marshal WireProtoFacts.lawful Cases.dictionary).
  - well_formed_by_computation.
  - reflexivity.
  - reflexivity.
Defined.

Lemma Marshal_injective_witness : Cases.set_of_integers = Cases.set_of_integers.
Proof.
  apply (Marshal_injective WireProtoFacts.lawful Cases.set_of_integers
           Cases.set_of_integers
           (WireProto.encode_items [[xff; xff; xff; xff; x0f]; [x00]])).
  - well_formed_by_computation.
  - well_formed_by_computation.
  - reflexivity.
  - reflexivity.
  - vm_compute. reflexivity.
  - vm_compute. reflexivity.
Defined.

(** * More of the client: frames *)

Lemma set_incoming_twice (r : Conn) (xs ys : list ReadEvent) :
  set_incoming (set_incoming r xs) ys = set_incoming r ys.
Proof. reflexivity. Qed.

Lemma ReadFull_loop_delivers (bs : bytes) :
  forall (got : bytes) (r : Conn) (rest : list ReadEvent),
    incoming r = map Delivers bs ++ rest ->
    ReadFull_loop (length bs) got r = ((got ++ bs, None), set_incoming r rest).
Proof.
  induction bs as [| b bs IH]; intros got r rest Hin; cbn [length ReadFull_loop].
  - cbn in Hin. rewrite app_nil_r, <- Hin, set_incoming_id. reflexivity.
  - unfold Read. rewrite Hin. cbn [map app].
    rewrite (IH (got ++ [b]) (set_incoming r (map Delivers bs ++ rest)) rest eq_refl).
    rewrite <- app_assoc. reflexivity.
Qed.

Lemma ReadFull_loop_short (bs : bytes) :
  forall (n : nat) (got : bytes) (r : Conn),
    incoming r = map Delivers bs ->
    (length bs < n)%nat ->
    ReadFull_loop n got r
    = ((got ++ bs ++ repeat x00 (n - length bs),
        Some (match got ++ bs with
              | [] => ErrEOF
              | _ :: _ => ErrUnexpectedEOF
              end)),
       set_incoming r []).
Proof.
  induction bs as [| b bs IH]; intros n got r Hin Hn;
    (destruct n as [| n]; [cbn in Hn; lia |]); cbn [ReadFull_loop].
  - cbn [map] in Hin.
    assert (Hr : set_incoming r [] = r) by (rewrite <- Hin; apply set_incoming_id).
    unfold Read. rewrite Hr, Hin. cbn [app length]. rewrite app_nil_r.
    destruct got; reflexivity.
  - unfold Read. rewrite Hin. cbn [map].
    rewrite (IH n (got ++ [b]) (set_incoming r (map Delivers bs)) eq_refl)
      by (cbn in Hn; lia).
    rewrite <- !app_assoc. reflexivity.
Qed.

Lemma send_written (w : Conn) (data : bytes) :
  fst (send w data) = None ->
  written (snd (send w data))
  = written w ++ [Wire.EncodeVarint (Z.of_nat (length data)); data].
Proof.
  unfold send, Write. destruct (hd None (write_results w)) as [e |]; [discriminate |].
  cbn [fst snd written write_results].
  destruct (hd None (tl (write_results w))) as [e |]; [discriminate |].
  intros _. rewrite <- app_assoc. reflexivity.
Qed.

(** X10: what [send] wrote, [receive] reads back.  When [send] reports no
    error, a reader that is delivered the bytes of its writes, followed by
    anything, gets the data and no error from [receive], and what follows the
    frame is left unread. *)
Theorem receive_reads_what_send_wrote (w r : Conn) (data : bytes)
    (rest : list ReadEvent) (Hdata : go_slice data)
    (Hsent : fst (send w data) = None)
    (Hin : incoming r
           = map Delivers
               (concat (skipn (length (written w)) (written (snd (send w data)))))
             ++ rest) :
  receive r = ((data, Ok tt), set_incoming r rest).
Proof.
  rewrite (send_written w data Hsent), skipn_app, Nat.sub_diag, skipn_all in Hin.
  cbn [skipn app concat] in Hin. rewrite app_nil_r, map_app, <- app_assoc in Hin.
  unfold receive.
  rewrite (readMessageLength_reads_a_length (Z.of_nat (length data)) r
             (map Delivers data ++ rest))
    by (exact Hin || (pose proof (WireProtoFacts.go_slice_fits _ Hdata);
                      unfold is_uint64; lia)).
  unfold go_slice in Hdata.
  destruct (Z.ltb_spec maxAlloc (Z.of_nat (length data))); [lia |].
  unfold ReadFull. rewrite Nat2Z.id.
  rewrite (ReadFull_loop_delivers data [] (set_incoming r (map Delivers data ++ rest))
             rest eq_refl).
  reflexivity.
Qed.

(** X11: a frame cut short.  When the stream ends inside the payload,
    [receive] returns a buffer of the announced length, the bytes that
    arrived followed by zeros, with [io.EOF] when no payload byte arrived and
    [io.ErrUnexpectedEOF] otherwise. *)
Theorem receive_of_a_frame_cut_short (r : Conn) (n : Z) (got : bytes)
    (Hn : 0 <= n <= maxAlloc) (Hshort : Z.of_nat (length got) < n)
    (Hin : incoming r = map Delivers (Wire.EncodeVarint n ++ got)) :
  receive r
  = ((got ++ repeat x00 (Z.to_nat n - length got),
      Err (match got with
           | [] => ErrEOF
           | _ :: _ => ErrUnexpectedEOF
           end)),
     set_incoming r []).
Proof.
  rewrite map_app in Hin. unfold receive.
  rewrite (readMessageLength_reads_a_length n r (map Delivers got))
    by (exact Hin || (unfold is_uint64, maxAlloc in *; lia)).
  destruct (Z.ltb_spec maxAlloc n); [lia |].
  unfold ReadFull.
  rewrite (ReadFull_loop_short got (Z.to_nat n) [] (set_incoming r (map Delivers got))
             eq_refl) by lia.
  reflexivity.
Qed.

(** X12: a length above the largest allocation.  [receive] passes the length
    it read to [make] unchecked: a peer that announces more than the runtime
    can allocate makes [receive] panic, before any payload byte is read. *)
Theorem receive_panics_on_a_huge_length (r : Conn) (n : Z) (rest : list ReadEvent)
    (Hn : is_uint64 n) (Hhuge : maxAlloc < n)
    (Hin : incoming r = map Delivers (Wire.EncodeVarint n) ++ rest) :
  receive r = (([], Panic MakeSliceOutOfRange), set_incoming r rest).
Proof.
  unfold receive. rewrite (readMessageLength_reads_a_length n r rest Hn Hin).
  destruct (Z.ltb_spec maxAlloc n); [reflexivity | lia].
Qed.

Lemma receive_reads_what_send_wrote_witness :
  receive (Scenario.scripted [x03; x01; x02; x03; x07])
  = (([x01; x02; x03], Ok tt),
     set_incoming (Scenario.scripted [x03; x01; x02; x03; x07]) [Delivers x07]).
Proof.
  apply (receive_reads_what_send_wrote (Scenario.scripted [])
           (Scenario.scripted [x03; x01; x02; x03; x07]) [x01; x02; x03]
           [Delivers x07]).
  - vm_compute. discriminate.
  - reflexivity.
  - reflexivity.
Defined.

Lemma receive_of_a_frame_cut_short_witness :
  receive (Scenario.scripted [x03; x01])
  = (([x01] ++ repeat x00 (Z.to_nat 3 - length [x01]), Err ErrUnexpectedEOF),
     set_incoming (Scenario.scripted [x03; x01]) []).
Proof.
  apply (receive_of_a_frame_cut_short (Scenario.scripted [x03; x01]) 3 [x01]).
  - unfold maxAlloc. lia.
  - cbn. lia.
  - reflexivity.
Defined.

Lemma receive_panics_on_a_huge_length_witness :
  receive (Scenario.scripted (Wire.EncodeVarint (2 ^ 48 + 1) ++ [x01]))
  = (([], Panic MakeSliceOutOfRange),
     set_incoming (Scenario.scripted (Wire.EncodeVarint (2 ^ 48 + 1) ++ [x01]))
       [Delivers x01]).
Proof.
  apply (receive_panics_on_a_huge_length
           (Scenario.scripted (Wire.EncodeVarint (2 ^ 48 + 1) ++ [x01]))
           (2 ^ 48 + 1) [Delivers x01]).
  - unfold is_uint64. lia.
  - unfold maxAlloc. lia.
  - vm_compute. reflexivity.
Defined.

(** * More of the client: connections and calls *)

Lemma Read_consumes (r : Conn) : exists rest, snd (Read r) = set_incoming r rest.
Proof.
  unfold Read. destruct (incoming r) as [| [b | e] rest] eqn:Hin.
  - exists []. rewrite <- Hin, set_incoming_id. reflexivity.
  - exists rest. reflexivity.
  - exists rest. reflexivity.
Qed.

Lemma ReadFull_loop_consumes (n : nat) :
  forall (got : bytes) (r : Conn),
    exists rest, snd (ReadFull_loop n got r) = set_incoming r rest.
Proof.
  induction n as [| n IH]; intros got r; cbn [ReadFull_loop].
  - exists (incoming r). rewrite set_incoming_id. reflexivity.
  - destruct (Read_consumes r) as [rest Hr]. destruct (Read r) as [[b | e] r'].
    + cbn [snd] in Hr. subst r'.
      destruct (IH (got ++ [b]) (set_incoming r rest)) as [rest' Hr'].
      exists rest'. rewrite Hr'. apply set_incoming_twice.
    + exists rest. exact Hr.
Qed.

Lemma readMessageLength_loop_consumes (n : nat) :
  forall (rawLength : bytes) (r : Conn),
    exists rest, snd (readMessageLength_loop n rawLength r) = set_incoming r rest.
Proof.
  induction n as [| n IH]; intros rawLength r; cbn [readMessageLength_loop].
  - exists (incoming r). rewrite set_incoming_id. reflexivity.
  - destruct (Read_consumes r) as [rest Hr]. destruct (Read r) as [[b | e] r'].
    + cbn [snd] in Hr. subst r'.
      destruct (Wire.DecodeVarint (rawLength ++ [b])) as [len size].
      destruct (0 <? size)%nat.
      * exists rest. reflexivity.
      * destruct (IH (rawLength ++ [b]) (set_incoming r rest)) as [rest' Hr'].
        exists rest'. rewrite Hr'. apply set_incoming_twice.
    + exists rest. exact Hr.
Qed.

(** [receive] only reads: it leaves what was written, and whether the
    connection is closed, as they were. *)
Lemma receive_consumes (r : Conn) : exists rest, snd (receive r) = set_incoming r rest.
Proof.
  unfold receive, readMessageLength.
  destruct (readMessageLength_loop_consumes 16 [] r) as [rest Hr].
  destruct (readMessageLength_loop 16 [] r) as [[len | e | p] r']; cbn [snd] in Hr;
    subst r'; try (exists rest; reflexivity).
  destruct (maxAlloc <? len); [exists rest; reflexivity |].
  unfold ReadFull.
  destruct (ReadFull_loop_consumes (Z.to_nat len) [] (set_incoming r rest))
    as [rest' Hr'].
  destruct (ReadFull_loop (Z.to_nat len) [] (set_incoming r rest)) as [[data [e |]] r''];
    cbn [snd] in *; subst r''; exists rest'; apply set_incoming_twice.
Qed.

Lemma send_closed (w : Conn) (data : bytes) : closed (snd (send w data)) = closed w.
Proof.
  unfold send, Write. destruct (hd None (write_results w)); reflexivity.
Qed.

Lemma send_incoming (w : Conn) (data : bytes) :
  incoming (snd (send w data)) = incoming w.
Proof.
  unfold send, Write. destruct (hd None (write_results w)); reflexivity.
Qed.

(** What [send] writes: the length, then the data, up to the first write
    that fails. *)
Lemma send_writes (w : Conn) (data : bytes) :
  written (snd (send w data))
  = written w
    ++ match hd None (write_results w), hd None (tl (write_results w)) with
       | Some _, _ => []
       | None, Some _ => [Wire.EncodeVarint (Z.of_nat (length data))]
       | None, None => [Wire.EncodeVarint (Z.of_nat (length data)); data]
       end.
Proof.
  unfold send, Write. destruct (hd None (write_results w)) as [e |].
  - cbn. rewrite app_nil_r. reflexivity.
  - cbn [fst snd written write_results].
    destruct (hd None (tl (write_results w))) as [e |]; [reflexivity |].
    rewrite <- app_assoc. reflexivity.
Qed.

(** A frame that arrives whole is received. *)
Lemma receive_frame (r : Conn) (data : bytes) (rest : list ReadEvent) :
  go_slice data ->
  incoming r
  = map Delivers (Wire.EncodeVarint (Z.of_nat (length data)) ++ data) ++ rest ->
  receive r = ((data, Ok tt), set_incoming r rest).
Proof.
  intros Hdata Hin. rewrite map_app, <- app_assoc in Hin. unfold receive.
  rewrite (readMessageLength_reads_a_length (Z.of_nat (length data)) r
             (map Delivers data ++ rest))
    by (exact Hin || (pose proof (WireProtoFacts.go_slice_fits _ Hdata);
                      unfold is_uint64; lia)).
  unfold go_slice in Hdata.
  destruct (Z.ltb_spec maxAlloc (Z.of_nat (length data))); [lia |].
  unfold ReadFull. rewrite Nat2Z.id.
  rewrite (ReadFull_loop_delivers data [] (set_incoming r (map Delivers data ++ rest))
             rest eq_refl).
  reflexivity.
Qed.

(** [Send] and [Receive] touch nothing of the client but its connection. *)
Lemma Send_keeps (c : KRPCClient) (data : bytes) :
  exists k, snd (Send c data) = set_conn c k
            /\ (forall k0, conn c = Some k0 ->
                  k = Some (snd (send k0 data))).
Proof.
  unfold Send. destruct (conn c) as [k0 |] eqn:Hk.
  - exists (Some (snd (send k0 data))). split.
    + destruct (send k0 data) as [[e |] k']; reflexivity.
    + intros k1 H; inversion H; reflexivity.
  - exists None. split; [| discriminate].
    destruct c; cbn in *; subst; reflexivity.
Qed.

Lemma Receive_keeps (c : KRPCClient) :
  exists k, snd (Receive c) = set_conn c k
            /\ (forall k0, conn c = Some k0 ->
                  exists rest, k = Some (set_incoming k0 rest)).
Proof.
  unfold Receive. destruct (conn c) as [k0 |] eqn:Hk.
  - destruct (receive_consumes k0) as [rest Hr].
    exists (Some (set_incoming k0 rest)). split.
    + destruct (receive k0) as [res k']. cbn [snd] in *. subst k'. reflexivity.
    + intros k1 H; inversion H; subst. exists rest. reflexivity.
  - exists None. split; [| discriminate].
    destruct c; cbn in *; subst; reflexivity.
Qed.

Section MoreClient.
Context {Msg : Set} {P : ProtoLib Msg}.

(** What [connectRPC] leaves of the client: the configuration, the mutex and
    the stream client as they were, an identifier of the same length, and,
    once the dial succeeded, the dialled connection, written to and read
    from but not closed. *)
Lemma connectRPC_keeps (net : Network) (c : KRPCClient) :
  let c' := snd (connectRPC net c) in
  config c' = config c
  /\ mu c' = mu c
  /\ streamClient c' = streamClient c
  /\ length (clientIdentifier c') = length (clientIdentifier c)
  /\ (forall k, net (Host (config c)) (RPCPort (config c)) = inl k ->
        exists k', conn c' = Some k' /\ closed k' = closed k).
Proof.
  unfold connectRPC.
  destruct (net (Host (config c)) (RPCPort (config c))) as [k | e].
  2:{ cbn. repeat split. discriminate. }
  cbn zeta.
  assert (Hbase : forall k' : Conn, closed k' = closed k ->
            let c' := set_conn c (Some k') in
            config c' = config c /\ mu c' = mu c /\ streamClient c' = streamClient c
            /\ length (clientIdentifier c') = length (clientIdentifier c)
            /\ (forall k0, inl (B := error) k = inl k0 ->
                  exists k'0, conn c' = Some k'0 /\ closed k'0 = closed k0)).
  { intros k' Hk'. cbn. repeat split. intros k0 H; inversion H; subst.
    exists k'. split; [reflexivity | exact Hk']. }
  destruct (Marshal_ConnectionRequest _) as [out |]; [| exact (Hbase k eq_refl)].
  destruct (Send_keeps (set_conn c (Some k)) out) as [k1 [Hs Hk1]].
  specialize (Hk1 k eq_refl). subst k1.
  destruct (Send (set_conn c (Some k)) out) as [[[] | e | p] c1]; cbn [snd] in Hs;
    subst c1; try (apply Hbase, send_closed).
  destruct (Receive_keeps (set_conn (set_conn c (Some k)) (Some (snd (send k out)))))
    as [k2 [Hr Hk2]].
  destruct (Hk2 _ eq_refl) as [rest ->]. clear Hk2.
  destruct (Receive _) as [[in_ [[] | e | p]] c2]; cbn [snd] in Hr; subst c2;
    try (apply (Hbase (set_incoming (snd (send k out)) rest)), send_closed).
  destruct (Unmarshal_ConnectionResponse in_) as [resp |];
    [| apply (Hbase (set_incoming (snd (send k out)) rest)), send_closed].
  destruct (Status resp);
    try (apply (Hbase (set_incoming (snd (send k out)) rest)), send_closed).
  cbn. repeat split.
  - unfold copy. rewrite length_app, length_firstn, length_skipn. lia.
  - intros k0 H; inversion H; subst. eexists. split; [reflexivity |].
    cbn. apply send_closed.
Qed.

(** X13: [Connect] reports the errors of the RPC handshake and no other: it
    returns an error exactly when [connectRPC] returns that error, so no
    failure of the stream handshake is ever returned. *)
Theorem Connect_reports_only_the_RPC_handshake (net : Network) (c c' : KRPCClient)
    (e : error) :
  Connect net c = (Err e, c') <-> connectRPC net c = (Err e, c').
Proof.
  unfold Connect. destruct (connectRPC net c) as [[[] | e1 | p] c1].
  - split; [| discriminate]. destruct (negb (RPCOnly (config c1))); [| discriminate].
    intros H. destruct (connectStream_never_fails net c1) as [Hok | [p Hp]];
      rewrite H in *; discriminate.
  - reflexivity.
  - reflexivity.
Qed.

(** X14: with [RPCOnly] set, [Connect] is [connectRPC]: the stream port is
    not dialled and the client keeps the stream client it had. *)
Theorem Connect_RPCOnly (net : Network) (c : KRPCClient)
    (Honly : RPCOnly (config c) = true) :
  Connect net c = connectRPC net c
  /\ streamClient (snd (Connect net c)) = streamClient c.
Proof.
  destruct (connectRPC_keeps net c) as [Hcfg [_ [Hs _]]]. cbn zeta in *.
  assert (H : Connect net c = connectRPC net c).
  { unfold Connect. destruct (connectRPC net c) as [[[] | e | p] c1]; try reflexivity.
    cbn [snd] in Hcfg. rewrite Hcfg, Honly. reflexivity. }
  split; [exact H | rewrite H; exact Hs].
Qed.

(** X15: the stream handshake carries the client's identifier.  When
    [connectStream] returns and its writes succeeded, the connection of the
    stream client it started was written one frame and nothing else: the
    serialized STREAM request that holds the identifier of the client. *)
Theorem connectStream_sends_the_identifier (net : Network) (c : KRPCClient)
    (k : Conn) (out : bytes)
    (Hdial : net (Host (config c)) (StreamPort (config c)) = inl k)
    (Hreq : Marshal_ConnectionRequest
              {| Type_ := ConnectionRequest_STREAM; ClientName_ := EmptyString;
                 ReqClientIdentifier := clientIdentifier c |} = Some out)
    (Hsend : fst (send k out) = None)
    (Hok : fst (connectStream net c) = Ok tt) :
  exists s, streamClient (snd (connectStream net c)) = Some s
            /\ written (stream_conn s)
               = written k ++ [Wire.EncodeVarint (Z.of_nat (length out)); out].
Proof.
  pose proof (send_written k out Hsend) as Hw.
  unfold connectStream in *. rewrite Hdial, Hreq in *. cbn zeta in *.
  destruct (send k out) as [r k1]. cbn [snd] in Hw.
  destruct (receive_consumes k1) as [rest Hr].
  destruct (receive k1) as [[in_ [[] | e | p]] k2]; cbn [snd fst] in *; subst k2;
    try discriminate;
    (eexists; split; [reflexivity | exact Hw]).
Qed.

(** X16: [connectRPC] never closes the connection it dialled: whether the
    handshake succeeds or fails, the client holds the connection afterwards,
    still open. *)
Theorem connectRPC_leaves_the_connection_open (net : Network) (c : KRPCClient)
    (k : Conn) (Hdial : net (Host (config c)) (RPCPort (config c)) = inl k)
    (Hopen : closed k = false) :
  exists k', conn (snd (connectRPC net c)) = Some k' /\ closed k' = false.
Proof.
  destruct (connectRPC_keeps net c) as [_ [_ [_ [_ H]]]]. cbn zeta in H.
  destruct (H k Hdial) as [k' [Hk' Hc]]. exists k'. split; [exact Hk' |].
  rewrite Hc. exact Hopen.
Qed.

(** X17: one call, at most one frame.  [CallMultiple] on a connected client
    writes the length of the serialized request and then the request, up to
    the first write that fails, and writes nothing else, whatever the answer
    is. *)
Theorem CallMultiple_writes_one_frame (c : KRPCClient) (calls : list ProcedureCall)
    (k : Conn) (out : bytes) (Hconn : conn c = Some k)
    (Hreq : Marshal_Request calls = Some out) :
  exists k', conn (snd (CallMultiple c calls)) = Some k'
             /\ written k'
                = written k
                  ++ match hd None (write_results k),
                           hd None (tl (write_results k)) with
                     | Some _, _ => []
                     | None, Some _ => [Wire.EncodeVarint (Z.of_nat (length out))]
                     | None, None => [Wire.EncodeVarint (Z.of_nat (length out)); out]
                     end.
Proof.
  rewrite <- (send_writes k out).
  unfold CallMultiple. rewrite Hreq. cbn zeta.
  unfold Send. cbn [conn set_mu]. rewrite Hconn.
  destruct (send k out) as [[e |] k1]; cbn [snd].
  - eexists. split; reflexivity.
  - unfold Receive. cbn [conn set_conn].
    destruct (receive_consumes k1) as [rest Hr].
    destruct (receive k1) as [[in_ res] k2]. cbn [snd] in Hr. subst k2.
    exists (set_incoming k1 rest). split; [| reflexivity].
    destruct res as [[] | e | p]; try reflexivity.
    destruct (Unmarshal_Response in_) as [resp |]; [| reflexivity].
    destruct (ResponseError resp); reflexivity.
Qed.

End MoreClient.

Lemma default_idempotent (env : string -> option string) (field name value : string) :
  value <> EmptyString ->
  let d := if String.eqb field ""%string then
             match env name with Some v => v | None => value end
           else field in
  (if String.eqb d ""%string then
     match env name with Some v => v | None => value end
   else d) = d.
Proof.
  intros Hvalue. cbn zeta.
  destruct (String.eqb_spec field ""%string) as [-> | Hfield].
  - destruct (env name) as [v |].
    + destruct (String.eqb_spec v ""%string); reflexivity.
    + destruct (String.eqb_spec value ""%string); [contradiction | reflexivity].
  - destruct (String.eqb_spec field ""%string); [contradiction | reflexivity].
Qed.

(** X18: [SetDefaults] is idempotent in every environment, also one that sets
    a variable to the empty string: a second call changes nothing, so a
    configuration that went through [NewKRPCClient] can be passed to it
    again. *)
Theorem SetDefaults_idempotent (env : string -> option string) (cfg : KRPCClientConfig) :
  SetDefaults env (SetDefaults env cfg) = SetDefaults env cfg.
Proof.
  unfold SetDefaults. cbn [Host RPCPort StreamPort ClientName RPCOnly].
  rewrite !default_idempotent by discriminate. reflexivity.
Qed.

Section Edges.
Context {Msg : Set} {P : ProtoLib Msg}.

(** X22: the range of the target is not checked.  The varint that encodes a
    64-bit value [u], followed by any bytes, is accepted under a [*uint32]
    target and gives [u] modulo [2^32]; under a [*bool] target it gives
    [true] for every [u] but zero. *)
Theorem Unmarshal_narrows_without_error (u : Z) (rest : bytes) (Hu : is_uint64 u) :
  Unmarshal (P := P) (Wire.EncodeVarint u ++ rest) (TPointer TUint32)
  = Ok (VUint32 (u mod 2 ^ 32))
  /\ Unmarshal (P := P) (Wire.EncodeVarint u ++ rest) (TPointer TBool)
     = Ok (VBool (negb (u =? 0))).
Proof.
  unfold Unmarshal. cbn [UnmarshalPtr]. unfold DecodeVarint.
  rewrite ConsumeVarint_EncodeVarint by exact Hu. split; reflexivity.
Qed.

(** X23: a call before [Connect].  On a client fresh from [NewKRPCClient]
    the connection is nil: [CallMultiple] serializes the request, takes the
    mutex and panics in the first write, and the mutex stays locked. *)
Theorem CallMultiple_before_Connect_panics (env : string -> option string)
    (cfg : KRPCClientConfig) (calls : list ProcedureCall) (out : bytes)
    (Hreq : Marshal_Request calls = Some out) :
  CallMultiple (NewKRPCClient env cfg) calls
  = (Panic NilDereference, set_mu (NewKRPCClient env cfg) true).
Proof. unfold CallMultiple. rewrite Hreq. reflexivity. Qed.

End Edges.

Lemma Unmarshal_narrows_without_error_witness :
  Unmarshal (P := WireProto.lib) (Wire.EncodeVarint (2 ^ 32 + 5) ++ [])
    (TPointer TUint32)
  = Ok (VUint32 ((2 ^ 32 + 5) mod 2 ^ 32))
  /\ Unmarshal (P := WireProto.lib) (Wire.EncodeVarint (2 ^ 32 + 5) ++ [])
       (TPointer TBool)
     = Ok (VBool (negb (2 ^ 32 + 5 =? 0))).
Proof.
  apply (Unmarshal_narrows_without_error (P := WireProto.lib) (2 ^ 32 + 5) []).
  unfold is_uint64. lia.
Defined.

Lemma CallMultiple_before_Connect_panics_witness :
  CallMultiple (P := WireProto.lib) Scenario.fresh_client [Scenario.GetStatus]
  = (Panic NilDereference, set_mu Scenario.fresh_client true).
Proof.
  pose (out := match Marshal_Request (ProtoLib := WireProto.lib) [Scenario.GetStatus] with
               | Some o => o
               | None => []
               end).
  assert (H : Marshal_Request (ProtoLib := WireProto.lib) [Scenario.GetStatus] = Some out)
    by (vm_compute; reflexivity).
  exact (CallMultiple_before_Connect_panics (P := WireProto.lib) (fun _ => None) _
           [Scenario.GetStatus] out H).
Defined.

Lemma CallMultiple_unlocks_witness :
  mu (snd (CallMultiple (P := WireProto.lib) Scenario.answers_with_request_error
             [Scenario.GetStatus]))
  = false.
Proof.
  set (c := Scenario.answers_with_request_error).
  set (calls := [Scenario.GetStatus]).
  assert (Hr : fst (CallMultiple (P := WireProto.lib) c calls)
               = Err (ErrRpc Scenario.no_such_procedure))
    by (vm_compute; reflexivity).
  apply (CallMultiple_unlocks (P := WireProto.lib) c
           (snd (CallMultiple (P := WireProto.lib) c calls)) calls
           (fst (CallMultiple (P := WireProto.lib) c calls))).
  - reflexivity.
  - apply surjective_pairing.
  - intros p. rewrite Hr. discriminate.
Defined.

Lemma Close_closes_both_witness :
  option_map closed (conn (snd (Close Scenario.both_open))) = Some true
  /\ (forall s, streamClient Scenario.both_open = Some s ->
        option_map (fun s' => closed (stream_conn s'))
          (streamClient (snd (Close Scenario.both_open)))
        = Some true).
Proof.
  exact (Close_closes_both Scenario.both_open (Scenario.scripted []) eq_refl).
Defined.

Lemma Connect_RPCOnly_witness :
  Connect (P := WireProto.lib) (Servers.accepting_network [x2a])
    (NewKRPCClient (fun _ => None) Servers.rpc_only)
  = connectRPC (P := WireProto.lib) (Servers.accepting_network [x2a])
      (NewKRPCClient (fun _ => None) Servers.rpc_only)
  /\ streamClient
       (snd (Connect (P := WireProto.lib) (Servers.accepting_network [x2a])
               (NewKRPCClient (fun _ => None) Servers.rpc_only)))
     = streamClient (NewKRPCClient (fun _ => None) Servers.rpc_only).
Proof.
  apply (Connect_RPCOnly (P := WireProto.lib) (Servers.accepting_network [x2a])
           (NewKRPCClient (fun _ => None) Servers.rpc_only)).
  reflexivity.
Defined.

Lemma connectRPC_leaves_the_connection_open_witness :
  exists k',
    conn (snd (connectRPC (P := WireProto.lib) Scenario.refusing_network
                 Scenario.fresh_client))
    = Some k'
    /\ closed k' = false.
Proof.
  apply (connectRPC_leaves_the_connection_open (P := WireProto.lib)
           Scenario.refusing_network Scenario.fresh_client
           (Scenario.scripted
              (Scenario.frame (Scenario.encode_ConnectionResponse Scenario.wrong_type)))).
  - reflexivity.
  - reflexivity.
Defined.

Lemma CallMultiple_writes_one_frame_witness :
  exists k',
    conn (snd (CallMultiple (P := WireProto.lib) Scenario.answers_with_no_result
                 [Scenario.GetStatus]))
    = Some k'
    /\ written k'
       = [] ++ [Wire.EncodeVarint
                  (Z.of_nat
                     (length
                        (WireProto.AppendFields
                           [(1, WireProto.FBytes
                                  (WireProto.encode_ProcedureCall
                                     Scenario.GetStatus))])));
                WireProto.AppendFields
                  [(1, WireProto.FBytes
                         (WireProto.encode_ProcedureCall Scenario.GetStatus))]].
Proof.
  apply (CallMultiple_writes_one_frame (P := WireProto.lib)
           Scenario.answers_with_no_result [Scenario.GetStatus]
           (Scenario.scripted
              (Scenario.frame
                 (Scenario.encode_Response
                    {| ResponseError := None; Results := [] |})))).
  - reflexivity.
  - reflexivity.
Defined.

Lemma connectStream_sends_the_identifier_witness :
  exists s,
    streamClient
      (snd (connectStream (P := WireProto.lib) (Servers.accepting_network [x2a])
              Scenario.fresh_client))
    = Some s
    /\ written (stream_conn s)
       = written (Scenario.scripted
                    (Scenario.frame
                       (Scenario.encode_ConnectionResponse (Servers.accepted [x2a]))))
         ++ [Wire.EncodeVarint
               (Z.of_nat
                  (length
                     (WireProto.AppendFields
                        [(1, WireProto.FVarint 1);
                         (3, WireProto.FBytes (repeat x00 16))])));
             WireProto.AppendFields
               [(1, WireProto.FVarint 1); (3, WireProto.FBytes (repeat x00 16))]].
Proof.
  apply (connectStream_sends_the_identifier (P := WireProto.lib)
           (Servers.accepting_network [x2a]) Scenario.fresh_client).
  - reflexivity.
  - vm_compute. reflexivity.
  - reflexivity.
  - vm_compute. reflexivity.
Defined.

Section Identifier.
Context {Msg : Set} {P : ProtoLib Msg}.

(** X24: a successful RPC handshake.  When the dial succeeds, the request is
    sent, and the connection delivers a frame whose payload parses as an
    answer of status OK, [connectRPC] returns nil, and the client holds the
    connection and, as its identifier, the identifier of that answer copied
    over the old one; nothing else of the client changes. *)
Theorem connectRPC_stores_the_identifier (net : Network) (c : KRPCClient)
    (k : Conn) (out in_ : bytes) (resp : ConnectionResponse) (rest : list ReadEvent)
    (Hdial : net (Host (config c)) (RPCPort (config c)) = inl k)
    (Hreq : Marshal_ConnectionRequest
              {| Type_ := ConnectionRequest_RPC; ClientName_ := ClientName (config c);
                 ReqClientIdentifier := [] |} = Some out)
    (Hsend : fst (send k out) = None)
    (Hin : incoming k
           = map Delivers (Wire.EncodeVarint (Z.of_nat (length in_)) ++ in_) ++ rest)
    (Hlen : go_slice in_)
    (Hparse : Unmarshal_ConnectionResponse in_ = Some resp)
    (Hstatus : Status resp = ConnectionResponse_OK) :
  connectRPC net c
  = (Ok tt,
     set_clientIdentifier
       (set_conn c (Some (set_incoming (snd (send k out)) rest)))
       (copy (clientIdentifier c) (ClientIdentifier resp))).
Proof.
  unfold connectRPC. rewrite Hdial. cbn zeta. cbn [config set_conn]. rewrite Hreq.
  unfold Send. cbn [conn set_conn].
  pose proof (send_incoming k out) as Hk1.
  destruct (send k out) as [[e |] k1]; [discriminate |]. cbn [snd] in *.
  unfold Receive. cbn [conn set_conn].
  rewrite (receive_frame k1 in_ rest Hlen) by (rewrite Hk1; exact Hin).
  rewrite Hparse, Hstatus. reflexivity.
Qed.

End Identifier.

Lemma connectRPC_stores_the_identifier_witness :
  connectRPC (P := WireProto.lib) (Servers.accepting_network [x2a; x2b])
    Scenario.fresh_client
  = (Ok tt,
     set_clientIdentifier
       (set_conn Scenario.fresh_client
          (Some (set_incoming
                   (snd (send
                           (Scenario.scripted
                              (Scenario.frame
                                 (Scenario.encode_ConnectionResponse
                                    (Servers.accepted [x2a; x2b]))))
                           (WireProto.AppendFields
                              (WireProto.string_field 2 "krpc-go"))))
                   [])))
       (copy (clientIdentifier Scenario.fresh_client)
          (ClientIdentifier (Servers.accepted [x2a; x2b])))).
Proof.
  apply (connectRPC_stores_the_identifier (P := WireProto.lib)
           (Servers.accepting_network [x2a; x2b]) Scenario.fresh_client
           (Scenario.scripted
              (Scenario.frame
                 (Scenario.encode_ConnectionResponse (Servers.accepted [x2a; x2b]))))
           (WireProto.AppendFields (WireProto.string_field 2 "krpc-go"))
           (Scenario.encode_ConnectionResponse (Servers.accepted [x2a; x2b]))
           (Servers.accepted [x2a; x2b]) []).
  - reflexivity.
  - vm_compute. reflexivity.
  - reflexivity.
  - vm_compute. reflexivity.
  - vm_compute. discriminate.
  - vm_compute. reflexivity.
  - reflexivity.
Defined.

(** The identifier a fresh client holds after that handshake: the two bytes
    of the server, then the zeros that were there. *)
Example connectRPC_identifier_of_two_bytes :
  clientIdentifier
    (snd (connectRPC (P := WireProto.lib) (Servers.accepting_network [x2a; x2b])
            Scenario.fresh_client))
  = [x2a; x2b] ++ repeat x00 14.
Proof. vm_compute. reflexivity. Qed.
